(** * Backend-AI-Mentor: message segmentation, diagram viewport, transcript
      reconciliation

    A shallow embedding of the algorithmic parts of

    - [src/components/ChatMessage.tsx] ([FormattedContent], [MermaidDiagram],
      [DiagramModal]),
    - [src/components/ChatHistory.tsx] ([ChatHistory]),
    - [src/components/ChatInput.tsx] ([performSubmit], [processFile],
      [processFolder]),
    - [src/App.tsx] ([fileToPart], [handleSendMessage]),

    followed by the properties the specification states about them.

    Conventions.  A JavaScript string is the list of its UTF-16 code units
    (type [N]).  A finite JavaScript number is a rational ([Q]) and an
    arithmetic operation is the exact operation followed by rounding to the
    nearest double ([Binary64]); the metric properties of zoom, pan and
    autoscroll are stated with explicit rounding tolerances.  The viewport
    state machine ([Viewport]) is written over exact arithmetic and carries
    the properties that do not depend on rounding.  React state is threaded
    explicitly; asynchronous callbacks (timers, animation frames, stream
    chunks) are inputs of a step function. *)

From Stdlib Require Strings.String Strings.Ascii.
From Stdlib Require Import List NArith ZArith QArith Qminmax Qabs Qround
  Qpower Lqa Bool Lia.
From Equations Require Import Equations.
Import ListNotations.
Import String.StringSyntax.
Delimit Scope string_scope with string.

Set Implicit Arguments.

(* ===================================================================== *)
(** ** JavaScript strings *)
(* ===================================================================== *)

Module JS.

Local Open Scope N_scope.

(** A string value: its sequence of UTF-16 code units. *)
Definition jsstring := list N.

(** String literals of the source, written as Rocq strings (ASCII only). *)
Definition js (s : String.string) : jsstring :=
map Ascii.N_of_ascii (String.list_ascii_of_string s).
Arguments js s%_string.

Definition LF : N := 10.
Definition BACKTICK : N := 96.

(** ECMAScript [LineTerminator]: LF, CR, LS, PS.  The regular expression
  atom [.] (without the [s] flag) matches every code unit but these. *)
Definition isLineTerminator (c : N) : bool :=
(c =? 10) || (c =? 13) || (c =? 8232) || (c =? 8233).

(** ECMAScript [WhiteSpace] or [LineTerminator]: the code units stripped by
  [String.prototype.trim] and matched by [\s]. *)
Definition isWhiteSpace (c : N) : bool :=
(c =? 9) || (c =? 11) || (c =? 12) || (c =? 32) || (c =? 160)
|| (c =? 5760) || ((8192 <=? c) && (c <=? 8202))
|| (c =? 8239) || (c =? 8287) || (c =? 12288) || (c =? 65279)
|| isLineTerminator c.

(** [\w] without the [u] and [i] flags: [[A-Za-z0-9_]]. *)
Definition isWordChar (c : N) : bool :=
((65 <=? c) && (c <=? 90)) || ((97 <=? c) && (c <=? 122))
|| ((48 <=? c) && (c <=? 57)) || (c =? 95).

Fixpoint eqb (s t : jsstring) : bool :=
match s, t with
| [], [] => true
| c :: s', d :: t' => (c =? d) && eqb s' t'
| _, _ => false
end.

(** [s.startsWith(p)] *)
Fixpoint startsWith (p s : jsstring) : bool :=
match p, s with
| [], _ => true
| c :: p', d :: s' => (c =? d) && startsWith p' s'
| _ :: _, [] => false
end.

(** [s.endsWith(p)] *)
Definition endsWith (p s : jsstring) : bool :=
startsWith (rev p) (rev s).

Fixpoint dropWhile (f : N -> bool) (s : jsstring) : jsstring :=
match s with
| [] => []
| c :: s' => if f c then dropWhile f s' else s
end.

Fixpoint takeWhile (f : N -> bool) (s : jsstring) : jsstring :=
match s with
| [] => []
| c :: s' => if f c then c :: takeWhile f s' else []
end.

Definition trimStart (s : jsstring) : jsstring := dropWhile isWhiteSpace s.
Definition trimEnd (s : jsstring) : jsstring :=
rev (dropWhile isWhiteSpace (rev s)).

(** [s.trim()] *)
Definition trim (s : jsstring) : jsstring := trimEnd (trimStart s).

(** Truthiness of a string: non-empty. *)
Definition truthy (s : jsstring) : bool :=
match s with [] => false | _ :: _ => true end.

(** [cut sep s]: the text before the first occurrence of [sep] in [s] and
  the text after it; [None] when [sep] does not occur. *)
Fixpoint cut (sep s : jsstring) : option (jsstring * jsstring) :=
if startsWith sep s then Some ([], skipn (length sep) s)
else match s with
     | [] => None
     | c :: s' =>
         match cut sep s' with
         | Some (pre, post) => Some (c :: pre, post)
         | None => None
         end
     end.

(** [s] contains [sep] as a substring ([s.includes(sep)]). *)
Definition includes (sep s : jsstring) : bool :=
match cut sep s with Some _ => true | None => false end.

(** [String.prototype.toLowerCase] on one code unit, for the code units the
  callers apply it to (those matched by [\w], all ASCII): exactly the
  letters [A]-[Z] change. *)
Definition lowerUnit (c : N) : N :=
if (65 <=? c) && (c <=? 90) then c + 32 else c.

Definition toLowerCase (s : jsstring) : jsstring := map lowerUnit s.

(** [rcut sep s]: the text before the last occurrence of [sep] in [s] and
  the text after it. *)
Definition rcut (sep s : jsstring) : option (jsstring * jsstring) :=
match cut (rev sep) (rev s) with
| Some (postR, preR) => Some (rev preR, rev postR)
| None => None
end.

(** A value caught by [catch (e)]: an [Error] object with its [message],
  or any other value with its [String(e)]. *)
Inductive Thrown : Type :=
| ErrorObject (message : jsstring)
| OtherValue (stringified : jsstring).

(** A computation that returns or throws. *)
Inductive Result (A : Type) : Type :=
| Ok (a : A)
| Throw (e : Thrown).
Arguments Ok {A} a.
Arguments Throw {A} e.

Definition bind {A B : Type} (r : Result A) (k : A -> Result B) : Result B :=
match r with
| Ok a => k a
| Throw e => Throw e
end.

(** [xs.map(f)] where [f] may throw: the first exception aborts the map. *)
Fixpoint mapM {A B : Type} (f : A -> Result B) (xs : list A)
: Result (list B) :=
match xs with
| [] => Ok []
| a :: rest =>
    bind (f a) (fun b => bind (mapM f rest) (fun bs => Ok (b :: bs)))
end.

End JS.

Import JS.

(* ===================================================================== *)
(** ** Segmenter: [FormattedContent] (ChatMessage.tsx) *)
(* ===================================================================== *)

(** The fence delimiter, three backticks. *)
Definition FENCE : jsstring := [BACKTICK; BACKTICK; BACKTICK].

(** The next match of [/(```[\s\S]*?```)/] in [s], as
    (text before the match, matched text, text after the match).

    The opening delimiter is the first occurrence of three backticks; the
    lazy body [[\s\S]*?] stops at the first occurrence of three backticks
    that starts after the opening delimiter.  When the first opening has no
    closing delimiter, no later position has one either, so there is no
    match at all. *)
Definition next_fence (s : jsstring)
  : option (jsstring * jsstring * jsstring) :=
  match cut FENCE s with
  | None => None
  | Some (pre, afterOpen) =>
      match cut FENCE afterOpen with
      | None => None
      | Some (body, rest) => Some (pre, FENCE ++ body ++ FENCE, rest)
      end
  end.

Lemma cut_length sep s pre post :
  cut sep s = Some (pre, post) ->
  length s = (length pre + length sep + length post)%nat.
Proof.
  revert pre post. induction s as [|c s IH]; intros pre post; simpl.
  - destruct (startsWith sep []) eqn:E; [|discriminate].
    destruct sep; [|discriminate]. intros [= <- <-]. reflexivity.
  - destruct (startsWith sep (c :: s)) eqn:E.
    + intros [= <- <-]. simpl.
      assert (Hlen : forall p t, startsWith p t = true ->
                 (length p <= length t)%nat).
      { induction p as [|a p IHp]; intros [|b t]; simpl; try lia;
          try discriminate.
        intros H. apply andb_prop in H as [_ H]. apply IHp in H. lia. }
      apply Hlen in E. simpl in E.
      destruct sep as [|a sep]; simpl in *.
      * reflexivity.
      * rewrite length_skipn. lia.
    + destruct (cut sep s) as [[p q]|] eqn:Ec; [|discriminate].
      intros [= <- <-]. simpl. rewrite (IH p q eq_refl). reflexivity.
Qed.

Lemma next_fence_length s pre fence rest :
  next_fence s = Some (pre, fence, rest) ->
  length s = (length pre + length fence + length rest)%nat
  /\ (6 <= length fence)%nat.
Proof.
  unfold next_fence.
  destruct (cut FENCE s) as [[p a]|] eqn:E1; [|discriminate].
  destruct (cut FENCE a) as [[b r]|] eqn:E2; [|discriminate].
  intros [= <- <- <-].
  apply cut_length in E1. apply cut_length in E2.
  simpl in *. rewrite length_app. simpl. lia.
Qed.

(** Case analysis on a computed value that keeps the defining equation. *)
Definition inspect {A : Type} (x : A) : {y : A | x = y} :=
  exist _ x eq_refl.

(** [content.split(/(```[\s\S]*?```)/g)]: the text between matches and,
    because of the capture group, the matches themselves, in order.  The
    result alternates text, fence, text, ..., text and always ends with the
    text after the last match (possibly empty). *)
Equations? split_fences (s : jsstring) : list jsstring
  by wf (length s) lt :=
  split_fences s with inspect (next_fence s) => {
    | exist _ None _ => [s];
    | exist _ (Some (pre, fence, rest)) e =>
        pre :: fence :: split_fences rest }.
Proof.
  apply next_fence_length in e. lia.
Qed.

(** The result of [part.match(codeBlockRegex)] (ChatMessage.tsx, line 431):
    the two capture groups [(language, code)], or [None] when the part does
    not match.  The regular expression reads: start of input, three
    backticks, group 1 = a greedy run of [\w], an optional line feed,
    group 2 = a lazy run of any code units, three backticks, end of input.

    [\w*] and [\n?] are greedy, the body is lazy and must be followed by the
    closing delimiter at the very end of the part.  Giving back word
    characters or the line feed never turns a failure into a success (the
    part would still have to end with the same three code units), so the
    first alternative the matcher tries is the only one that matters. *)
Definition codeBlockMatch (part : jsstring) : option (jsstring * jsstring) :=
  if startsWith FENCE part then
    let afterOpen := skipn 3 part in
    let language := takeWhile isWordChar afterOpen in
    let afterLanguage := dropWhile isWordChar afterOpen in
    let afterNewline :=
      match afterLanguage with
      | c :: r => if (c =? LF)%N then r else afterLanguage
      | [] => []
      end in
    if endsWith FENCE afterNewline
    then Some (language, firstn (length afterNewline - 3) afterNewline)
    else None
  else None.

(** The language tag of a fence: the maximal run of word characters that
    follows the opening delimiter. *)
Definition fenceLanguage (inner : jsstring) : jsstring :=
  takeWhile isWordChar inner.

(** The code of a fence: what follows the language tag and one optional
    line feed. *)
Definition fenceCode (inner : jsstring) : jsstring :=
  match dropWhile isWordChar inner with
  | c :: r => if (c =? LF)%N then r else c :: r
  | [] => []
  end.

(** [parts.filter(part => part?.trim())]: the parts that are rendered. *)
Definition rendered_parts (content : jsstring) : list jsstring :=
  filter (fun part => truthy (trim part)) (split_fences content).

(** What [FormattedContent] renders for one part: the diagram component,
    the code-block component, or a [div] whose inner HTML is given. *)
Inductive Element : Type :=
| MermaidDiagramEl (chart : jsstring)
| CodeBlockEl (language code : jsstring)
| ProseDiv (innerHTML : jsstring).

Definition MERMAID : jsstring := js "mermaid".

Section Rendering.

(** The two libraries the prose branch calls: [marked.parse(text, {gfm:
    true, breaks: true})] and [DOMPurify.sanitize(html)]. *)
Variable marked_parse : jsstring -> jsstring.
Variable sanitize : jsstring -> jsstring.

(** The callback of [.map((part, index) => ...)]. *)
Definition render_part (part : jsstring) : Element :=
  match codeBlockMatch part with
  | Some (language, code) =>
      if JS.eqb (toLowerCase language) MERMAID
      then MermaidDiagramEl (trim code)
      else CodeBlockEl language (trim code)
  | None =>
      let rawHtml := marked_parse (trim part) in
      let sanitizedHtml := sanitize rawHtml in
      ProseDiv sanitizedHtml
  end.

Definition FormattedContent (content : jsstring) : list Element :=
  map render_part (rendered_parts content).

End Rendering.

(** What a stretch of text outside any fence contributes to the rendered
    output: nothing when it is whitespace-only, else one prose block. *)
Definition proseOf (marked_parse sanitize : jsstring -> jsstring)
    (text : jsstring) : list Element :=
  if truthy (trim text)
  then [ProseDiv (sanitize (marked_parse (trim text)))]
  else [].

(** The vocabulary of the specification for fence tags, independent of the
    functions above.  Two code units are the same letter up to case when
    they are equal or are the upper-case and lower-case form of one ASCII
    letter ([A]-[Z] are 65-90, the lower-case forms are 32 higher). *)
Definition sameLetter (a b : N) : Prop :=
  a = b
  \/ ((65 <= a)%N /\ (a <= 90)%N /\ b = (a + 32)%N)
  \/ ((65 <= b)%N /\ (b <= 90)%N /\ a = (b + 32)%N).

(** "Case-insensitively equals": the same length and, position by
    position, the same letter up to case. *)
Definition equalIgnoringCase (s t : jsstring) : Prop := Forall2 sameLetter s t.

(** What is written after the opening delimiter on the same line: a
    fence's tag in the usual sense of Markdown (its info string). *)
Definition writtenTag (inner : jsstring) : jsstring :=
  takeWhile (fun c => negb (c =? LF)%N) inner.

(** A text without one leading line feed, if it has one. *)
Definition withoutLeadingLineFeed (body : jsstring) : jsstring :=
  match body with
  | c :: r => if (c =? LF)%N then r else body
  | [] => []
  end.

(** A character a tag is made of: a digit, a letter or the underscore. *)
Definition tagCharacter (c : N) : Prop :=
  ((48 <= c)%N /\ (c <= 57)%N)
  \/ ((65 <= c)%N /\ (c <= 90)%N)
  \/ ((97 <= c)%N /\ (c <= 122)%N)
  \/ c = 95%N.

(** [body] does not start with a tag character: a run of tag characters
    before it cannot be extended. *)
Definition tagEndsBefore (body : jsstring) : Prop :=
  match body with
  | c :: _ => ~ tagCharacter c
  | [] => True
  end.

(* ===================================================================== *)
(** ** Diagram engine: [MermaidDiagram] (ChatMessage.tsx) *)
(* ===================================================================== *)

Module Diagram.

(** [error instanceof Error ? error.message : String(error)] *)
Definition errorMessage (error : Thrown) : jsstring :=
  match error with
  | ErrorObject message => message
  | OtherValue stringified => stringified
  end.

(** How [await window.mermaid.render(id, chart)] settles. *)
Inductive RenderOutcome : Type :=
| Resolved (rawSvg : jsstring)
| Rejected (error : Thrown).

Definition DQUOTE : jsstring := [34%N].

(** The two fixed pieces of the template literal of line 269, around
    [${errorMessage}]. *)
Definition ERROR_PANEL_HEAD : jsstring :=
  js "<div class=" ++ DQUOTE ++ js "p-4 text-red-500 bg-red-100 rounded-md"
  ++ DQUOTE ++ js "><strong>Diagram Error:</strong><br/><pre class="
  ++ DQUOTE ++ js "whitespace-pre-wrap text-xs" ++ DQUOTE ++ js ">".

Definition ERROR_PANEL_TAIL : jsstring := js "</pre></div>".

Definition errorPanel (errorMessage : jsstring) : jsstring :=
  ERROR_PANEL_HEAD ++ errorMessage ++ ERROR_PANEL_TAIL.

(** The component state ([useState] cells). *)
Record State : Type := mkState {
  svg : jsstring;
  isLoading : bool;
  isModalOpen : bool;
  copied : bool
}.

(** State at mount, after the effect's [setIsLoading(true)]. *)
Definition initial : State :=
  {| svg := []; isLoading := true; isModalOpen := false; copied := false |}.

Definition setSvg (v : jsstring) (st : State) : State :=
  {| svg := v; isLoading := isLoading st;
     isModalOpen := isModalOpen st; copied := copied st |}.

Definition setIsLoading (v : bool) (st : State) : State :=
  {| svg := svg st; isLoading := v;
     isModalOpen := isModalOpen st; copied := copied st |}.

Definition setIsModalOpen (v : bool) (st : State) : State :=
  {| svg := svg st; isLoading := isLoading st;
     isModalOpen := v; copied := copied st |}.

Section Engine.

(** The DOM work on a compiled image: parse [rawSvg] into a detached
    container, find its [svg] element, remove [height], [width] and
    [style], add the class [max-w-full] and serialise it
    ([outerHTML]); [None] when the markup has no [svg] element. *)
Variable svgOuterHTML : jsstring -> option jsstring.

(** The continuation of [renderDiagram] after the compilation settled
    ([try] body after the [await], [catch], [finally]); [isMounted] is
    the liveness flag at that moment. *)
Definition renderDiagram_settled
    (isMounted : bool) (outcome : RenderOutcome) (st : State) : State :=
  let st1 :=
    match outcome with
    | Resolved rawSvg =>
        match svgOuterHTML rawSvg with
        | Some outerHTML => if isMounted then setSvg outerHTML st else st
        | None => if isMounted then setSvg rawSvg st else st
        end
    | Rejected error =>
        if isMounted then setSvg (errorPanel (errorMessage error)) st
        else st
    end in
  if isMounted then setIsLoading false st1 else st1.

End Engine.

(** [const isRenderSuccess = svg.trim().startsWith('<svg')] *)
Definition isRenderSuccess (st : State) : bool :=
  startsWith (js "<svg") (trim (svg st)).

(** The inner HTML of the diagram [div] ([dangerouslySetInnerHTML]), shown
    once loading is over. *)
Definition displayedMarkup (st : State) : option jsstring :=
  if isLoading st then None else Some (svg st).

Inductive ToolbarAction : Type := CopyAction | DownloadAction | ExpandAction.

(** The buttons of the hover toolbar, in JSX order. *)
Definition toolbar (st : State) : list ToolbarAction :=
  if isLoading st then []
  else CopyAction ::
       (if isRenderSuccess st then [DownloadAction; ExpandAction] else []).

(** [onClick={() => isRenderSuccess && setIsModalOpen(true)}] *)
Definition clickDiagram (st : State) : State :=
  if isRenderSuccess st then setIsModalOpen true st else st.

(** [handleDownload]: the text of the blob that is saved, if any. *)
Definition handleDownload (st : State) : option jsstring :=
  if negb (truthy (svg st)) || negb (startsWith (js "<svg") (trim (svg st)))
  then None
  else Some (svg st).

End Diagram.

(* ===================================================================== *)
(** ** Numbers: IEEE 754 binary64 *)
(* ===================================================================== *)

Module Binary64.

Local Open Scope Q_scope.

(** A finite JavaScript number is a rational.  The result of an
    arithmetic operation is the exact result rounded to the nearest
    double, ties to the one with an even significand: for a positive [x]
    the last place has weight [2^e], where [e] is such that
    [2^52 <= x / 2^e < 2^53], but not below [-1074] (subnormal numbers),
    and [x / 2^e] is rounded to an integer.  The model covers finite
    results below [2^1024] in magnitude: overflow to [Infinity], division
    by zero, [NaN] and the sign of zero are not represented, and the
    properties stated with these operations keep their operands where
    none of them arises. *)
Definition pow2 (e : Z) : Q := 2 ^ e.

(** The integer nearest to [q], the even one of the two when [q] is half
    way. *)
Definition nearestEven (q : Q) : Z :=
  let f := Qfloor q in
  match Qcompare (q - inject_Z f) (1 # 2) with
  | Lt => f
  | Gt => (f + 1)%Z
  | Eq => if Z.even f then f else (f + 1)%Z
  end.

(** The exponent of the last place of a positive normal number.  From the
    bit lengths of numerator and denominator the first guess leaves
    [x / 2^e0] between [2^52] and [2^54]. *)
Definition normalExponent (x : Q) : Z :=
  let e0 := (Z.log2 (Qnum x) - Z.log2 (Zpos (Qden x)) - 53)%Z in
  if Qle_bool (pow2 53) (x / pow2 e0) then (e0 + 1)%Z else e0.

Definition MIN_EXPONENT : Z := -1074.

Definition exponent (x : Q) : Z := Z.max (normalExponent x) MIN_EXPONENT.

Definition roundPositive (x : Q) : Q :=
  let e := exponent x in inject_Z (nearestEven (x / pow2 e)) * pow2 e.

(** Round to nearest double, ties to even. *)
Definition round (x : Q) : Q :=
  match Qnum x with
  | Z0 => 0
  | Zpos _ => roundPositive x
  | Zneg _ => - roundPositive (- x)
  end.

(** The four operations of JavaScript on finite numbers. *)
Definition add (a b : Q) : Q := round (a + b).
Definition sub (a b : Q) : Q := round (a - b).
Definition mul (a b : Q) : Q := round (a * b).
Definition div (a b : Q) : Q := round (a / b).

(** The unit roundoff [2^-53] and half the smallest subnormal number. *)
Definition unitRoundoff : Q := pow2 (-53).
Definition eta : Q := pow2 (-1075).

End Binary64.

(* ===================================================================== *)
(** ** Viewport controller: [DiagramModal] (ChatMessage.tsx) *)
(* ===================================================================== *)

(** The controller as a state machine: which handler runs on which input,
    what it reads and writes, when a frame is requested.  In this module
    the arithmetic of the two handlers is exact (rational); it serves the
    statements that do not depend on rounding (the clamp, the no-op test,
    the rate limiter, the drag state, reset).  The same two handlers with
    every operation rounded as JavaScript rounds it are in [Viewport64]
    below. *)
Module Viewport.

Local Open Scope Q_scope.

(** [transformRef.current] *)
Record Transform : Type := mkTransform {
  scale : Q;
  x : Q;
  y : Q
}.

Definition identity : Transform := {| scale := 1; x := 0; y := 0 |}.

(** The fields of a [WheelEvent] the handler reads, with the viewport's
    bounding rectangle at that moment ([rectLeft], [rectTop]). *)
Record WheelInput : Type := mkWheel {
  deltaY : Q;
  wheelClientX : Q;
  wheelClientY : Q;
  rectLeft : Q;
  rectTop : Q
}.

Definition scaleRatio : Q := 1.1.
Definition MIN_SCALE : Q := 0.2.
Definition MAX_SCALE : Q := 10.

(** [Math.min(Math.max(0.2, newScale), 10)] *)
Definition clampScale (newScale : Q) : Q :=
  Qmin (Qmax MIN_SCALE newScale) MAX_SCALE.

Definition Qlt_bool (a b : Q) : bool := negb (Qle_bool b a).

(** [handleWheel]: the new value of [transformRef.current], and whether an
    animation frame was requested. *)
Definition handleWheel (e : WheelInput) (t : Transform) : Transform * bool :=
  let oldScale := scale t in
  let newScale :=
    if Qlt_bool (deltaY e) 0 then oldScale * scaleRatio
    else oldScale / scaleRatio in
  let clampedScale := clampScale newScale in
  if Qeq_bool clampedScale oldScale then (t, false)
  else
    let mouseX := wheelClientX e - rectLeft e in
    let mouseY := wheelClientY e - rectTop e in
    let dx := (mouseX - x t) * (1 - clampedScale / oldScale) in
    let dy := (mouseY - y t) * (1 - clampedScale / oldScale) in
    ({| scale := clampedScale; x := x t + dx; y := y t + dy |}, true).

(** The point of the diagram (in its own coordinates) drawn at viewport
    position [(px, py)] under [translate(x, y) scale(scale)] with
    [transform-origin: 0 0]. *)
Definition modelPointX (t : Transform) (px : Q) : Q := (px - x t) / scale t.
Definition modelPointY (t : Transform) (py : Q) : Q := (py - y t) / scale t.

(** The pan gesture's variables [startPoint] and [startTransform]. *)
Record Drag : Type := mkDrag {
  startPointX : Q;
  startPointY : Q;
  startTransformX : Q;
  startTransformY : Q
}.

(** [handleMouseMove] *)
Definition handleMouseMove (d : Drag) (clientX clientY : Q) (t : Transform)
  : Transform :=
  let dx := clientX - startPointX d in
  let dy := clientY - startPointY d in
  {| scale := scale t;
     x := startTransformX d + dx;
     y := startTransformY d + dy |}.

(** The mutable state of one open modal: the transform, the transform
    written to [content.style.transform] (what is visible), the
    [inThrottle] flag of each throttled handler, the drag variables,
    whether the document [mousemove] listener is registered, and whether
    animation-frame callbacks are pending. *)
Record Modal : Type := mkModal {
  transformRef : Transform;
  styleTransform : Transform;
  wheelInThrottle : bool;
  moveInThrottle : bool;
  drag : Drag;
  moveListening : bool;
  framePending : bool
}.

(** State right after the main effect ran on open. *)
Definition opened : Modal :=
  {| transformRef := identity;
     styleTransform := identity;
     wheelInThrottle := false;
     moveInThrottle := false;
     drag := {| startPointX := 0; startPointY := 0;
                startTransformX := 0; startTransformY := 0 |};
     moveListening := false;
     framePending := false |}.

(** What can happen to an open modal: DOM events, the expiry of the 16 ms
    timer of either throttle, an animation frame, the reset control. *)
Inductive Input : Type :=
| Wheel (e : WheelInput)
| MouseDown (button : Z) (clientX clientY : Q)
| MouseMove (clientX clientY : Q)
| MouseUp
| WheelTimer
| MoveTimer
| AnimationFrame
| ResetControl.

(** [throttle(func, limit)]: the wrapped function runs [func] only when
    [inThrottle] is unset and then sets it; the timer callback
    [() => inThrottle = false] is the inputs [WheelTimer] / [MoveTimer].
    Returns the new state and the new flag. *)
Definition throttle {S : Type} (func : S -> S) (inThrottle : bool) (s : S)
  : S * bool :=
  if negb inThrottle then (func s, true) else (s, inThrottle).

(** The body of [handleWheel] on the modal state. *)
Definition wheelBody (e : WheelInput) (m : Modal) : Modal :=
  let (t, requested) := handleWheel e (transformRef m) in
  {| transformRef := t;
     styleTransform := styleTransform m;
     wheelInThrottle := wheelInThrottle m;
     moveInThrottle := moveInThrottle m;
     drag := drag m;
     moveListening := moveListening m;
     framePending := framePending m || requested |}.

(** The body of [handleMouseMove] on the modal state. *)
Definition moveBody (clientX clientY : Q) (m : Modal) : Modal :=
  {| transformRef := handleMouseMove (drag m) clientX clientY (transformRef m);
     styleTransform := styleTransform m;
     wheelInThrottle := wheelInThrottle m;
     moveInThrottle := moveInThrottle m;
     drag := drag m;
     moveListening := moveListening m;
     framePending := true |}.

Definition setWheelInThrottle (b : bool) (m : Modal) : Modal :=
  {| transformRef := transformRef m;
     styleTransform := styleTransform m;
     wheelInThrottle := b;
     moveInThrottle := moveInThrottle m;
     drag := drag m;
     moveListening := moveListening m;
     framePending := framePending m |}.

Definition setMoveInThrottle (b : bool) (m : Modal) : Modal :=
  {| transformRef := transformRef m;
     styleTransform := styleTransform m;
     wheelInThrottle := wheelInThrottle m;
     moveInThrottle := b;
     drag := drag m;
     moveListening := moveListening m;
     framePending := framePending m |}.

(** [handleMouseDown] *)
Definition handleMouseDown (button : Z) (clientX clientY : Q) (m : Modal)
  : Modal :=
  if negb (button =? 0)%Z then m
  else
    {| transformRef := transformRef m;
       styleTransform := styleTransform m;
       wheelInThrottle := wheelInThrottle m;
       moveInThrottle := moveInThrottle m;
       drag := {| startPointX := clientX; startPointY := clientY;
                  startTransformX := x (transformRef m);
                  startTransformY := y (transformRef m) |};
       moveListening := true;
       framePending := framePending m |}.

(** [handleMouseUp] *)
Definition handleMouseUp (m : Modal) : Modal :=
  {| transformRef := transformRef m;
     styleTransform := styleTransform m;
     wheelInThrottle := wheelInThrottle m;
     moveInThrottle := moveInThrottle m;
     drag := drag m;
     moveListening := false;
     framePending := framePending m |}.

(** [resetTransform] *)
Definition resetTransform (m : Modal) : Modal :=
  {| transformRef := identity;
     styleTransform := identity;
     wheelInThrottle := wheelInThrottle m;
     moveInThrottle := moveInThrottle m;
     drag := drag m;
     moveListening := moveListening m;
     framePending := framePending m |}.

(** The [requestAnimationFrame] callbacks: each writes the transform that
    is current when the frame runs. *)
Definition animationFrame (m : Modal) : Modal :=
  if framePending m then
    {| transformRef := transformRef m;
       styleTransform := transformRef m;
       wheelInThrottle := wheelInThrottle m;
       moveInThrottle := moveInThrottle m;
       drag := drag m;
       moveListening := moveListening m;
       framePending := false |}
  else m.

(** One input, through the listeners as registered: [wheel] and
    [mousemove] go through their throttled wrappers. *)
Definition step (m : Modal) (i : Input) : Modal :=
  match i with
  | Wheel e =>
      let (m', flag) := throttle (wheelBody e) (wheelInThrottle m) m in
      setWheelInThrottle flag m'
  | MouseDown button clientX clientY => handleMouseDown button clientX clientY m
  | MouseMove clientX clientY =>
      if moveListening m then
        let (m', flag) :=
          throttle (moveBody clientX clientY) (moveInThrottle m) m in
        setMoveInThrottle flag m'
      else m
  | MouseUp => handleMouseUp m
  | WheelTimer => setWheelInThrottle false m
  | MoveTimer => setMoveInThrottle false m
  | AnimationFrame => animationFrame m
  | ResetControl => resetTransform m
  end.

Definition run (m : Modal) (inputs : list Input) : Modal :=
  fold_left step inputs m.

(** Reference behaviour for the rate limiter, following the
    specification's words "unthrottled processing": the same listeners
    with [handleWheel] and [handleMouseMove] registered directly. *)
Definition step_unthrottled (m : Modal) (i : Input) : Modal :=
  match i with
  | Wheel e => wheelBody e m
  | MouseMove clientX clientY =>
      if moveListening m then moveBody clientX clientY m else m
  | WheelTimer | MoveTimer => m
  | _ => step m i
  end.

Definition run_unthrottled (m : Modal) (inputs : list Input) : Modal :=
  fold_left step_unthrottled inputs m.

(** The inputs of a sequence whose handler body actually runs, given the
    two throttle flags at the start: a [wheel] or [mousemove] that arrives
    while its flag is set is dropped. *)
Fixpoint accepted (wheelFlag moveFlag listening : bool) (inputs : list Input)
  : list Input :=
  match inputs with
  | [] => []
  | i :: rest =>
      match i with
      | Wheel _ =>
          if wheelFlag then accepted wheelFlag moveFlag listening rest
          else i :: accepted true moveFlag listening rest
      | MouseMove _ _ =>
          if listening && moveFlag
          then accepted wheelFlag moveFlag listening rest
          else i :: accepted wheelFlag (moveFlag || listening) listening rest
      | WheelTimer => i :: accepted false moveFlag listening rest
      | MoveTimer => i :: accepted wheelFlag false listening rest
      | MouseDown button _ _ =>
          i :: accepted wheelFlag moveFlag
                 (if (button =? 0)%Z then true else listening) rest
      | MouseUp => i :: accepted wheelFlag moveFlag false rest
      | AnimationFrame | ResetControl =>
          i :: accepted wheelFlag moveFlag listening rest
      end
  end.

(** The admissible scales. *)
Definition inRange (s : Q) : Prop := MIN_SCALE <= s /\ s <= MAX_SCALE.

(** The scale the wheel handler aims for. *)
Definition targetScale (e : WheelInput) (t : Transform) : Q :=
  clampScale (if Qlt_bool (deltaY e) 0 then scale t * scaleRatio
              else scale t / scaleRatio).

(** The modal state without its two throttle flags. *)
Definition forgetThrottle (m : Modal) : Modal :=
  setWheelInThrottle false (setMoveInThrottle false m).

Definition acceptedFrom (m : Modal) (inputs : list Input) : list Input :=
  accepted (wheelInThrottle m) (moveInThrottle m) (moveListening m) inputs.

(** Whenever no frame is pending, what is displayed is the current
    transform. *)
Definition displayedIsCurrent (m : Modal) : Prop :=
  framePending m = false -> styleTransform m = transformRef m.

End Viewport.

(** [handleWheel] and [handleMouseMove] in binary64 arithmetic: every
    [+], [-], [*] and [/] of the source is followed by rounding, and the
    literals [1.1] and [0.2] denote the doubles nearest to them.
    [Math.min], [Math.max], [<] and [===] are exact on doubles. *)
Module Viewport64.

Import Viewport.
Local Open Scope Q_scope.

Definition scaleRatio : Q := Binary64.round 1.1.
Definition MIN_SCALE : Q := Binary64.round 0.2.
Definition MAX_SCALE : Q := 10.

(** [Math.min(Math.max(0.2, newScale), 10)] *)
Definition clampScale (newScale : Q) : Q :=
  Qmin (Qmax MIN_SCALE newScale) MAX_SCALE.

(** [clampedScale] of [handleWheel]. *)
Definition targetScale (e : WheelInput) (t : Transform) : Q :=
  clampScale (if Qlt_bool (deltaY e) 0
              then Binary64.mul (scale t) scaleRatio
              else Binary64.div (scale t) scaleRatio).

(** [handleWheel]: the new value of [transformRef.current], and whether an
    animation frame was requested. *)
Definition handleWheel (e : WheelInput) (t : Transform) : Transform * bool :=
  let oldScale := scale t in
  let newScale :=
    if Qlt_bool (deltaY e) 0 then Binary64.mul oldScale scaleRatio
    else Binary64.div oldScale scaleRatio in
  let clampedScale := clampScale newScale in
  if Qeq_bool clampedScale oldScale then (t, false)
  else
    let mouseX := Binary64.sub (wheelClientX e) (rectLeft e) in
    let mouseY := Binary64.sub (wheelClientY e) (rectTop e) in
    let dx :=
      Binary64.mul (Binary64.sub mouseX (x t))
                   (Binary64.sub 1 (Binary64.div clampedScale oldScale)) in
    let dy :=
      Binary64.mul (Binary64.sub mouseY (y t))
                   (Binary64.sub 1 (Binary64.div clampedScale oldScale)) in
    ({| scale := clampedScale;
        x := Binary64.add (x t) dx;
        y := Binary64.add (y t) dy |}, true).

(** [handleMouseMove] *)
Definition handleMouseMove (d : Drag) (clientX clientY : Q) (t : Transform)
  : Transform :=
  let dx := Binary64.sub clientX (startPointX d) in
  let dy := Binary64.sub clientY (startPointY d) in
  {| scale := scale t;
     x := Binary64.add (startTransformX d) dx;
     y := Binary64.add (startTransformY d) dy |}.

(** The admissible scales. *)
Definition inRange (s : Q) : Prop := MIN_SCALE <= s /\ s <= MAX_SCALE.

End Viewport64.

(* ===================================================================== *)
(** ** Transcript reconciler: [App] (App.tsx) *)
(* ===================================================================== *)

Module App.

Inductive MessageRole : Type := USER | MODEL.
Inductive ModelName : Type := gemini_2_5_pro | gemini_2_5_flash.
Inductive Language : Type := en | zh.

(** [Attachment]; [textContent] is read by [handleSendMessage] and may be
    absent. *)
Record Attachment : Type := mkAttachment {
  dataUrl : jsstring;
  name : jsstring;
  type : jsstring;
  textContent : option jsstring
}.

(** [ProcessedFolder] *)
Record ProcessedFolder : Type := mkFolder {
  folderName : jsstring;
  fileCount : N;
  folderContent : jsstring
}.

Record ChatMessage : Type := mkMessage {
  role : MessageRole;
  content : jsstring;
  attachment : option Attachment;
  folder : option ProcessedFolder;
  model : option ModelName
}.

(** [Part] and [Content] of the transport's request. *)
Inductive Part : Type :=
| InlineData (data mimeType : jsstring)
| TextPart (text : jsstring).

Record Content : Type := mkContent {
  contentRole : MessageRole;
  parts : list Part
}.

Definition INVALID_DATA_URL : Thrown := ErrorObject (js "Invalid data URL").

(** [fileToPart]: the data URL must match the regular expression of line
    10: start of input, [data:], group 1 = a greedy run of [.], the text
    [;base64,], group 2 = a greedy run of [.], end of input.  [.] excludes
    line terminators, so the text after [data:] must be free of them, and
    the greedy first group ends at the last [;base64,]. *)
Definition fileToPart (dataUrl : jsstring) : Result Part :=
  if startsWith (js "data:") dataUrl then
    let rest := skipn 5 dataUrl in
    if forallb (fun c => negb (isLineTerminator c)) rest then
      match rcut (js ";base64,") rest with
      | Some (mimeType, base64Data) => Ok (InlineData base64Data mimeType)
      | None => Throw INVALID_DATA_URL
      end
    else Throw INVALID_DATA_URL
  else Throw INVALID_DATA_URL.

(** [name.split('.').pop() || ''] *)
Definition extensionOf (name : jsstring) : jsstring :=
  match rcut [46%N] name with
  | Some (_, ext) => ext
  | None => name
  end.

Definition NL : jsstring := [LF].
Definition DQ : jsstring := [34%N].

(** The template literals of lines 69/90 and 72-73/93-94. *)
Definition withFolderContext (folderContent prompt : jsstring) : jsstring :=
  folderContent ++ NL ++ NL
  ++ js "Based on the folder context above, here is the user's request:"
  ++ NL ++ NL ++ prompt.

Definition withFileContext (a : Attachment) (text prompt : jsstring)
  : jsstring :=
  let lang := extensionOf (name a) in
  let fileContext :=
    js "User has uploaded a file named " ++ DQ ++ name a ++ DQ
    ++ js ". Here is its content:" ++ NL ++ FENCE ++ lang ++ NL
    ++ text ++ NL ++ FENCE in
  fileContext ++ NL ++ NL
  ++ js "Based on the file content above, here is the user's request:"
  ++ NL ++ NL ++ prompt.

(** [attachment?.textContent], when truthy. *)
Definition truthyTextContent (a : option Attachment)
  : option (Attachment * jsstring) :=
  match a with
  | Some att =>
      match textContent att with
      | Some text => if truthy text then Some (att, text) else None
      | None => None
      end
  | None => None
  end.

(** The image part pushed first when [attachment?.dataUrl] is truthy. *)
Definition imageParts (a : option Attachment) : Result (list Part) :=
  match a with
  | Some att =>
      if truthy (dataUrl att)
      then bind (fileToPart (dataUrl att)) (fun p => Ok [p])
      else Ok []
  | None => Ok []
  end.

(** The callback of [messages.slice(1).map(...)]. *)
Definition historyEntry (msg : ChatMessage) : Result Content :=
  let textContent :=
    match role msg with
    | USER =>
        match folder msg with
        | Some f =>
            if truthy (folderContent f)
            then withFolderContext (folderContent f) (content msg)
            else match truthyTextContent (attachment msg) with
                 | Some (att, text) => withFileContext att text (content msg)
                 | None => content msg
                 end
        | None =>
            match truthyTextContent (attachment msg) with
            | Some (att, text) => withFileContext att text (content msg)
            | None => content msg
            end
        end
    | MODEL => content msg
    end in
  bind (imageParts (attachment msg)) (fun image =>
  Ok {| contentRole := role msg; parts := image ++ [TextPart textContent] |}).

(** The request [contents] built inside the [try] block (lines 59-103). *)
Definition buildContents (messages : list ChatMessage) (prompt : jsstring)
    (attachment : option Attachment) (folder : option ProcessedFolder)
  : Result (list Content) :=
  bind (mapM historyEntry (skipn 1 messages)) (fun history =>
  let finalPrompt :=
    match folder with
    | Some f => withFolderContext (folderContent f) prompt
    | None =>
        match truthyTextContent attachment with
        | Some (att, text) => withFileContext att text prompt
        | None => prompt
        end
    end in
  bind (imageParts attachment) (fun image =>
  let currentMessageParts := image ++ [TextPart finalPrompt] in
  Ok (history ++ [{| contentRole := USER; parts := currentMessageParts |}]))).

(** How the transport behaves for one request: the call itself is
    rejected, or it yields chunks (each with its [text], possibly
    [undefined]) and then ends, normally or by throwing. *)
Inductive StreamResult : Type :=
| CallRejected (e : Thrown)
| Stream (chunks : list (option jsstring)) (failure : option Thrown).

Record AppState : Type := mkApp {
  language : Language;
  selectedModel : ModelName;
  messages : list ChatMessage;
  isLoading : bool;
  error : option jsstring
}.

Definition modelMessage (text : jsstring) (m : ModelName) : ChatMessage :=
  {| role := MODEL; content := text; attachment := None; folder := None;
     model := Some m |}.

(** [const newMessages = [...prevMessages];
     newMessages[newMessages.length - 1] = m; return newMessages;]
    On an empty array the assignment creates the property [-1] and the
    array stays empty. *)
Definition setLast (prevMessages : list ChatMessage) (m : ChatMessage)
  : list ChatMessage :=
  match prevMessages with
  | [] => []
  | _ :: _ => removelast prevMessages ++ [m]
  end.

(** [modelResponse += chunk.text] *)
Definition appendText (modelResponse : jsstring) (text : option jsstring)
  : jsstring :=
  modelResponse ++ match text with Some t => t | None => js "undefined" end.

(** One iteration of the [for await] loop on the pair
    ([messages] state, [modelResponse]). *)
Definition consumeChunk (selectedModel : ModelName)
    (acc : list ChatMessage * jsstring) (text : option jsstring)
  : list ChatMessage * jsstring :=
  let (prevMessages, modelResponse) := acc in
  let modelResponse' := appendText modelResponse text in
  (setLast prevMessages (modelMessage modelResponse' selectedModel),
   modelResponse').

Definition consumeChunks (selectedModel : ModelName)
    (acc : list ChatMessage * jsstring) (chunks : list (option jsstring))
  : list ChatMessage * jsstring :=
  fold_left (consumeChunk selectedModel) chunks acc.

(** [e instanceof Error ? e.message : 'An unknown error occurred.'] *)
Definition caughtMessage (e : Thrown) : jsstring :=
  match e with
  | ErrorObject message => message
  | OtherValue _ => js "An unknown error occurred."
  end.

Definition apologyFor (errorMessage : jsstring) : jsstring :=
  js "Sorry, I encountered an error. Please try again. Details: "
  ++ errorMessage.

(** The [catch] block followed by [finally]. *)
Definition onCatch (e : Thrown) (st : AppState) : AppState :=
  let errorMessage := caughtMessage e in
  {| language := language st;
     selectedModel := selectedModel st;
     messages :=
       messages st
       ++ [modelMessage (apologyFor errorMessage) (selectedModel st)];
     isLoading := false;
     error := Some (js "Error: " ++ errorMessage) |}.

Definition setMessages (ms : list ChatMessage) (st : AppState) : AppState :=
  {| language := language st; selectedModel := selectedModel st;
     messages := ms; isLoading := isLoading st; error := error st |}.

Definition setIsLoading (b : bool) (st : AppState) : AppState :=
  {| language := language st; selectedModel := selectedModel st;
     messages := messages st; isLoading := b; error := error st |}.

Section Transport.

(** [ai.models.generateContentStream({model, contents, config})]; the
    system instruction is determined by the language. *)
Variable generateContentStream :
  ModelName -> list Content -> Language -> StreamResult.

(** [handleSendMessage] up to and including the [k] first chunks of the
    reply (all of them, and the end of the stream, when [k] is [None]):
    the state after the last update made so far. *)
Definition handleSendMessage_upto (k : option nat) (st : AppState)
    (prompt : jsstring)
    (attachment : option Attachment) (folder : option ProcessedFolder)
  : AppState :=
  let userMessage :=
    {| role := USER; content := prompt; attachment := attachment;
       folder := folder; model := None |} in
  let st1 :=
    {| language := language st; selectedModel := selectedModel st;
       messages := messages st ++ [userMessage];
       isLoading := true; error := None |} in
  match buildContents (messages st) prompt attachment folder with
  | Throw e => onCatch e st1
  | Ok contents =>
      match generateContentStream (selectedModel st) contents (language st)
      with
      | CallRejected e => onCatch e st1
      | Stream chunks failure =>
          let placeholder := modelMessage [] (selectedModel st) in
          let st2 := setMessages (messages st1 ++ [placeholder]) st1 in
          match k with
          | Some n =>
              setMessages
                (fst (consumeChunks (selectedModel st) (messages st2, [])
                        (firstn n chunks))) st2
          | None =>
              let st3 :=
                setMessages
                  (fst (consumeChunks (selectedModel st) (messages st2, [])
                          chunks)) st2 in
              match failure with
              | Some e => onCatch e st3
              | None => setIsLoading false st3
              end
          end
      end
  end.

(** [handleSendMessage], run to completion. *)
Definition handleSendMessage := handleSendMessage_upto None.

End Transport.

End App.

(* ===================================================================== *)
(** ** Composer: [ChatInput] (ChatInput.tsx) *)
(* ===================================================================== *)

Module ChatInput.

Import App.

Record Composer : Type := mkComposer {
  input : jsstring;
  fileData : option Attachment;
  folderData : option ProcessedFolder;
  error : option jsstring
}.

(** [setInput(''); resetAttachments();] *)
Definition cleared : Composer :=
  {| input := []; fileData := None; folderData := None; error := None |}.

Definition isSome {A : Type} (o : option A) : bool :=
  match o with Some _ => true | None => false end.

(** [performSubmit]: the composer afterwards and the arguments of the
    [onSendMessage] call, if it is made. *)
Definition performSubmit (c : Composer) (isLoading : bool)
  : Composer
    * option (jsstring * option Attachment * option ProcessedFolder) :=
  if (truthy (trim (input c)) || isSome (fileData c) || isSome (folderData c))
     && negb isLoading
  then (cleared, Some (trim (input c), fileData c, folderData c))
  else (c, None).

Section Submission.

Variable generateContentStream :
  ModelName -> list Content -> Language -> StreamResult.

(** A submit gesture, with [onSendMessage = App.handleSendMessage], once
    the asynchronous handler has settled. *)
Definition submit (st : AppState) (c : Composer) : AppState * Composer :=
  match performSubmit c (isLoading st) with
  | (c', Some (prompt, attachment, folder)) =>
      (handleSendMessage generateContentStream st prompt attachment folder,
       c')
  | (c', None) => (st, c')
  end.

End Submission.

End ChatInput.

(* ===================================================================== *)
(** ** Autoscroll policy: [ChatHistory] (ChatHistory.tsx) *)
(* ===================================================================== *)

Module ChatHistory.

Import App.
Local Open Scope Q_scope.

(** [shouldAutoScroll.current] (the scroll intent) and the
    [showScrollButton] state. *)
Record ScrollState : Type := mkScroll {
  shouldAutoScroll : bool;
  showScrollButton : bool
}.

Definition initial : ScrollState :=
  {| shouldAutoScroll := true; showScrollButton := false |}.

(** The geometry of the scroll container read by [handleScroll]. *)
Record Container : Type := mkContainer {
  scrollHeight : Q;
  clientHeight : Q;
  scrollTop : Q
}.

Definition scrollThreshold : Q := 50.

(** [scrollHeight - clientHeight <= scrollTop + scrollThreshold], both
    sides computed in binary64 arithmetic. *)
Definition isAtBottom (container : Container) : bool :=
  Qle_bool (Binary64.sub (scrollHeight container) (clientHeight container))
           (Binary64.add (scrollTop container) scrollThreshold).

(** [handleScroll] *)
Definition handleScroll (container : option Container) (st : ScrollState)
  : ScrollState :=
  match container with
  | Some c =>
      {| shouldAutoScroll := isAtBottom c;
         showScrollButton := negb (isAtBottom c) |}
  | None => st
  end.

(** What the [messages] effect does to the view: nothing, an immediate
    [scrollIntoView], or one deferred with [setTimeout(..., 0)]. *)
Inductive ScrollCommand : Type :=
| NoScroll
| ScrollToBottom
| ScrollToBottomDeferred.

(** [lastMessage?.role === MessageRole.USER] *)
Definition lastIsUser (messages : list ChatMessage) : bool :=
  match rev messages with
  | m :: _ => match role m with USER => true | MODEL => false end
  | [] => false
  end.

(** The effect that runs whenever [messages] changes. *)
Definition messagesEffect (messages : list ChatMessage) (st : ScrollState)
  : ScrollState * ScrollCommand :=
  if lastIsUser messages then
    ({| shouldAutoScroll := true; showScrollButton := showScrollButton st |},
     ScrollToBottomDeferred)
  else if shouldAutoScroll st then (st, ScrollToBottom)
  else (st, NoScroll).

(** The events the component reacts to. *)
Inductive Event : Type :=
| MessagesChanged (messages : list ChatMessage)
| Scrolled (container : Container).

Definition step (st : ScrollState) (ev : Event) : ScrollState :=
  match ev with
  | MessagesChanged messages => fst (messagesEffect messages st)
  | Scrolled container => handleScroll (Some container) st
  end.

Definition run (st : ScrollState) (evs : list Event) : ScrollState :=
  fold_left step evs st.

End ChatHistory.

(* ===================================================================== *)
(** ** Concrete inputs used in examples *)
(* ===================================================================== *)

Module Examples.

Import App ChatInput ChatHistory Viewport.
Local Open Scope Q_scope.

(** Two wheel ticks (zoom in) inside one throttle window, then a frame. *)
Definition tick : WheelInput :=
  {| deltaY := -1; wheelClientX := 0; wheelClientY := 0;
     rectLeft := 0; rectTop := 0 |}.

Definition burst : list Input := [Wheel tick; Wheel tick; AnimationFrame].

Definition userMessage (text : jsstring) : ChatMessage :=
  {| role := USER; content := text; attachment := None; folder := None;
     model := None |}.

(** The view scrolled far above the bottom: 600 units remain below. *)
Definition scrolledUp : Container :=
  {| scrollHeight := 1000; clientHeight := 400; scrollTop := 0 |}.

(** A transcript with the greeting only, an attachment whose data URL
    cannot be decoded, a composer holding it, and a transport that answers
    "ok". *)
Definition greeting : ChatMessage := modelMessage (js "Hello!") gemini_2_5_pro.

(** The user scrolls up, then sends "hi". *)
Definition scrollUpThenSend : list Event :=
  [Scrolled scrolledUp; MessagesChanged [greeting; userMessage (js "hi")]].

Definition idle : AppState :=
  {| language := zh; selectedModel := gemini_2_5_pro;
     messages := [greeting]; isLoading := false; App.error := None |}.

Definition badImage : Attachment :=
  {| dataUrl := js "bogus"; name := js "a.png"; type := js "image/png";
     textContent := None |}.

Definition pending : Composer :=
  {| input := js "look at this"; fileData := Some badImage;
     folderData := None; ChatInput.error := None |}.

Definition replying (_ : ModelName) (_ : list Content) (_ : Language)
  : StreamResult :=
  Stream [Some (js "ok")] None.

(** Stand-ins for the two libraries in examples: a markdown converter
    that returns the text as it is and a sanitizer that deletes every
    ["<"]. *)
Definition plainMarkdown (text : jsstring) : jsstring := text.
Definition stripAngle (html : jsstring) : jsstring :=
  filter (fun c => negb (c =? 60)%N) html.

(** One wheel tick towards the user with the cursor at (120, 80). *)
Definition zoomIn : Viewport.WheelInput :=
  {| Viewport.deltaY := -3; Viewport.wheelClientX := 120;
     Viewport.wheelClientY := 80; Viewport.rectLeft := 20;
     Viewport.rectTop := 30 |}.

(** A transport that streams "Hel", "lo, ", "world". *)
Definition hello (_ : App.ModelName) (_ : list App.Content)
    (_ : App.Language) : App.StreamResult :=
  App.Stream (map Some [js "Hel"; js "lo, "; js "world"]) None.

End Examples.

(* ===================================================================== *)
(** ** Further parts of the components *)
(* ===================================================================== *)

(** [{language || 'code'}]: the label in the header of [CodeBlock]
    (ChatMessage.tsx, line 398). *)
Definition codeBlockLabel (language : jsstring) : jsstring :=
  if truthy language then language else js "code".

(** The shape of a split: text, fence, text, ..., text, where a text part
    does not match the code-block pattern and a fence part does. *)
Fixpoint alternating (parts : list jsstring) : Prop :=
  match parts with
  | [] => False
  | [text] => codeBlockMatch text = None
  | text :: fence :: rest =>
      codeBlockMatch text = None
      /\ codeBlockMatch fence <> None
      /\ alternating rest
  end.

(** Text without line terminators: what a run of [.] can match. *)
Definition singleLine (s : jsstring) : bool :=
  forallb (fun c => negb (isLineTerminator c)) s.

(** The marker that ends the media type of a base64 data URL. *)
Definition BASE64_MARK : jsstring := js ";base64,".

(** Text without [;] (code unit 59), as base64 data is. *)
Definition noSemicolon (s : jsstring) : bool :=
  forallb (fun c => negb (c =? 59)%N) s.

(** Whether the image part of a message can be built: no attachment, an
    attachment with an empty [dataUrl], or one that [fileToPart] decodes. *)
Definition decodable (a : option App.Attachment) : bool :=
  match a with
  | Some att =>
      if truthy (App.dataUrl att) then
        match App.fileToPart (App.dataUrl att) with
        | Ok _ => true
        | Throw _ => false
        end
      else true
  | None => true
  end.

(** The parts pushed before the text of a request entry: none, or one
    inline-data (image) part. *)
Definition atMostOneImage (image : list App.Part) : Prop :=
  image = [] \/ exists data mimeType, image = [App.InlineData data mimeType].

(** A request entry: at most one image part, then exactly one text part. *)
Definition wellFormedContent (c : App.Content) : Prop :=
  (exists text, App.parts c = [App.TextPart text])
  \/ (exists data mimeType text,
        App.parts c = [App.InlineData data mimeType; App.TextPart text]).

(** The text of a chunk as [+=] appends it. *)
Definition chunkText (text : option jsstring) : jsstring :=
  match text with Some t => t | None => js "undefined" end.

(** Inputs of the modal that cannot move the diagram by themselves while no
    drag is in progress: pointer moves, and presses of a button other than
    the primary one. *)
Definition noDragInput (i : Viewport.Input) : bool :=
  match i with
  | Viewport.MouseMove _ _ => true
  | Viewport.MouseDown button _ _ => negb (button =? 0)%Z
  | _ => false
  end.

(** Whether [ChatHistory] shows the "thinking" row: [isLoading &&
    messages.length > 0 && messages[messages.length-1].role === 'user']. *)
Definition thinkingIndicator (isLoading : bool)
    (messages : list App.ChatMessage) : bool :=
  isLoading && negb (length messages =? 0)%nat
  && ChatHistory.lastIsUser messages.

(** *** File and folder selection (ChatInput.tsx) *)

Module Selection.

Import App ChatInput.
Local Open Scope N_scope.

(** The fields of a [File] that the composer reads. *)
Record File : Type := mkFile {
  fileName : jsstring;
  fileType : jsstring;
  size : N;
  webkitRelativePath : jsstring
}.

Definition MAX_FILE_SIZE_MB : N := 4.
Definition MAX_TOTAL_FOLDER_SIZE_MB : N := 10.
Definition MAX_INDIVIDUAL_FILE_IN_FOLDER_KB : N := 100.

(** [resetAttachments] *)
Definition resetAttachments (c : Composer) : Composer :=
  {| input := input c; fileData := None; folderData := None;
     ChatInput.error := None |}.

Definition setError (message : jsstring) (c : Composer) : Composer :=
  {| input := input c; fileData := fileData c; folderData := folderData c;
     ChatInput.error := Some message |}.

Definition setFileData (a : Attachment) (c : Composer) : Composer :=
  {| input := input c; fileData := Some a; folderData := folderData c;
     ChatInput.error := ChatInput.error c |}.

(** How [reader.readAsDataURL(file)] ends: [onload] with the result, or
    [onerror]. *)
Inductive ReadOutcome : Type :=
| Loaded (result : jsstring)
| ReadFailed.

(** [processFile], with the read carried through to its callback. *)
Definition processFile (file : File) (read : ReadOutcome) (c : Composer)
  : Composer :=
  let c1 := resetAttachments c in
  if MAX_FILE_SIZE_MB * 1024 * 1024 <? size file then
    setError (js "File is too large. Maximum size is 4MB.") c1
  else
    match read with
    | Loaded result =>
        setFileData {| dataUrl := result; name := fileName file;
                       type := fileType file; textContent := None |} c1
    | ReadFailed => setError (js "Failed to read file.") c1
    end.

(** [/text\/|application\/(json|javascript|xml)/.test(file.type)
     || !file.type && file.size > 0] *)
Definition isText (file : File) : bool :=
  (includes (js "text/") (fileType file)
   || includes (js "application/json") (fileType file)
   || includes (js "application/javascript") (fileType file)
   || includes (js "application/xml") (fileType file))
  || (negb (truthy (fileType file)) && (0 <? size file)).

(** [file.size < MAX_INDIVIDUAL_FILE_IN_FOLDER_KB * 1024] *)
Definition isSmall (file : File) : bool :=
  size file <? MAX_INDIVIDUAL_FILE_IN_FOLDER_KB * 1024.

(** The per-file test of [processFolder] (lines 113-121): the negation of
    [!isText || !isSmall || file.size === 0]. *)
Definition isRead (file : File) : bool :=
  negb (negb (isText file) || negb (isSmall file) || (size file =? 0)).

(** [files.reduce((acc, file) => acc + file.size, 0)].  File sizes are
    non-negative integers; the sum is exact as long as it stays below
    2^53, and once a partial sum exceeds the limit it is compared with,
    the rounded sum exceeds it too, so the exact sum decides the guard. *)
Definition totalSize (files : list File) : N :=
  fold_left (fun acc file => acc + size file) files 0.

(** The files that [processFolder] hands to [reader.readAsText], in
    order: none for an empty selection (line 102) or when the total size
    exceeds the limit (lines 104-108, where the function returns after
    setting the error), else those that pass the per-file test. *)
Definition filesRead (files : list File) : list File :=
  if (length files =? 0)%nat then []
  else if MAX_TOTAL_FOLDER_SIZE_MB * 1024 * 1024 <? totalSize files then []
  else filter isRead files.

End Selection.

(** Further concrete inputs. *)
Module Cases.

Import App ChatInput ChatHistory Viewport.
Local Open Scope Q_scope.

(** One wheel tick away from the user, cursor at (120, 80) like
    [Examples.zoomIn]. *)
Definition zoomOut : WheelInput :=
  {| deltaY := 3; wheelClientX := 120; wheelClientY := 80;
     rectLeft := 20; rectTop := 30 |}.

(** A transform at the upper bound of the scale. *)
Definition atMax : Transform := {| scale := 10; x := 5; y := 7 |}.

(** The open modal after one wheel tick at (120, 80) in binary64
    arithmetic: scale 1.1 (the double), translate about
    (-10.000000000000009, -5.000000000000004). *)
Definition afterTick : Modal :=
  {| transformRef := fst (Viewport64.handleWheel Examples.zoomIn identity);
     styleTransform := fst (Viewport64.handleWheel Examples.zoomIn identity);
     wheelInThrottle := false;
     moveInThrottle := false;
     drag := drag opened;
     moveListening := false;
     framePending := false |}.

(** An attachment that decodes. *)
Definition goodImage : Attachment :=
  {| dataUrl := js "data:image/png;base64,iVBORw0KGgo=";
     name := js "a.png"; type := js "image/png"; textContent := None |}.

(** A transport whose stream breaks after "par", "tial". *)
Definition breaking (_ : ModelName) (_ : list Content) (_ : Language)
  : StreamResult :=
  Stream [Some (js "par"); Some (js "tial")]
         (Some (ErrorObject (js "network down"))).

(** A user message carrying the attachment that decodes. *)
Definition withPicture : ChatMessage :=
  {| role := USER; content := js "what is this?";
     attachment := Some goodImage; folder := None; model := None |}.

(** DOM normalisation that returns the markup as it is. *)
Definition keepMarkup (rawSvg : jsstring) : option jsstring := Some rawSvg.

(** A 5 MiB picture and a small JSON file. *)
Definition bigPicture : Selection.File :=
  {| Selection.fileName := js "big.png"; Selection.fileType := js "image/png";
     Selection.size := 5 * 1024 * 1024;
     Selection.webkitRelativePath := [] |}.

Definition smallJson : Selection.File :=
  {| Selection.fileName := js "package.json";
     Selection.fileType := js "application/json";
     Selection.size := 512;
     Selection.webkitRelativePath := js "proj/package.json" |}.

(** A 60 kB text file, and a folder of 200 of them (about 11.4 MiB). *)
Definition notes : Selection.File :=
  {| Selection.fileName := js "notes.txt";
     Selection.fileType := js "text/plain";
     Selection.size := 60000;
     Selection.webkitRelativePath := js "proj/notes.txt" |}.

Definition bigFolder : list Selection.File := repeat notes 200.

End Cases.

(* ===================================================================== *)
(** * Properties *)
(* ===================================================================== *)

(** ** Strings *)

Lemma startsWith_spec p s :
  startsWith p s = true <-> exists t, s = p ++ t.
Proof.
  revert s. induction p as [|a p IH]; intros s; simpl.
  - split; [intros _; now exists s | reflexivity].
  - destruct s as [|b s].
    + split; [discriminate | intros [t Ht]; discriminate].
    + rewrite andb_true_iff, N.eqb_eq, IH. split.
      * intros [-> [t ->]]. now exists t.
      * intros [t [= -> ->]]. split; [reflexivity | now exists t].
Qed.

Lemma startsWith_app p t : startsWith p (p ++ t) = true.
Proof. apply startsWith_spec. now exists t. Qed.

Lemma skipn_length_app (p t : jsstring) : skipn (length p) (p ++ t) = t.
Proof. induction p; simpl; auto. Qed.

Lemma startsWith_skipn p s :
  startsWith p s = true -> s = p ++ skipn (length p) s.
Proof.
  intros H. apply startsWith_spec in H as [t ->].
  now rewrite skipn_length_app.
Qed.

Lemma cut_spec sep s pre post :
  cut sep s = Some (pre, post) -> s = pre ++ sep ++ post.
Proof.
  revert pre post. induction s as [|c s IH]; intros pre post; simpl.
  - destruct (startsWith sep []) eqn:E; [|discriminate].
    intros [= <- <-]. now apply startsWith_skipn.
  - destruct (startsWith sep (c :: s)) eqn:E.
    + intros [= <- <-]. now apply startsWith_skipn.
    + destruct (cut sep s) as [[p q]|] eqn:Ec; [|discriminate].
      intros [= <- <-]. simpl. f_equal. now apply IH.
Qed.

Lemma next_fence_spec s pre fence rest :
  next_fence s = Some (pre, fence, rest) ->
  s = pre ++ fence ++ rest /\ exists body, fence = FENCE ++ body ++ FENCE.
Proof.
  unfold next_fence.
  destruct (cut FENCE s) as [[p a]|] eqn:E1; [|discriminate].
  destruct (cut FENCE a) as [[b r]|] eqn:E2; [|discriminate].
  intros [= <- <- <-].
  apply cut_spec in E1. apply cut_spec in E2. subst. split.
  - unfold FENCE. simpl. now rewrite <- app_assoc.
  - now exists b.
Qed.

Lemma split_fences_concat s : concat (split_fences s) = s.
Proof.
  funelim (split_fences s); simpl.
  - match goal with IH : concat _ = _ |- _ => rewrite IH end.
    match goal with E : next_fence _ = Some _ |- _ =>
      destruct (next_fence_spec _ E) as [Hs _] end.
    symmetry. exact Hs.
  - apply app_nil_r.
Qed.

Lemma eqb_spec s t : JS.eqb s t = true <-> s = t.
Proof.
  revert t. induction s as [|a s IH]; intros [|b t]; simpl;
    try (split; [discriminate | intros H; discriminate H]).
  - split; reflexivity.
  - rewrite andb_true_iff, N.eqb_eq, IH. split.
    + now intros [-> ->].
    + now intros [= -> ->].
Qed.

Lemma dropWhile_nil_iff f s : dropWhile f s = [] <-> forallb f s = true.
Proof.
  induction s as [|c s IH]; simpl.
  - split; reflexivity.
  - destruct (f c); simpl; [exact IH|]. split; discriminate.
Qed.

Lemma forallb_rev (f : N -> bool) s : forallb f (rev s) = forallb f s.
Proof.
  induction s as [|c s IH]; simpl; [reflexivity|].
  rewrite forallb_app, IH. simpl. rewrite andb_true_r. apply andb_comm.
Qed.

Lemma dropWhile_suffix f s : exists p, s = p ++ dropWhile f s /\ forallb f p = true.
Proof.
  induction s as [|c s [p [Hp Hf]]]; simpl.
  - now exists [].
  - destruct (f c) eqn:E.
    + exists (c :: p). simpl. rewrite E, Hf. split; [now f_equal | reflexivity].
    + now exists [].
Qed.

(** [trim] returns the empty string exactly on whitespace-only input. *)
Lemma trim_nil_iff s : trim s = [] <-> forallb isWhiteSpace s = true.
Proof.
  unfold trim, trimEnd, trimStart. split.
  - intros H. apply (f_equal (@rev N)) in H. rewrite rev_involutive in H.
    simpl in H. apply dropWhile_nil_iff in H. rewrite forallb_rev in H.
    destruct (dropWhile_suffix isWhiteSpace s) as [p [Hp Hf]].
    rewrite Hp, forallb_app, Hf, H. reflexivity.
  - intros H. apply dropWhile_nil_iff in H. rewrite H. reflexivity.
Qed.

Lemma truthy_trim s : truthy (trim s) = negb (forallb isWhiteSpace s).
Proof.
  destruct (forallb isWhiteSpace s) eqn:E.
  - apply trim_nil_iff in E. now rewrite E.
  - destruct (trim s) eqn:Et; [|reflexivity].
    apply trim_nil_iff in Et. congruence.
Qed.

Lemma split_fences_eq s :
  split_fences s =
  match next_fence s with
  | None => [s]
  | Some (pre, fence, rest) => pre :: fence :: split_fences rest
  end.
Proof.
  funelim (split_fences s);
    match goal with E : next_fence _ = _ |- _ => now rewrite E end.
Qed.

Lemma includes_false_cut sep s : includes sep s = false <-> cut sep s = None.
Proof.
  unfold includes. destruct (cut sep s); split; congruence.
Qed.

Lemma cut_None_startsWith sep s : cut sep s = None -> startsWith sep s = false.
Proof.
  destruct s; simpl; destruct (startsWith sep _); congruence.
Qed.

(** A delimiter appended to text that neither contains a delimiter nor ends
    in a backtick is found exactly at the end of that text. *)
Lemma cut_fence_here pre x :
  includes FENCE (pre ++ [BACKTICK; BACKTICK]) = false ->
  cut FENCE (pre ++ FENCE ++ x) = Some (pre, x).
Proof.
  rewrite includes_false_cut.
  induction pre as [|c p IH]; intros H.
  - reflexivity.
  - change (cut FENCE ((c :: p) ++ FENCE ++ x))
      with (if startsWith FENCE (c :: p ++ FENCE ++ x) then
              Some ([], skipn (length FENCE) (c :: p ++ FENCE ++ x))
            else match cut FENCE (p ++ FENCE ++ x) with
                 | Some (pre, post) => Some (c :: pre, post)
                 | None => None
                 end).
    change (cut FENCE ((c :: p) ++ [BACKTICK; BACKTICK]))
      with (if startsWith FENCE (c :: p ++ [BACKTICK; BACKTICK]) then
              Some ([], skipn (length FENCE) (c :: p ++ [BACKTICK; BACKTICK]))
            else match cut FENCE (p ++ [BACKTICK; BACKTICK]) with
                 | Some (pre, post) => Some (c :: pre, post)
                 | None => None
                 end) in H.
    destruct (startsWith FENCE (c :: p ++ [BACKTICK; BACKTICK])) eqn:E;
      [discriminate|].
    destruct (cut FENCE (p ++ [BACKTICK; BACKTICK])) as [[? ?]|] eqn:Ec;
      [discriminate|].
    rewrite (IH eq_refl).
    replace (startsWith FENCE (c :: p ++ FENCE ++ x)) with false;
      [reflexivity|].
    rewrite <- E. destruct p as [|d [|e p']]; reflexivity.
Qed.

Lemma takeWhile_app_stop f s c t :
  f c = false -> takeWhile f (s ++ c :: t) = takeWhile f s.
Proof.
  intros Hc. induction s as [|a s IH]; simpl.
  - now rewrite Hc.
  - destruct (f a); [now rewrite IH | reflexivity].
Qed.

Lemma dropWhile_app_stop f s c t :
  f c = false -> dropWhile f (s ++ c :: t) = dropWhile f s ++ c :: t.
Proof.
  intros Hc. induction s as [|a s IH]; simpl.
  - now rewrite Hc.
  - destruct (f a); [exact IH | reflexivity].
Qed.

Lemma endsWith_app p s : endsWith p (s ++ p) = true.
Proof. unfold endsWith. rewrite rev_app_distr. apply startsWith_app. Qed.

Lemma endsWith_spec p s : endsWith p s = true <-> exists t, s = t ++ p.
Proof.
  unfold endsWith. rewrite startsWith_spec. split.
  - intros [t Ht]. exists (rev t).
    apply (f_equal (@rev N)) in Ht.
    now rewrite rev_involutive, rev_app_distr, rev_involutive in Ht.
  - intros [t ->]. exists (rev t). apply rev_app_distr.
Qed.

Lemma firstn_app_exact (s p : jsstring) :
  firstn (length (s ++ p) - length p) (s ++ p) = s.
Proof.
  rewrite length_app. replace (length s + length p - length p)%nat
    with (length s + 0)%nat by lia.
  rewrite firstn_app_2. simpl. apply app_nil_r.
Qed.

(** An occurrence of the separator is found by [cut]. *)
Lemma cut_app_Some sep a b : exists pre post, cut sep (a ++ sep ++ b) = Some (pre, post).
Proof.
  induction a as [|c a [pre [post IH]]].
  - simpl. destruct (sep ++ b) eqn:E; simpl.
    + destruct sep; [|discriminate]. simpl. eauto.
    + rewrite <- E, startsWith_app. eauto.
  - simpl. destruct (startsWith sep (c :: a ++ sep ++ b)); [eauto|].
    rewrite IH. eauto.
Qed.

Lemma includes_app sep a b : includes sep (a ++ sep ++ b) = true.
Proof.
  unfold includes. destruct (cut_app_Some sep a b) as [pre [post ->]].
  reflexivity.
Qed.

Lemma codeBlockMatch_fence inner :
  codeBlockMatch (FENCE ++ inner ++ FENCE)
  = Some (fenceLanguage inner, fenceCode inner).
Proof.
  unfold codeBlockMatch. rewrite startsWith_app.
  change (skipn 3 (FENCE ++ inner ++ FENCE)) with (inner ++ FENCE).
  assert (Ht : takeWhile isWordChar (inner ++ FENCE)
               = takeWhile isWordChar inner)
    by (apply takeWhile_app_stop; reflexivity).
  assert (Hd : dropWhile isWordChar (inner ++ FENCE)
               = dropWhile isWordChar inner ++ FENCE)
    by (apply dropWhile_app_stop; reflexivity).
  rewrite Ht, Hd. unfold fenceLanguage, fenceCode.
  destruct (dropWhile isWordChar inner) as [|c r] eqn:E.
  - reflexivity.
  - cbn [app]. destruct (c =? LF)%N.
    + rewrite endsWith_app.
      change 3%nat with (length FENCE). now rewrite firstn_app_exact.
    + change (c :: r ++ FENCE) with ((c :: r) ++ FENCE).
      rewrite endsWith_app.
      change 3%nat with (length FENCE). now rewrite firstn_app_exact.
Qed.

(** Text without a complete fence never matches the code-block pattern. *)
Lemma codeBlockMatch_no_fence s :
  next_fence s = None -> codeBlockMatch s = None.
Proof.
  unfold next_fence, codeBlockMatch. intros H.
  destruct (startsWith FENCE s) eqn:E; [|reflexivity].
  apply startsWith_skipn in E. change (length FENCE) with 3%nat in E.
  set (t := skipn 3 s) in *.
  assert (Hc : cut FENCE s = Some ([], t)).
  { rewrite E. simpl. reflexivity. }
  rewrite Hc in H.
  assert (Ht : includes FENCE t = false).
  { unfold includes. destruct (cut FENCE t) as [[? ?]|]; [discriminate|reflexivity]. }
  destruct (dropWhile_suffix isWordChar t) as [p [Hp _]].
  set (d := dropWhile isWordChar t) in *.
  match goal with |- (if endsWith FENCE ?a then _ else _) = _ =>
    destruct (endsWith FENCE a) eqn:Ee; [|reflexivity] end.
  exfalso. apply endsWith_spec in Ee as [u Hu].
  assert (exists q, t = q ++ FENCE ++ []) as [q Hq].
  { destruct d as [|c r].
    - destruct u; discriminate.
    - destruct (c =? LF)%N.
      + exists (p ++ c :: u). rewrite Hp, Hu, app_nil_r, <- app_assoc. reflexivity.
      + exists (p ++ u). rewrite Hp, Hu, app_nil_r, <- app_assoc. reflexivity. }
  rewrite Hq, includes_app in Ht. discriminate.
Qed.

Lemma next_fence_no_delimiter s :
  includes FENCE s = false -> next_fence s = None.
Proof.
  rewrite includes_false_cut. unfold next_fence. now intros ->.
Qed.

Lemma next_fence_unterminated pre tail :
  includes FENCE (pre ++ [BACKTICK; BACKTICK]) = false ->
  includes FENCE tail = false ->
  next_fence (pre ++ FENCE ++ tail) = None.
Proof.
  intros Hpre Htail. unfold next_fence.
  rewrite (cut_fence_here _ _ Hpre).
  apply includes_false_cut in Htail. now rewrite Htail.
Qed.

Lemma next_fence_complete pre inner rest :
  includes FENCE (pre ++ [BACKTICK; BACKTICK]) = false ->
  includes FENCE (inner ++ [BACKTICK; BACKTICK]) = false ->
  next_fence (pre ++ FENCE ++ inner ++ FENCE ++ rest)
  = Some (pre, FENCE ++ inner ++ FENCE, rest).
Proof.
  intros Hpre Hinner. unfold next_fence.
  rewrite (cut_fence_here _ _ Hpre), (cut_fence_here _ _ Hinner).
  reflexivity.
Qed.

(** Text before a delimiter found by [cut] does not itself start with the
    delimiter. *)
Lemma cut_pre_startsWith sep s pre post :
  sep <> [] -> cut sep s = Some (pre, post) -> startsWith sep pre = false.
Proof.
  intros Hsep. revert pre post. induction s as [|c s IH]; intros pre post; simpl.
  - destruct (startsWith sep []); [|discriminate]. intros [= <- _].
    destruct sep; [congruence | reflexivity].
  - destruct (startsWith sep (c :: s)) eqn:E.
    + intros [= <- _]. destruct sep; [congruence | reflexivity].
    + destruct (cut sep s) as [[p q]|] eqn:Ec; [|discriminate].
      intros [= <- <-].
      destruct (startsWith sep (c :: p)) eqn:E2; [|reflexivity].
      apply startsWith_spec in E2 as [t Ht].
      apply cut_spec in Ec. subst s.
      assert (startsWith sep (c :: p ++ sep ++ q) = true).
      { apply startsWith_spec. exists (t ++ sep ++ q).
        change (c :: p ++ sep ++ q) with ((c :: p) ++ sep ++ q).
        rewrite Ht. now rewrite <- app_assoc. }
      congruence.
Qed.

Lemma rendered_parts_eq content :
  rendered_parts content =
  match next_fence content with
  | None => if truthy (trim content) then [content] else []
  | Some (pre, fence, rest) =>
      (if truthy (trim pre) then [pre] else [])
      ++ (if truthy (trim fence) then [fence] else [])
      ++ rendered_parts rest
  end.
Proof.
  unfold rendered_parts. rewrite split_fences_eq.
  destruct (next_fence content) as [[[pre fence] rest]|]; simpl.
  - destruct (truthy (trim pre)), (truthy (trim fence)); reflexivity.
  - reflexivity.
Qed.

Lemma truthy_trim_fence inner : truthy (trim (FENCE ++ inner ++ FENCE)) = true.
Proof. rewrite truthy_trim. reflexivity. Qed.

Lemma render_part_prose marked_parse sanitize part :
  next_fence part = None ->
  render_part marked_parse sanitize part
  = ProseDiv (sanitize (marked_parse (trim part))).
Proof.
  intros H. unfold render_part. now rewrite (codeBlockMatch_no_fence _ H).
Qed.

Lemma includes_app_false_l sep a b :
  includes sep (a ++ b) = false -> includes sep a = false.
Proof.
  intros H. destruct (includes sep a) eqn:E; [|reflexivity].
  unfold includes in E. destruct (cut sep a) as [[p q]|] eqn:Ec; [|discriminate].
  apply cut_spec in Ec. subst a.
  rewrite <- !app_assoc in H. rewrite includes_app in H. discriminate.
Qed.

(** *** Evaluation on small inputs *)

Example split_fences_example :
  split_fences (js "ab" ++ FENCE ++ js "x" ++ FENCE ++ js "cd" ++ FENCE)
  = [js "ab"; FENCE ++ js "x" ++ FENCE; js "cd" ++ FENCE].
Proof. reflexivity. Qed.

Example FormattedContent_example :
  FormattedContent Examples.plainMarkdown Examples.stripAngle
    (js "Hi" ++ [LF] ++ FENCE ++ js "Mermaid" ++ [LF] ++ js "graph TD"
     ++ [LF] ++ FENCE ++ js " then " ++ FENCE ++ js "sql select 1" ++ FENCE
     ++ [LF] ++ js "see " ++ FENCE ++ js "js" ++ [LF] ++ js "let x")
  = [ ProseDiv (js "Hi");
      MermaidDiagramEl (js "graph TD");
      ProseDiv (js "then");
      CodeBlockEl (js "sql") (js "select 1");
      ProseDiv (js "see " ++ FENCE ++ js "js" ++ [LF] ++ js "let x") ].
Proof. reflexivity. Qed.

Example fileToPart_example :
  App.fileToPart (js "data:image/png;base64,iVBORw0KGgo=")
  = Ok (App.InlineData (js "iVBORw0KGgo=") (js "image/png"))
  /\ App.fileToPart (js "data:,hello") = Throw App.INVALID_DATA_URL.
Proof. split; reflexivity. Qed.

(** *** Adequacy of the two pattern matchers

    [next_fence] and [codeBlockMatch] are written as direct scans.  The
    lemmas below relate them to the declarative reading of the regular
    expressions: [next_fence] finds the leftmost occurrence of
    delimiter-body-delimiter and, at that position, the shortest body;
    [codeBlockMatch] succeeds exactly on the strings that begin and end
    with distinct delimiters. *)

Lemma cut_first sep s pre post a b :
  cut sep s = Some (pre, post) -> s = a ++ sep ++ b ->
  (length pre <= length a)%nat.
Proof.
  revert pre a. induction s as [|c s IH]; intros pre a; simpl.
  - destruct (startsWith sep []); [|discriminate].
    intros [= <- _] _. simpl. lia.
  - destruct (startsWith sep (c :: s)) eqn:E.
    + intros [= <- _] _. simpl. lia.
    + destruct (cut sep s) as [[p q]|] eqn:Ec; [|discriminate].
      intros [= <- <-] Hs. destruct a as [|d a].
      * simpl in Hs. rewrite Hs, startsWith_app in E. discriminate.
      * injection Hs as _ Hs. simpl. specialize (IH p a eq_refl Hs). lia.
Qed.

Lemma cut_None_no_occurrence sep s a b :
  cut sep s = None -> s <> a ++ sep ++ b.
Proof.
  intros H ->. destruct (cut_app_Some sep a b) as [pre [post E]]. congruence.
Qed.

Lemma skipn_app_le (n : nat) (l1 l2 : jsstring) :
  (n <= length l1)%nat -> skipn n (l1 ++ l2) = skipn n l1 ++ l2.
Proof.
  intros H. rewrite skipn_app.
  replace (n - length l1)%nat with 0%nat by lia. reflexivity.
Qed.

Lemma closing_in_remainder pre after a b r :
  pre ++ FENCE ++ after = a ++ FENCE ++ b ++ FENCE ++ r ->
  (length pre <= length a)%nat ->
  exists x, after = x ++ FENCE ++ r
            /\ (length x + length pre = length a + length b)%nat.
Proof.
  intros H Hle.
  assert (Hl : after = skipn (length (pre ++ FENCE)) (pre ++ FENCE ++ after)).
  { rewrite app_assoc. now rewrite skipn_length_app. }
  rewrite H in Hl.
  replace (a ++ FENCE ++ b ++ FENCE ++ r)
    with ((a ++ FENCE ++ b) ++ FENCE ++ r) in Hl
    by now rewrite <- !app_assoc.
  rewrite skipn_app_le in Hl
    by (rewrite !length_app; simpl; lia).
  exists (skipn (length (pre ++ FENCE)) (a ++ FENCE ++ b)).
  split; [exact Hl|].
  rewrite length_skipn, !length_app. simpl. lia.
Qed.

(** No match exactly when the text holds no delimiter-body-delimiter. *)
Lemma next_fence_None_iff s :
  next_fence s = None
  <-> ~ exists a b r, s = a ++ FENCE ++ b ++ FENCE ++ r.
Proof.
  unfold next_fence. split.
  - intros H [a [b [r Hs]]].
    destruct (cut FENCE s) as [[pre after]|] eqn:E1.
    + destruct (cut FENCE after) as [[body rest]|] eqn:E2; [discriminate|].
      pose proof (cut_first _ _ _ E1 Hs) as Hle.
      apply cut_spec in E1. rewrite E1 in Hs.
      destruct (closing_in_remainder _ _ _ _ _ Hs Hle) as [x [Hx _]].
      now apply (cut_None_no_occurrence _ x r) in E2.
    + now apply (cut_None_no_occurrence _ a (b ++ FENCE ++ r)) in E1.
  - intros H.
    destruct (cut FENCE s) as [[pre after]|] eqn:E1; [|reflexivity].
    destruct (cut FENCE after) as [[body rest]|] eqn:E2; [|reflexivity].
    exfalso. apply H. apply cut_spec in E1. apply cut_spec in E2.
    exists pre, body, rest. now rewrite E1, E2.
Qed.

(** The match is the leftmost one and its body is the shortest one. *)
Lemma next_fence_leftmost_lazy s pre fence rest a b r :
  next_fence s = Some (pre, fence, rest) ->
  s = a ++ FENCE ++ b ++ FENCE ++ r ->
  (length pre <= length a)%nat
  /\ (length a = length pre ->
      (length fence <= length (FENCE ++ b ++ FENCE))%nat).
Proof.
  unfold next_fence. intros H Hs.
  destruct (cut FENCE s) as [[p after]|] eqn:E1; [|discriminate].
  destruct (cut FENCE after) as [[body q]|] eqn:E2; [|discriminate].
  injection H as <- <- <-.
  pose proof (cut_first _ _ _ E1 Hs) as Hle. split; [exact Hle|].
  intros Hlen. apply cut_spec in E1. rewrite E1 in Hs.
  destruct (closing_in_remainder _ _ _ _ _ Hs Hle) as [x [Hx Hxl]].
  pose proof (cut_first _ _ _ E2 Hx) as Hb.
  simpl. rewrite !length_app. simpl. lia.
Qed.

(** The code-block pattern matches exactly the strings of the form
    delimiter, inner text, delimiter. *)
Lemma codeBlockMatch_iff part :
  codeBlockMatch part <> None
  <-> exists inner, part = FENCE ++ inner ++ FENCE.
Proof.
  split.
  - intros H. destruct (next_fence part) as [[[pre fence] rest]|] eqn:E.
    + unfold codeBlockMatch in H.
      destruct (startsWith FENCE part) eqn:Es; [|congruence].
      apply startsWith_skipn in Es. change (length FENCE) with 3%nat in Es.
      set (t := skipn 3 part) in *.
      destruct (dropWhile_suffix isWordChar t) as [p [Hp _]].
      set (d := dropWhile isWordChar t) in *.
      match type of H with (if endsWith FENCE ?x then _ else _) <> _ =>
        destruct (endsWith FENCE x) eqn:Ee; [|congruence] end.
      apply endsWith_spec in Ee as [u Hu].
      destruct d as [|c l].
      * destruct u; discriminate.
      * destruct (c =? LF)%N.
        -- exists (p ++ c :: u). rewrite Es, Hp, Hu, <- app_assoc. reflexivity.
        -- exists (p ++ u). rewrite Es, Hp, Hu, <- app_assoc. reflexivity.
    + now rewrite (codeBlockMatch_no_fence _ E) in H.
  - intros [inner ->]. rewrite codeBlockMatch_fence. discriminate.
Qed.

(** C1.  The parts produced by the split, concatenated in order, are the
    message text itself; the spans that are rendered are exactly the parts
    that are not whitespace-only, in the same order; every part is either
    rendered or whitespace-only; and the rendered output has one element
    per rendered span. *)
Theorem segment_spans_roundtrip (content : jsstring) :
  concat (split_fences content) = content
  /\ rendered_parts content
     = filter (fun part => negb (forallb isWhiteSpace part))
              (split_fences content)
  /\ Forall (fun part => In part (rendered_parts content)
                         \/ forallb isWhiteSpace part = true)
            (split_fences content)
  /\ forall marked_parse sanitize,
       FormattedContent marked_parse sanitize content
       = map (render_part marked_parse sanitize) (rendered_parts content).
Proof.
  assert (Hf : rendered_parts content
               = filter (fun part => negb (forallb isWhiteSpace part))
                        (split_fences content)).
  { unfold rendered_parts. apply filter_ext. intros part. apply truthy_trim. }
  split; [apply split_fences_concat|]. split; [exact Hf|]. split.
  - apply Forall_forall. intros part Hin. rewrite Hf.
    destruct (forallb isWhiteSpace part) eqn:E; [now right|left].
    apply filter_In. split; [exact Hin | now rewrite E].
  - reflexivity.
Qed.

Lemma lowerUnit_sameLetter a b :
  (b < 65 \/ 90 < b)%N -> (lowerUnit a = b <-> sameLetter a b).
Proof.
  intros Hb. unfold lowerUnit, sameLetter.
  destruct ((65 <=? a) && (a <=? 90))%N eqn:E.
  - apply andb_prop in E as [E1 E2].
    apply N.leb_le in E1. apply N.leb_le in E2. split.
    + intros <-. right. left. auto.
    + intros [-> | [[_ [_ ->]] | [H1 [H2 ->]]]]; [lia | reflexivity | lia].
  - apply andb_false_iff in E. split.
    + intros <-. now left.
    + intros [-> | [[H1 [H2 ->]] | [H1 [H2 ->]]]]; [reflexivity | | lia].
      exfalso. destruct E as [E|E];
        [apply N.leb_gt in E | apply N.leb_gt in E]; lia.
Qed.

(** On a target without upper-case letters, comparing the lower-cased text
    is comparing up to case. *)
Lemma toLowerCase_equalIgnoringCase t : forall s,
  Forall (fun b => (b < 65 \/ 90 < b)%N) t ->
  (toLowerCase s = t <-> equalIgnoringCase s t).
Proof.
  unfold toLowerCase, equalIgnoringCase.
  induction t as [|b t IH]; intros s Ht.
  - destruct s; simpl; split; intros H; try constructor;
      try discriminate; inversion H.
  - inversion Ht as [|? ? Hb Ht']; subst.
    destruct s as [|a s]; simpl.
    + split; intros H; [discriminate | inversion H].
    + split.
      * intros [= Ha Hs]. constructor.
        -- now apply lowerUnit_sameLetter.
        -- now apply IH.
      * intros H. inversion H; subst. f_equal.
        -- now apply lowerUnit_sameLetter.
        -- now apply IH.
Qed.

Lemma MERMAID_lower : Forall (fun b => (b < 65 \/ 90 < b)%N) MERMAID.
Proof. repeat constructor; right; reflexivity. Qed.

(** The characters matched by [\w] are the tag characters. *)
Lemma isWordChar_tagCharacter c : isWordChar c = true <-> tagCharacter c.
Proof.
  unfold isWordChar, tagCharacter.
  rewrite !orb_true_iff, !andb_true_iff, !N.leb_le, N.eqb_eq. tauto.
Qed.

Lemma tagEndsBefore_head c r : tagEndsBefore (c :: r) -> isWordChar c = false.
Proof.
  simpl. intros H. destruct (isWordChar c) eqn:E; [|reflexivity].
  apply isWordChar_tagCharacter in E. contradiction.
Qed.

Lemma fenceLanguage_tag tag body :
  Forall tagCharacter tag -> tagEndsBefore body ->
  fenceLanguage (tag ++ body) = tag.
Proof.
  intros Ht Hb. unfold fenceLanguage.
  induction Ht as [|c tag Hc Ht IH]; simpl.
  - destruct body as [|d r]; [reflexivity|].
    simpl. now rewrite (@tagEndsBefore_head d r Hb).
  - apply isWordChar_tagCharacter in Hc. now rewrite Hc, IH.
Qed.

Lemma fenceCode_tag tag body :
  Forall tagCharacter tag -> tagEndsBefore body ->
  fenceCode (tag ++ body) = withoutLeadingLineFeed body.
Proof.
  intros Ht Hb. unfold fenceCode.
  assert (Hd : dropWhile isWordChar (tag ++ body) = body).
  { induction Ht as [|c tag Hc Ht IH]; simpl.
    - destruct body as [|d r]; [reflexivity|].
      simpl. now rewrite (@tagEndsBefore_head d r Hb).
    - apply isWordChar_tagCharacter in Hc. now rewrite Hc. }
  rewrite Hd. unfold withoutLeadingLineFeed.
  destruct body as [|d r]; [reflexivity|]. now destruct (d =? LF)%N.
Qed.

(** C3, as stated, fails for a tag that goes on after its leading tag
    characters: the fence written with the tag [mermaid-v2] is not tagged
    with the diagram language, yet it is rendered as a diagram (whose
    description starts with the rest of the tag, the hyphen not being a
    tag character). *)
Lemma hyphenated_tag_renders_as_diagram :
  writtenTag (js "mermaid-v2" ++ [LF] ++ js "graph TD") = js "mermaid-v2"
  /\ ~ equalIgnoringCase (js "mermaid-v2") MERMAID
  /\ FormattedContent Examples.plainMarkdown Examples.stripAngle
       (FENCE ++ (js "mermaid-v2" ++ [LF] ++ js "graph TD") ++ FENCE)
     = [MermaidDiagramEl (js "-v2" ++ [LF] ++ js "graph TD")].
Proof.
  split; [reflexivity|]. split; [|reflexivity].
  intros H. apply Forall2_length in H. discriminate H.
Qed.

(** C3, amended.  The tag of a fence is the longest run of letters, digits
    and underscores right after the opening delimiter.  A complete fence
    (opening delimiter, tag, body, closing delimiter, each delimiter being
    the first one available) renders as the diagram component when its tag
    equals "mermaid" up to case, and as a code block carrying that tag
    otherwise, the empty tag included; in both cases the payload is the
    body without one leading line feed, trimmed.  The text before the fence
    renders as prose and the text after it is segmented on its own.  An
    opening delimiter with no closing delimiter leaves the whole remaining
    text as one prose block, and text without delimiters is prose. *)
Theorem fence_classification
    (marked_parse sanitize : jsstring -> jsstring)
    (pre tag body rest tail text : jsstring) :
  includes FENCE (pre ++ [BACKTICK; BACKTICK]) = false ->
  includes FENCE ((tag ++ body) ++ [BACKTICK; BACKTICK]) = false ->
  Forall tagCharacter tag ->
  tagEndsBefore body ->
  includes FENCE tail = false ->
  includes FENCE text = false ->
  let payload := trim (withoutLeadingLineFeed body) in
  (equalIgnoringCase tag MERMAID ->
     FormattedContent marked_parse sanitize
       (pre ++ FENCE ++ (tag ++ body) ++ FENCE ++ rest)
     = proseOf marked_parse sanitize pre
       ++ MermaidDiagramEl payload
          :: FormattedContent marked_parse sanitize rest)
  /\ (~ equalIgnoringCase tag MERMAID ->
       FormattedContent marked_parse sanitize
         (pre ++ FENCE ++ (tag ++ body) ++ FENCE ++ rest)
       = proseOf marked_parse sanitize pre
         ++ CodeBlockEl tag payload
            :: FormattedContent marked_parse sanitize rest)
  /\ FormattedContent marked_parse sanitize (pre ++ FENCE ++ tail)
     = [ProseDiv (sanitize (marked_parse (trim (pre ++ FENCE ++ tail))))]
  /\ FormattedContent marked_parse sanitize text
     = proseOf marked_parse sanitize text.
Proof.
  intros Hpre Hinner Htag Hbody Htail Htext payload.
  assert (Hsplit :
    FormattedContent marked_parse sanitize
      (pre ++ FENCE ++ (tag ++ body) ++ FENCE ++ rest)
    = proseOf marked_parse sanitize pre
      ++ render_part marked_parse sanitize (FENCE ++ (tag ++ body) ++ FENCE)
         :: FormattedContent marked_parse sanitize rest).
  { unfold FormattedContent. rewrite rendered_parts_eq.
    rewrite (next_fence_complete _ _ rest Hpre Hinner).
    rewrite truthy_trim_fence, !map_app. f_equal.
    unfold proseOf. destruct (truthy (trim pre)); [|reflexivity].
    simpl. f_equal. apply render_part_prose.
    apply next_fence_no_delimiter.
    now apply includes_app_false_l in Hpre. }
  assert (Hrender :
    render_part marked_parse sanitize (FENCE ++ (tag ++ body) ++ FENCE)
    = if JS.eqb (toLowerCase tag) MERMAID
      then MermaidDiagramEl payload else CodeBlockEl tag payload).
  { unfold render_part. rewrite codeBlockMatch_fence.
    now rewrite (@fenceLanguage_tag tag body Htag Hbody),
                (@fenceCode_tag tag body Htag Hbody). }
  rewrite Hsplit, Hrender.
  split; [|split; [|split]].
  - intros Hm.
    apply (toLowerCase_equalIgnoringCase tag MERMAID_lower) in Hm.
    rewrite Hm. reflexivity.
  - intros Hm.
    destruct (JS.eqb (toLowerCase tag) MERMAID) eqn:E; [|reflexivity].
    apply eqb_spec in E.
    apply (toLowerCase_equalIgnoringCase tag MERMAID_lower) in E.
    contradiction.
  - pose proof (next_fence_unterminated _ _ Hpre Htail) as Hn.
    unfold FormattedContent. rewrite rendered_parts_eq, Hn.
    assert (Ht : truthy (trim (pre ++ FENCE ++ tail)) = true).
    { rewrite truthy_trim, forallb_app. simpl. now rewrite andb_false_r. }
    rewrite Ht. simpl. now rewrite render_part_prose.
  - pose proof (next_fence_no_delimiter _ Htext) as Hn.
    unfold FormattedContent. rewrite rendered_parts_eq, Hn.
    unfold proseOf. destruct (truthy (trim text)); [|reflexivity].
    simpl. now rewrite render_part_prose.
Qed.

(** ** Diagram engine *)

Lemma trimEnd_keep p c s :
  isWhiteSpace c = false -> trimEnd (p ++ c :: s) = p ++ c :: trimEnd s.
Proof.
  intros Hc. unfold trimEnd. rewrite rev_app_distr. simpl.
  rewrite <- app_assoc. simpl.
  rewrite (dropWhile_app_stop isWhiteSpace (rev s) c (rev p) Hc).
  rewrite rev_app_distr. simpl. rewrite rev_involutive, <- app_assoc.
  reflexivity.
Qed.

(** C10.  When the compilation is rejected (and the component is still
    mounted), the stored markup is the fixed opening of the error panel,
    then the text of the failure exactly as thrown (the [message] of an
    [Error], or the string form of any other thrown value), then the fixed
    closing: nothing is escaped or removed, whatever the text contains.
    That markup is what the diagram [div] shows; it does not start with
    ["<svg"], so only the copy action is offered, a click does not open the
    modal and nothing can be downloaded. *)
Theorem failed_diagram_panel
    (svgOuterHTML : jsstring -> option jsstring)
    (text : jsstring) (st : Diagram.State) :
  let failed error :=
    Diagram.renderDiagram_settled svgOuterHTML true (Diagram.Rejected error)
      st in
  Diagram.svg (failed (ErrorObject text))
  = Diagram.ERROR_PANEL_HEAD ++ text ++ Diagram.ERROR_PANEL_TAIL
  /\ Diagram.svg (failed (OtherValue text))
     = Diagram.ERROR_PANEL_HEAD ++ text ++ Diagram.ERROR_PANEL_TAIL
  /\ firstn 4 Diagram.ERROR_PANEL_HEAD = js "<div"
  /\ forall error,
       let st' := failed error in
       Diagram.displayedMarkup st' = Some (Diagram.svg st')
       /\ startsWith (js "<svg") (Diagram.svg st') = false
       /\ Diagram.isRenderSuccess st' = false
       /\ Diagram.toolbar st' = [Diagram.CopyAction]
       /\ Diagram.clickDiagram st' = st'
       /\ Diagram.handleDownload st' = None.
Proof.
  intros failed.
  split; [reflexivity|]. split; [reflexivity|]. split; [reflexivity|].
  intros error st'.
  assert (Hsvg : Diagram.svg st'
                 = Diagram.ERROR_PANEL_HEAD ++ Diagram.errorMessage error
                   ++ Diagram.ERROR_PANEL_TAIL) by reflexivity.
  assert (Hload : Diagram.isLoading st' = false) by reflexivity.
  assert (Hstart : startsWith (js "<svg") (trim (Diagram.svg st')) = false).
  { rewrite Hsvg.
    set (m := Diagram.errorMessage error ++ Diagram.ERROR_PANEL_TAIL).
    change (Diagram.ERROR_PANEL_HEAD ++ m)
      with ([60%N] ++ 100%N :: skipn 2 Diagram.ERROR_PANEL_HEAD ++ m).
    unfold trim.
    change (trimStart ([60%N] ++ 100%N :: skipn 2 Diagram.ERROR_PANEL_HEAD ++ m))
      with ([60%N] ++ 100%N :: skipn 2 Diagram.ERROR_PANEL_HEAD ++ m).
    rewrite trimEnd_keep by reflexivity. reflexivity. }
  assert (Hok : Diagram.isRenderSuccess st' = false) by exact Hstart.
  split; [unfold Diagram.displayedMarkup; now rewrite Hload|].
  split; [rewrite Hsvg; reflexivity|].
  split; [exact Hok|].
  split; [unfold Diagram.toolbar; now rewrite Hload, Hok|].
  split; [unfold Diagram.clickDiagram; now rewrite Hok|].
  unfold Diagram.handleDownload. rewrite Hstart.
  now rewrite orb_true_r.
Qed.

(** ** Transcript reconciler *)

Lemma setLast_snoc prev x m : App.setLast (prev ++ [x]) m = prev ++ [m].
Proof.
  unfold App.setLast. destruct (prev ++ [x]) eqn:E.
  - destruct prev; discriminate.
  - rewrite <- E, removelast_last. reflexivity.
Qed.

Lemma consumeChunks_deltas m prev trailing response deltas :
  App.consumeChunks m (prev ++ [trailing], response) (map Some deltas)
  = (match deltas with
     | [] => prev ++ [trailing]
     | _ :: _ => prev ++ [App.modelMessage (response ++ concat deltas) m]
     end,
     response ++ concat deltas).
Proof.
  revert trailing response. induction deltas as [|d ds IH]; intros; simpl.
  - now rewrite app_nil_r.
  - unfold App.consumeChunks in *. simpl. unfold App.appendText.
    rewrite setLast_snoc, IH, <- app_assoc.
    destruct ds; [simpl; now rewrite !app_nil_r | reflexivity].
Qed.

(** C2.  While a reply streams, after the [k]-th delta the transcript is the
    transcript before the submission followed by the user message and ONE
    model message whose content is the concatenation of the first [k]
    deltas: each delta overwrites the trailing entry, none adds an entry.
    For the deltas "Hel", "lo, ", "world" the trailing content is "Hel",
    then "Hello, ", then "Hello, world". *)
Theorem streamed_deltas_replace_trailing_message
    (transport : App.ModelName -> list App.Content -> App.Language
                 -> App.StreamResult)
    (st : App.AppState) (prompt : jsstring)
    (attachment : option App.Attachment) (folder : option App.ProcessedFolder)
    (contents : list App.Content) (deltas : list jsstring)
    (failure : option Thrown) (k : nat) :
  App.buildContents (App.messages st) prompt attachment folder = Ok contents ->
  transport (App.selectedModel st) contents (App.language st)
  = App.Stream (map Some deltas) failure ->
  App.messages
    (App.handleSendMessage_upto transport (Some k) st prompt attachment folder)
  = App.messages st
    ++ [ {| App.role := App.USER; App.content := prompt;
            App.attachment := attachment; App.folder := folder;
            App.model := None |};
         App.modelMessage (concat (firstn k deltas)) (App.selectedModel st) ]
  /\ map (fun n =>
            map App.content
              (fst (App.consumeChunks App.gemini_2_5_pro
                      ([App.modelMessage [] App.gemini_2_5_pro], [])
                      (firstn n [Some (js "Hel"); Some (js "lo, ");
                                 Some (js "world")]))))
         [1; 2; 3]%nat
     = [[js "Hel"]; [js "Hello, "]; [js "Hello, world"]].
Proof.
  intros Hb Ht. split; [|reflexivity].
  unfold App.handleSendMessage_upto. rewrite Hb, Ht. simpl.
  rewrite firstn_map, consumeChunks_deltas.
  destruct (firstn k deltas); simpl; now rewrite <- app_assoc.
Qed.

(** ** Binary64 arithmetic *)

Module Binary64Facts.
Import Binary64.
Local Open Scope Q_scope.

Lemma floor_bounds q :
  inject_Z (Qfloor q) <= q /\ q < inject_Z (Qfloor q) + 1.
Proof.
  split; [apply Qfloor_le|].
  pose proof (Qlt_floor q) as H. rewrite inject_Z_plus in H. exact H.
Qed.

Lemma nearestEven_cases q :
  let f := Qfloor q in
  (nearestEven q = f /\ q - inject_Z f <= 1 # 2)
  \/ (nearestEven q = (f + 1)%Z /\ 1 # 2 <= q - inject_Z f).
Proof.
  intros f. unfold nearestEven. fold f.
  destruct (Qcompare (q - inject_Z f) (1 # 2)) eqn:E.
  - apply Qeq_alt in E. destruct (Z.even f).
    + left. split; [reflexivity|]. rewrite E. apply Qle_refl.
    + right. split; [reflexivity|]. rewrite E. apply Qle_refl.
  - apply Qlt_alt in E. left. split; [reflexivity | now apply Qlt_le_weak].
  - apply Qgt_alt in E. right. split; [reflexivity | now apply Qlt_le_weak].
Qed.

Lemma nearestEven_error q :
  Qabs (inject_Z (nearestEven q) - q) <= 1 # 2.
Proof.
  destruct (floor_bounds q) as [Hlo Hhi].
  apply Qabs_Qle_condition.
  destruct (nearestEven_cases q) as [[-> H] | [-> H]];
    rewrite ?inject_Z_plus; change (inject_Z 1) with 1; split; lra.
Qed.

Lemma nearestEven_Z k : nearestEven (inject_Z k) = k.
Proof.
  unfold nearestEven. rewrite Qfloor_Z.
  assert (E : Qcompare (inject_Z k - inject_Z k) (1 # 2) = Lt).
  { apply (proj1 (Qlt_alt _ _)). lra. }
  now rewrite E.
Qed.

Lemma nearestEven_mono p q : p <= q -> (nearestEven p <= nearestEven q)%Z.
Proof.
  intros Hle.
  pose proof (Qfloor_resp_le _ _ Hle) as Hf.
  destruct (floor_bounds p) as [Hp1 Hp2], (floor_bounds q) as [Hq1 Hq2].
  destruct (Z.eq_dec (Qfloor p) (Qfloor q)) as [Heq | Hne].
  - unfold nearestEven. rewrite <- Heq.
    destruct (Qcompare_spec (p - inject_Z (Qfloor p)) (1 # 2)) as [Ep|Ep|Ep];
    destruct (Qcompare_spec (q - inject_Z (Qfloor p)) (1 # 2)) as [Eq|Eq|Eq];
    try destruct (Z.even (Qfloor p)); try lia; exfalso; lra.
  - assert (Hlt : (Qfloor p + 1 <= Qfloor q)%Z) by lia.
    destruct (nearestEven_cases p) as [[-> _] | [-> _]];
    destruct (nearestEven_cases q) as [[-> _] | [-> _]]; lia.
Qed.

Lemma nearestEven_ge k q : inject_Z k <= q -> (k <= nearestEven q)%Z.
Proof.
  intros H. rewrite <- (nearestEven_Z k). now apply nearestEven_mono.
Qed.

Lemma nearestEven_le k q : q <= inject_Z k -> (nearestEven q <= k)%Z.
Proof.
  intros H. rewrite <- (nearestEven_Z k). now apply nearestEven_mono.
Qed.


Lemma pow2_pos e : 0 < pow2 e.
Proof. unfold pow2. apply Qpower_0_lt. reflexivity. Qed.

Lemma pow2_add a b : pow2 (a + b) == pow2 a * pow2 b.
Proof. unfold pow2. apply Qpower_plus. discriminate. Qed.

Lemma pow2_succ a : pow2 (a + 1) == 2 * pow2 a.
Proof. rewrite pow2_add. change (pow2 1) with 2. ring. Qed.

Lemma pow2_le a b : (a <= b)%Z -> pow2 a <= pow2 b.
Proof. intros H. unfold pow2. apply Qpower_le_compat_l; [exact H | discriminate]. Qed.

Lemma pow2_inject a : (0 <= a)%Z -> inject_Z (2 ^ a) == pow2 a.
Proof. intros H. unfold pow2. now rewrite Zpower_Qpower. Qed.

Lemma log2_bounds (n : positive) :
  pow2 (Z.log2 (Zpos n)) <= inject_Z (Zpos n)
  /\ inject_Z (Zpos n) < 2 * pow2 (Z.log2 (Zpos n)).
Proof.
  assert (Hn : (0 < Zpos n)%Z) by reflexivity.
  pose proof (Z.log2_spec _ Hn) as [Hlo Hhi].
  pose proof (Z.log2_nonneg (Zpos n)) as H0.
  split.
  - rewrite <- pow2_inject by exact H0. now rewrite <- Zle_Qle.
  - rewrite <- pow2_succ. rewrite <- pow2_inject by lia.
    rewrite <- Zlt_Qlt. exact Hhi.
Qed.

Lemma positive_num x : 0 < x -> exists n, Qnum x = Zpos n.
Proof.
  destruct x as [[|n|n] d]; unfold Qlt; simpl; intros H; try lia.
  now exists n.
Qed.

(** The unrounded significand lies in (2^52, 2^54) at the first guess. *)
Lemma first_guess_pos (n d : positive) (e0 : Z) :
  e0 = (Z.log2 (Zpos n) - Z.log2 (Zpos d) - 53)%Z ->
  pow2 52 * pow2 e0 < Zpos n # d /\ Zpos n # d < pow2 54 * pow2 e0.
Proof.
  intros He0.
  destruct (log2_bounds n) as [Hn1 Hn2], (log2_bounds d) as [Hd1 Hd2].
  set (a := Z.log2 (Zpos n)) in *. set (b := Z.log2 (Zpos d)) in *.
  assert (Hx' : Zpos n # d == inject_Z (Zpos n) / inject_Z (Zpos d))
    by apply Qmake_Qdiv.
  assert (Hd0 : 0 < inject_Z (Zpos d)) by reflexivity.
  pose proof (pow2_pos a) as Ha. pose proof (pow2_pos b) as Hb.
  pose proof (pow2_pos e0) as He.
  assert (E : pow2 a == pow2 53 * pow2 e0 * pow2 b).
  { rewrite <- !pow2_add.
    assert (Hz : (53 + e0 + b = a)%Z) by lia.
    now rewrite Hz. }
  assert (H53 : pow2 53 == 2 * pow2 52) by reflexivity.
  assert (H54 : pow2 54 == 4 * pow2 52) by reflexivity.
  set (P := pow2 52 * pow2 e0).
  assert (HP : 0 < P) by (apply Qmult_lt_0_compat; [apply pow2_pos | exact He]).
  assert (E' : pow2 a == P * (2 * pow2 b)).
  { rewrite E, H53. unfold P. ring. }
  rewrite Hx', H54. split.
  - apply Qlt_shift_div_l; [exact Hd0|]. fold P.
    apply Qlt_le_trans with (pow2 a); [|exact Hn1].
    rewrite E'. apply Qmult_lt_l; assumption.
  - apply Qlt_shift_div_r; [exact Hd0|].
    apply Qlt_le_trans with (2 * pow2 a); [exact Hn2|].
    rewrite E'.
    setoid_replace (4 * pow2 52 * pow2 e0 * inject_Z (Zpos d))
      with (P * (4 * inject_Z (Zpos d))) by (unfold P; ring).
    setoid_replace (2 * (P * (2 * pow2 b))) with (P * (4 * pow2 b)) by ring.
    apply Qmult_le_l; [exact HP|]. lra.
Qed.

Lemma first_guess x :
  0 < x ->
  let e0 := (Z.log2 (Qnum x) - Z.log2 (Zpos (Qden x)) - 53)%Z in
  pow2 52 * pow2 e0 < x /\ x < pow2 54 * pow2 e0.
Proof.
  intros Hx. destruct (positive_num Hx) as [n Hn].
  destruct x as [xn d]. cbn [Qnum Qden] in *. subst xn.
  now apply first_guess_pos.
Qed.

Lemma normalExponent_spec x :
  0 < x ->
  pow2 52 * pow2 (normalExponent x) <= x
  /\ x < pow2 53 * pow2 (normalExponent x).
Proof.
  intros Hx. destruct (first_guess Hx) as [Hlo Hhi].
  unfold normalExponent.
  set (e0 := (Z.log2 (Qnum x) - Z.log2 (Zpos (Qden x)) - 53)%Z) in *.
  pose proof (pow2_pos e0) as He.
  destruct (Qle_bool (pow2 53) (x / pow2 e0)) eqn:E.
  - apply Qle_bool_iff in E.
    apply (Qmult_le_r _ _ (pow2 e0) He) in E.
    assert (Hq : x / pow2 e0 * pow2 e0 == x) by (field; lra).
    rewrite Hq in E. rewrite pow2_succ.
    assert (H53 : pow2 53 == 2 * pow2 52) by reflexivity.
    assert (H54 : pow2 54 == 2 * pow2 53) by reflexivity.
    rewrite H54 in Hhi. split.
    + rewrite H53 in E.
      setoid_replace (pow2 52 * (2 * pow2 e0)) with (2 * pow2 52 * pow2 e0)
        by ring. exact E.
    + setoid_replace (pow2 53 * (2 * pow2 e0)) with (2 * pow2 53 * pow2 e0)
        by ring. exact Hhi.
  - split; [now apply Qlt_le_weak|].
    apply Qnot_le_lt. intros H.
    assert (E' : Qle_bool (pow2 53) (x / pow2 e0) = true).
    { apply Qle_bool_iff. apply Qle_shift_div_l; assumption. }
    congruence.
Qed.


Lemma exponent_cases x :
  0 < x ->
  x < pow2 53 * pow2 (exponent x)
  /\ (pow2 52 * pow2 (exponent x) <= x \/ exponent x = MIN_EXPONENT).
Proof.
  intros Hx. destruct (normalExponent_spec Hx) as [Hlo Hhi].
  unfold exponent.
  destruct (Z.max_spec (normalExponent x) MIN_EXPONENT) as [[Hlt ->] | [Hle ->]].
  - split; [|now right].
    eapply Qlt_le_trans; [exact Hhi|].
    apply Qmult_le_l; [apply pow2_pos|]. apply pow2_le. lia.
  - split; [exact Hhi | now left].
Qed.

Lemma significand_scaled x e : x / pow2 e * pow2 e == x.
Proof. pose proof (pow2_pos e). field. lra. Qed.

Lemma roundPositive_error x :
  0 < x -> Qabs (roundPositive x - x) <= unitRoundoff * x + eta.
Proof.
  intros Hx. destruct (exponent_cases Hx) as [_ Hc].
  unfold roundPositive.
  set (e := exponent x) in *. set (q := x / pow2 e).
  pose proof (pow2_pos e) as He.
  pose proof (nearestEven_error q) as Hm.
  apply Qabs_Qle_condition in Hm. destruct Hm as [Hm1 Hm2].
  set (m := inject_Z (nearestEven q)) in *.
  assert (Hd : m * pow2 e - x == (m - q) * pow2 e).
  { unfold q. field. lra. }
  assert (Hhalf : Qabs (m * pow2 e - x) <= (1 # 2) * pow2 e).
  { rewrite Hd. apply Qabs_Qle_condition. split.
    - setoid_replace (- ((1 # 2) * pow2 e)) with (- (1 # 2) * pow2 e) by ring.
      apply Qmult_le_compat_r; [exact Hm1 | now apply Qlt_le_weak].
    - apply Qmult_le_compat_r; [exact Hm2 | now apply Qlt_le_weak]. }
  eapply Qle_trans; [exact Hhalf|].
  assert (Hu : 0 < unitRoundoff) by apply pow2_pos.
  assert (Heta : 0 < eta) by apply pow2_pos.
  destruct Hc as [Hn | Hs].
  - apply (Qmult_le_l _ _ unitRoundoff Hu) in Hn.
    assert (Hk : unitRoundoff * (pow2 52 * pow2 e) == (1 # 2) * pow2 e).
    { assert (Hk' : unitRoundoff * pow2 52 == 1 # 2) by reflexivity.
      rewrite Qmult_assoc, Hk'. reflexivity. }
    rewrite Hk in Hn. lra.
  - rewrite Hs.
    assert (Hk : (1 # 2) * pow2 MIN_EXPONENT == eta) by reflexivity.
    rewrite Hk.
    assert (0 <= unitRoundoff * x)
      by (apply Qmult_le_0_compat; now apply Qlt_le_weak).
    lra.
Qed.


Lemma exponent_min x : (MIN_EXPONENT <= exponent x)%Z.
Proof. unfold exponent. apply Z.le_max_r. Qed.

Lemma significand_le x :
  0 < x -> (nearestEven (x / pow2 (exponent x)) <= 2 ^ 53)%Z.
Proof.
  intros Hx. destruct (exponent_cases Hx) as [Hhi _].
  apply nearestEven_le. rewrite pow2_inject by lia.
  apply Qle_shift_div_r; [apply pow2_pos | now apply Qlt_le_weak].
Qed.

Lemma significand_ge x :
  pow2 52 * pow2 (exponent x) <= x ->
  (2 ^ 52 <= nearestEven (x / pow2 (exponent x)))%Z.
Proof.
  intros H. apply nearestEven_ge. rewrite pow2_inject by lia.
  apply Qle_shift_div_l; [apply pow2_pos | exact H].
Qed.

Lemma roundPositive_nonneg x : 0 < x -> 0 <= roundPositive x.
Proof.
  intros Hx. unfold roundPositive.
  apply Qmult_le_0_compat; [|apply Qlt_le_weak, pow2_pos].
  change 0 with (inject_Z 0). rewrite <- Zle_Qle.
  apply nearestEven_ge. simpl.
  apply Qle_shift_div_l; [apply pow2_pos|]. rewrite Qmult_0_l.
  now apply Qlt_le_weak.
Qed.

Lemma roundPositive_mono x y :
  0 < x -> x <= y -> roundPositive x <= roundPositive y.
Proof.
  intros Hx Hxy.
  assert (Hy : 0 < y) by (eapply Qlt_le_trans; eassumption).
  destruct (exponent_cases Hx) as [Hxhi Hxlo].
  destruct (exponent_cases Hy) as [Hyhi Hylo].
  pose proof (exponent_min x) as Hxm. pose proof (exponent_min y) as Hym.
  pose proof (significand_le Hx) as Hsx.
  unfold roundPositive.
  set (ex := exponent x) in *. set (ey := exponent y) in *.
  pose proof (pow2_pos ex) as Hex. pose proof (pow2_pos ey) as Hey.
  assert (H53 : pow2 53 == 2 * pow2 52) by reflexivity.
  assert (H52 : 0 < pow2 52) by apply pow2_pos.
  destruct (Z.lt_trichotomy ex ey) as [Hlt | [Heq | Hgt]].
  - destruct Hylo as [Hylo | Hylo]; [|lia].
    pose proof (@significand_ge y Hylo) as Hsy. fold ey in Hsy.
    apply Qle_trans with (pow2 53 * pow2 ex).
    + apply Qmult_le_compat_r; [|now apply Qlt_le_weak].
      rewrite <- (@pow2_inject 53) by lia. now rewrite <- Zle_Qle.
    + apply Qle_trans with (pow2 52 * pow2 ey).
      * rewrite H53.
        setoid_replace (2 * pow2 52 * pow2 ex) with (pow2 52 * (2 * pow2 ex))
          by ring.
        apply Qmult_le_l; [exact H52|]. rewrite <- pow2_succ.
        apply pow2_le. lia.
      * apply Qmult_le_compat_r; [|now apply Qlt_le_weak].
        rewrite <- (@pow2_inject 52) by lia. now rewrite <- Zle_Qle.
  - rewrite <- Heq.
    apply Qmult_le_compat_r; [|now apply Qlt_le_weak].
    rewrite <- Zle_Qle. apply nearestEven_mono.
    apply Qmult_le_compat_r; [exact Hxy|].
    apply Qlt_le_weak, Qinv_lt_0_compat, Hex.
  - exfalso. destruct Hxlo as [Hxlo | Hxlo]; [|lia].
    assert (Hc : pow2 53 * pow2 ey <= pow2 52 * pow2 ex).
    { rewrite H53.
      setoid_replace (2 * pow2 52 * pow2 ey) with (pow2 52 * (2 * pow2 ey))
        by ring.
      apply Qmult_le_l; [exact H52|]. rewrite <- pow2_succ.
      apply pow2_le. lia. }
    lra.
Qed.

Lemma sign_cases x :
  (Qnum x = 0%Z /\ x == 0)
  \/ (exists n, Qnum x = Zpos n /\ 0 < x)
  \/ (exists n, Qnum x = Zneg n /\ x < 0).
Proof.
  destruct x as [[|n|n] d].
  - left. split; reflexivity.
  - right. left. exists n. split; reflexivity.
  - right. right. exists n. split; reflexivity.
Qed.

Lemma round_pos x : 0 < x -> round x = roundPositive x.
Proof.
  intros H. destruct (positive_num H) as [n Hn]. unfold round. now rewrite Hn.
Qed.

Lemma round_neg x : x < 0 -> round x = - roundPositive (- x).
Proof.
  destruct x as [[|n|n] d]; intros H; try reflexivity;
    exfalso; revert H; unfold Qlt; simpl; lia.
Qed.

Lemma round_zero x : x == 0 -> round x = 0.
Proof.
  destruct x as [[|n|n] d]; intros H; try reflexivity;
    exfalso; revert H; unfold Qeq; simpl; lia.
Qed.

Lemma round_error x :
  Qabs (round x - x) <= unitRoundoff * Qabs x + eta.
Proof.
  destruct (sign_cases x) as [[_ H] | [[n [_ H]] | [n [_ H]]]].
  - rewrite (round_zero H), H. vm_compute. discriminate.
  - rewrite (round_pos H), (Qabs_pos x) by lra. now apply roundPositive_error.
  - rewrite (round_neg H), (Qabs_neg x) by lra.
    assert (Hn : 0 < - x) by lra.
    pose proof (roundPositive_error Hn) as He.
    setoid_replace (- roundPositive (- x) - x)
      with (- (roundPositive (- x) - - x)) by ring.
    now rewrite Qabs_opp.
Qed.

Lemma round_mono x y : x <= y -> round x <= round y.
Proof.
  intros Hxy.
  destruct (sign_cases x) as [[_ Hx] | [[n [_ Hx]] | [n [_ Hx]]]];
  destruct (sign_cases y) as [[_ Hy] | [[k [_ Hy]] | [k [_ Hy]]]];
    try (exfalso; lra).
  - rewrite (round_zero Hx), (round_zero Hy). apply Qle_refl.
  - rewrite (round_zero Hx), (round_pos Hy). now apply roundPositive_nonneg.
  - rewrite (round_pos Hx), (round_pos Hy). now apply roundPositive_mono.
  - rewrite (round_neg Hx), (round_zero Hy).
    assert (Hn : 0 < - x) by lra.
    pose proof (roundPositive_nonneg Hn). lra.
  - rewrite (round_neg Hx), (round_pos Hy).
    assert (Hn : 0 < - x) by lra.
    pose proof (roundPositive_nonneg Hn). pose proof (roundPositive_nonneg Hy).
    lra.
  - rewrite (round_neg Hx), (round_neg Hy).
    assert (Hn : 0 < - y) by lra. assert (Hle : - y <= - x) by lra.
    pose proof (roundPositive_mono Hn Hle). lra.
Qed.

Lemma round_comp x y : x == y -> round x == round y.
Proof.
  intros H. apply Qle_antisym; apply round_mono; rewrite H; apply Qle_refl.
Qed.

End Binary64Facts.

(** *** Error analysis of the handlers' arithmetic *)

Module RoundingFacts.
Import Binary64 Binary64Facts.
Local Open Scope Q_scope.

Lemma unitRoundoff_bounds : 0 < unitRoundoff /\ unitRoundoff <= 1 # 1000000.
Proof. split; [apply pow2_pos | apply Qle_bool_iff; vm_compute; reflexivity]. Qed.

Lemma eta_bounds : 0 < eta /\ eta <= (1 # 1000) * unitRoundoff.
Proof. split; [apply pow2_pos | apply Qle_bool_iff; vm_compute; reflexivity]. Qed.

(** The error of one rounding, from a bound on the exact result. *)
Lemma round_within z b :
  Qabs z <= b ->
  - (unitRoundoff * b + eta) <= round z - z
  /\ round z - z <= unitRoundoff * b + eta.
Proof.
  intros Hz. apply Qabs_Qle_condition.
  eapply Qle_trans; [apply round_error|].
  destruct unitRoundoff_bounds as [Hu _].
  apply Qplus_le_l. apply Qmult_le_l; assumption.
Qed.

Lemma Qabs_bounds a b : Qabs a <= b <-> - b <= a /\ a <= b.
Proof. apply Qabs_Qle_condition. Qed.

Lemma product_within a b alpha beta :
  - alpha <= a /\ a <= alpha -> - beta <= b /\ b <= beta ->
  - (alpha * beta) <= a * b /\ a * b <= alpha * beta.
Proof.
  intros Ha Hb. apply Qabs_bounds in Ha. apply Qabs_bounds in Hb.
  apply Qabs_bounds. rewrite Qabs_Qmult.
  pose proof (Qabs_nonneg a). pose proof (Qabs_nonneg b).
  assert (0 <= alpha) by (apply Qle_trans with (Qabs a); assumption).
  apply Qle_trans with (alpha * Qabs b).
  - apply Qmult_le_compat_r; assumption.
  - rewrite !(Qmult_comm alpha). apply Qmult_le_compat_r; assumption.
Qed.

End RoundingFacts.

Module ZoomAnalysis.
Import Binary64 Binary64Facts RoundingFacts.
Local Open Scope Q_scope.

Lemma anchored_translate_error (c x s s' W : Q) :
  Qabs c <= W -> Qabs x <= W -> 1 <= W -> 0 < s ->
  5 * s <= 6 * s' -> 5 * s' <= 6 * s ->
  let x' := add x (mul (sub (round c) x) (sub 1 (div s' s))) in
  Qabs (x' - (x + (c - x) * (1 - s' / s))) <= 6 * (unitRoundoff * W)
  /\ Qabs x' <= (3 # 2) * W.
Proof.
  intros Hc Hx HW Hs Hr1 Hr2. unfold add, mul, sub, div.
  destruct unitRoundoff_bounds as [Hu0 Hu1], eta_bounds as [He0 He1].
  set (u := unitRoundoff) in *. set (V := u * W).
  assert (HuV : u <= V).
  { unfold V. rewrite <- (Qmult_1_r u) at 1.
    apply Qmult_le_l; assumption. }
  assert (HVW : V <= (1 # 1000000) * W).
  { unfold V. apply Qmult_le_compat_r; [exact Hu1 | lra]. }
  assert (HeW : eta * W <= (1 # 1000) * V).
  { unfold V. rewrite Qmult_assoc.
    apply Qmult_le_compat_r; [exact He1 | lra]. }
  apply Qabs_bounds in Hc. apply Qabs_bounds in Hx.
  set (rho := s' / s).
  assert (Hrho : 5 # 6 <= rho /\ rho <= 6 # 5).
  { unfold rho. split.
    - apply Qle_shift_div_l; [exact Hs | lra].
    - apply Qle_shift_div_r; [exact Hs | lra]. }
  (* mouseX *)
  set (m := round c).
  assert (E0 := @round_within c W (proj2 (Qabs_bounds _ _) Hc)).
  fold m u V in E0.
  (* mouseX - x *)
  set (A := m - x).
  assert (HA : - ((21 # 10) * W) <= A /\ A <= (21 # 10) * W)
    by (unfold A; split; lra).
  set (t1 := round A).
  assert (E1 := @round_within A _ (proj2 (Qabs_bounds _ _) HA)).
  fold t1 u in E1.
  setoid_replace (u * ((21 # 10) * W)) with ((21 # 10) * V) in E1
    by (unfold V; ring).
  (* clampedScale / oldScale *)
  set (r := round rho).
  assert (Hrho' : - (6 # 5) <= rho /\ rho <= 6 # 5) by (split; lra).
  assert (E2 := @round_within rho _ (proj2 (Qabs_bounds _ _) Hrho')).
  fold r u in E2.
  (* 1 - ratio *)
  set (B := 1 - r).
  assert (HB : - (21 # 100) <= B /\ B <= 21 # 100)
    by (unfold B; split; lra).
  set (t2 := round B).
  assert (E3 := @round_within B _ (proj2 (Qabs_bounds _ _) HB)).
  fold t2 u in E3.
  (* dx *)
  assert (Ht1 : - ((22 # 10) * W) <= t1 /\ t1 <= (22 # 10) * W)
    by (split; lra).
  assert (Ht2 : - (22 # 100) <= t2 /\ t2 <= 22 # 100) by (split; lra).
  pose proof (product_within Ht1 Ht2) as HC.
  set (C := t1 * t2) in *.
  assert (HC' : - ((484 # 1000) * W) <= C /\ C <= (484 # 1000) * W)
    by (split; lra).
  set (dx := round C).
  assert (E4 := @round_within C _ (proj2 (Qabs_bounds _ _) HC')).
  fold dx u in E4.
  setoid_replace (u * ((484 # 1000) * W)) with ((484 # 1000) * V) in E4
    by (unfold V; ring).
  (* x + dx *)
  set (D := x + dx).
  assert (HD : - ((3 # 2) * W) <= D /\ D <= (3 # 2) * W)
    by (unfold D; split; lra).
  set (x' := round D).
  assert (E5 := @round_within D _ (proj2 (Qabs_bounds _ _) HD)).
  fold x' u in E5.
  setoid_replace (u * ((3 # 2) * W)) with ((3 # 2) * V) in E5
    by (unfold V; ring).
  (* the two products of an error by a bounded factor *)
  assert (Hd1 : - ((31 # 10) * V + 2 * eta) <= t1 - (c - x)
                /\ t1 - (c - x) <= (31 # 10) * V + 2 * eta)
    by (unfold A in *; split; lra).
  pose proof (product_within Hd1 Ht2) as HP1.
  set (P1 := (t1 - (c - x)) * t2) in *.
  assert (Hcx : - (2 * W) <= c - x /\ c - x <= 2 * W) by (split; lra).
  assert (Hd2 : - ((141 # 100) * u + 2 * eta) <= t2 - (1 - rho)
                /\ t2 - (1 - rho) <= (141 # 100) * u + 2 * eta)
    by (unfold B in *; split; lra).
  pose proof (product_within Hcx Hd2) as HP2.
  set (P2 := (c - x) * (t2 - (1 - rho))) in *.
  setoid_replace (2 * W * ((141 # 100) * u + 2 * eta))
    with ((282 # 100) * V + 4 * (eta * W)) in HP2 by (unfold V; ring).
  set (EW := eta * W) in *.
  assert (Hid : x' - (x + (c - x) * (1 - rho))
                == (x' - D) + (dx - C) + P1 + P2)
    by (unfold D, C, P1, P2; ring).
  assert (HD' : - ((149 # 100) * W) <= D /\ D <= (149 # 100) * W)
    by (unfold D; split; lra).
  split.
  - apply Qabs_bounds. rewrite Hid. fold V. split; lra.
  - apply Qabs_bounds. split; lra.
Qed.

End ZoomAnalysis.

(** ** Viewport controller *)

Module ViewportFacts.

Import Viewport.
Local Open Scope Q_scope.

Lemma clampScale_inRange q : inRange (clampScale q).
Proof.
  unfold inRange, clampScale. split.
  - apply Q.min_glb; [apply Q.le_max_l | discriminate].
  - apply Q.le_min_r.
Qed.

Lemma clampScale_pos q : 0 < clampScale q.
Proof.
  destruct (clampScale_inRange q) as [H _].
  eapply Qlt_le_trans; [|exact H]. reflexivity.
Qed.

Lemma handleWheel_scale e t :
  scale (fst (handleWheel e t)) = scale t
  \/ scale (fst (handleWheel e t)) = targetScale e t.
Proof.
  unfold handleWheel, targetScale.
  destruct (Qeq_bool _ _); simpl; auto.
Qed.

Lemma handleWheel_inRange e t :
  inRange (scale t) -> inRange (scale (fst (handleWheel e t))).
Proof.
  intros H. destruct (handleWheel_scale e t) as [-> | ->];
    [exact H | apply clampScale_inRange].
Qed.

Lemma step_inRange m i :
  inRange (scale (transformRef m)) ->
  inRange (scale (transformRef (step m i))).
Proof.
  intros H. destruct i; simpl; try exact H.
  - unfold throttle. destruct (wheelInThrottle m); simpl; [exact H|].
    unfold wheelBody.
    pose proof (handleWheel_inRange e _ H) as Hw.
    destruct (handleWheel e (transformRef m)); exact Hw.
  - unfold handleMouseDown. destruct (negb _); exact H.
  - destruct (moveListening m); [|exact H].
    unfold throttle. destruct (moveInThrottle m); simpl; exact H.
  - unfold animationFrame. destruct (framePending m); exact H.
  - unfold inRange, MIN_SCALE, MAX_SCALE. split; discriminate.
Qed.

End ViewportFacts.

Module ScaleFacts.
Import Binary64 Binary64Facts RoundingFacts Viewport Viewport64.
Local Open Scope Q_scope.

Lemma scaleRatio_bounds : 11 # 10 <= scaleRatio /\ scaleRatio <= 1101 # 1000.
Proof. split; apply Qle_bool_iff; vm_compute; reflexivity. Qed.

Lemma MIN_SCALE_bounds : 1 # 5 <= MIN_SCALE /\ MIN_SCALE <= 201 # 1000.
Proof. split; apply Qle_bool_iff; vm_compute; reflexivity. Qed.

Lemma clampedScale_inRange q : inRange (clampScale q).
Proof.
  unfold inRange, clampScale. split.
  - apply Q.min_glb; [apply Q.le_max_l|].
    apply Qle_bool_iff. vm_compute. reflexivity.
  - apply Q.le_min_r.
Qed.

(** The clamp moves a value towards any admissible scale, never away. *)
Lemma clampScale_between q s lo hi :
  inRange s -> lo <= s -> s <= hi -> lo <= q -> q <= hi ->
  lo <= clampScale q /\ clampScale q <= hi.
Proof.
  intros [Hs1 Hs2] Hlo Hhi Hq1 Hq2. unfold clampScale.
  destruct MIN_SCALE_bounds as [_ Hm]. unfold MAX_SCALE in *.
  destruct (Q.max_spec MIN_SCALE q) as [[O1 E1] | [O1 E1]];
  destruct (Q.min_spec (Qmax MIN_SCALE q) 10) as [[O2 E2] | [O2 E2]];
    rewrite E2, ?E1; rewrite ?E1 in O2; split; lra.
Qed.

Lemma zoomIn_ratio s :
  inRange s ->
  s <= mul s scaleRatio /\ mul s scaleRatio <= (6 # 5) * s.
Proof.
  intros [Hs1 Hs2].
  destruct scaleRatio_bounds as [Hk1 Hk2], MIN_SCALE_bounds as [Hm1 _].
  destruct unitRoundoff_bounds as [Hu0 Hu1], eta_bounds as [He0 He1].
  unfold MAX_SCALE in Hs2.
  assert (Hs0 : 0 <= s) by lra.
  assert (Hp1 : (11 # 10) * s <= s * scaleRatio).
  { rewrite (Qmult_comm s). apply Qmult_le_compat_r; assumption. }
  assert (Hp2 : s * scaleRatio <= (1101 # 1000) * s).
  { rewrite (Qmult_comm s). apply Qmult_le_compat_r; assumption. }
  set (p := s * scaleRatio) in *.
  assert (Hp : - (12 # 1) <= p /\ p <= 12 # 1) by (split; lra).
  pose proof (@round_within p _ (proj2 (Qabs_bounds _ _) Hp)) as E.
  unfold mul. fold p. set (u := unitRoundoff) in *. split; lra.
Qed.

Lemma zoomOut_ratio s :
  inRange s ->
  (5 # 6) * s <= div s scaleRatio /\ div s scaleRatio <= s.
Proof.
  intros [Hs1 Hs2].
  destruct scaleRatio_bounds as [Hk1 Hk2], MIN_SCALE_bounds as [Hm1 _].
  destruct unitRoundoff_bounds as [Hu0 Hu1], eta_bounds as [He0 He1].
  unfold MAX_SCALE in Hs2.
  assert (Hk0 : 0 < scaleRatio) by lra.
  set (q := s / scaleRatio).
  assert (Hq : q * scaleRatio == s) by (unfold q; field; lra).
  assert (Hq0 : 0 <= q).
  { unfold q. apply Qle_shift_div_l; [exact Hk0 | lra]. }
  assert (Hq1 : (11 # 10) * q <= s).
  { rewrite <- Hq, (Qmult_comm q). apply Qmult_le_compat_r; assumption. }
  assert (Hq2 : s <= (1101 # 1000) * q).
  { rewrite <- Hq, (Qmult_comm q). apply Qmult_le_compat_r; assumption. }
  assert (Hb : - (10 # 1) <= q /\ q <= 10 # 1) by (split; lra).
  pose proof (@round_within q _ (proj2 (Qabs_bounds _ _) Hb)) as E.
  unfold div. fold q. set (u := unitRoundoff) in *. split; lra.
Qed.

Lemma targetScale_ratio e t :
  inRange (scale t) ->
  inRange (targetScale e t)
  /\ 5 * scale t <= 6 * targetScale e t
  /\ 5 * targetScale e t <= 6 * scale t.
Proof.
  intros Hs. split; [apply clampedScale_inRange|].
  unfold targetScale.
  destruct (Qlt_bool (deltaY e) 0).
  - destruct (zoomIn_ratio Hs) as [H1 H2].
    assert (Hs' : scale t <= (6 # 5) * scale t) by (destruct Hs; destruct MIN_SCALE_bounds; lra).
    destruct (@clampScale_between _ (scale t) (scale t) ((6 # 5) * scale t)
                Hs (Qle_refl _) Hs' H1 H2) as [Ha Hb].
    split; lra.
  - destruct (zoomOut_ratio Hs) as [H1 H2].
    assert (Hs' : (5 # 6) * scale t <= scale t) by (destruct Hs; destruct MIN_SCALE_bounds; lra).
    destruct (@clampScale_between _ (scale t) ((5 # 6) * scale t) (scale t)
                Hs Hs' (Qle_refl _) H1 H2) as [Ha Hb].
    split; lra.
Qed.

End ScaleFacts.

Module WheelFacts.
Import Binary64 Binary64Facts RoundingFacts Viewport.
Local Open Scope Q_scope.

Lemma handleWheel_unfold e t :
  Viewport64.handleWheel e t
  = if Qeq_bool (Viewport64.targetScale e t) (scale t) then (t, false)
    else
      ({| scale := Viewport64.targetScale e t;
          x := add (x t)
                 (mul (sub (sub (wheelClientX e) (rectLeft e)) (x t))
                      (sub 1 (div (Viewport64.targetScale e t) (scale t))));
          y := add (y t)
                 (mul (sub (sub (wheelClientY e) (rectTop e)) (y t))
                      (sub 1 (div (Viewport64.targetScale e t) (scale t))))
       |}, true).
Proof. reflexivity. Qed.

(** The diagram point under a cursor after a change of scale and
    translate, against the point before: the difference is the error of
    the translate divided by the new scale. *)
Lemma modelPoint_shift (c s s' x0 x1 : Q) :
  0 < s -> 0 < s' ->
  (c - x1) / s' - (c - x0) / s
  == (x0 + (c - x0) * (1 - s' / s) - x1) / s'.
Proof. intros Hs Hs'. field. split; lra. Qed.

Lemma divide_by_scale (d s tol : Q) :
  Viewport64.MIN_SCALE <= s -> Qabs d <= tol ->
  Qabs (d / s) <= 5 * tol.
Proof.
  intros Hs Hd. destruct ScaleFacts.MIN_SCALE_bounds as [Hm _].
  assert (Hs0 : 0 < s) by lra.
  assert (Ht : 0 <= tol) by (eapply Qle_trans; [apply Qabs_nonneg | exact Hd]).
  unfold Qdiv. rewrite Qabs_Qmult, Qabs_Qinv, (Qabs_pos s) by lra.
  apply Qle_shift_div_r; [exact Hs0|].
  apply Qle_trans with tol; [exact Hd|].
  apply Qle_trans with ((1 # 5) * (5 * tol)); [lra|].
  rewrite (Qmult_comm (5 * tol) s).
  apply Qmult_le_compat_r; lra.
Qed.

Lemma one_axis (clientX left x0 s s' W : Q) :
  Viewport64.inRange s -> Viewport64.inRange s' ->
  5 * s <= 6 * s' -> 5 * s' <= 6 * s ->
  Qabs (clientX - left) <= W -> Qabs x0 <= W -> 1 <= W ->
  let c := clientX - left in
  let x1 := add x0 (mul (sub (sub clientX left) x0) (sub 1 (div s' s))) in
  Qabs (x1 - (x0 + (c - x0) * (1 - s' / s))) <= 6 * (unitRoundoff * W)
  /\ Qabs ((c - x1) / s' - (c - x0) / s) <= 5 * (6 * (unitRoundoff * W))
  /\ Qabs x1 <= (3 # 2) * W.
Proof.
  intros Hs Hs' Hr1 Hr2 Hc Hx HW c x1.
  destruct ScaleFacts.MIN_SCALE_bounds as [Hm _].
  assert (Hs0 : 0 < s) by (destruct Hs; lra).
  assert (Hs0' : 0 < s') by (destruct Hs'; lra).
  destruct (@ZoomAnalysis.anchored_translate_error c x0 s s' W
              Hc Hx HW Hs0 Hr1 Hr2) as [He Hb].
  change (add x0 (mul (sub (round c) x0) (sub 1 (div s' s)))) with x1 in *.
  split; [exact He|]. split; [|exact Hb].
  rewrite (modelPoint_shift c x0 x1 Hs0 Hs0').
  apply divide_by_scale; [apply Hs'|].
  rewrite Qabs_Qminus. exact He.
Qed.


(** The admissible range is kept by every wheel step in binary64
    arithmetic too, so a scale in the range is what the handler always
    finds once the modal is open. *)
Lemma wheel_step_inRange e t :
  Viewport64.inRange (scale t) ->
  Viewport64.inRange (scale (fst (Viewport64.handleWheel e t))).
Proof.
  intros H. rewrite handleWheel_unfold.
  destruct (Qeq_bool (Viewport64.targetScale e t) (scale t)); cbn [fst scale];
    [exact H | apply ScaleFacts.clampedScale_inRange].
Qed.

Lemma wheels_inRange (wheels : list WheelInput) : forall t,
  Viewport64.inRange (scale t) ->
  Viewport64.inRange
    (scale (fold_left (fun t e => fst (Viewport64.handleWheel e t))
              wheels t)).
Proof.
  induction wheels as [|e es IH]; intros t H; cbn [fold_left]; [exact H|].
  apply IH. now apply wheel_step_inRange.
Qed.

Lemma identity_inRange : Viewport64.inRange (scale identity).
Proof. split; apply Qle_bool_iff; vm_compute; reflexivity. Qed.

End WheelFacts.

(** The handlers on the inputs of the examples, in doubles: one tick at
    (120, 80) gives scale 1.1 and translate (-10.000000000000009,
    -5.000000000000004), written here as the exact values of these
    doubles; zooming out again leaves the scale at 1 but the translate at
    (-2^-48, -2^-49), not at 0. *)
Example handleWheel_example :
  let t1 := fst (Viewport64.handleWheel Examples.zoomIn Viewport.identity) in
  let t2 := fst (Viewport64.handleWheel Cases.zoomOut t1) in
  (Viewport.scale t1 == 2476979795053773 # 2251799813685248
   /\ Viewport.x t1 == - (5629499534213125 # 562949953421312)
   /\ Viewport.y t1 == - (5629499534213125 # 1125899906842624)
   /\ Viewport.scale t2 == 1
   /\ Viewport.x t2 == - (1 # 281474976710656)
   /\ Viewport.y t2 == - (1 # 562949953421312))%Q.
Proof. repeat split; apply Qeq_bool_iff; vm_compute; reflexivity. Qed.

(** [930 - 400 <= 479.99999999999994 + 50] holds in doubles (the sum
    rounds to 530) although it fails for the exact sum. *)
Example isAtBottom_example :
  ChatHistory.isAtBottom
    {| ChatHistory.scrollHeight := 930; ChatHistory.clientHeight := 400;
       ChatHistory.scrollTop := 8444249301319679 # 17592186044416 |} = true
  /\ ~ (930 - 400 <= (8444249301319679 # 17592186044416) + 50)%Q.
Proof.
  split; [vm_compute; reflexivity|].
  intros H. apply Qle_bool_iff in H. vm_compute in H. discriminate.
Qed.

(** C5.  One wheel step in binary64 arithmetic, from a scale in the
    admissible range and with cursor and translate of magnitude at most
    [W] (between 1 and [2^1000], where no operation of the handler
    overflows).  If the clamped target scale equals the current scale the
    transform is returned unchanged and no frame is requested.  Otherwise
    the scale becomes the clamped target and each translate component
    becomes old + (cursor - old) * (1 - new/old), the cursor taken relative
    to the viewport and every operation rounded.  In both cases each new
    translate component is within [6 * 2^-53 * W] of the exact value of
    that formula, and the diagram point under the cursor after the step is
    within [30 * 2^-53 * W] of the point under it before the step. *)
Theorem cursor_anchored_zoom_step
    (e : Viewport.WheelInput) (t : Viewport.Transform) (W : Q) :
  Viewport64.inRange (Viewport.scale t) ->
  let cursorX := (Viewport.wheelClientX e - Viewport.rectLeft e)%Q in
  let cursorY := (Viewport.wheelClientY e - Viewport.rectTop e)%Q in
  (Qabs cursorX <= W)%Q -> (Qabs cursorY <= W)%Q ->
  (Qabs (Viewport.x t) <= W)%Q -> (Qabs (Viewport.y t) <= W)%Q ->
  (1 <= W)%Q -> (W <= Binary64.pow2 1000)%Q ->
  let oldScale := Viewport.scale t in
  let newScale := Viewport64.targetScale e t in
  let t' := fst (Viewport64.handleWheel e t) in
  let tolerance := (6 * (Binary64.unitRoundoff * W))%Q in
  (Qeq_bool newScale oldScale = true ->
     Viewport64.handleWheel e t = (t, false))
  /\ (Qeq_bool newScale oldScale = false ->
        Viewport.scale t' = newScale
        /\ Viewport.x t'
           = Binary64.add (Viewport.x t)
               (Binary64.mul
                  (Binary64.sub
                     (Binary64.sub (Viewport.wheelClientX e)
                        (Viewport.rectLeft e))
                     (Viewport.x t))
                  (Binary64.sub 1 (Binary64.div newScale oldScale)))
        /\ Viewport.y t'
           = Binary64.add (Viewport.y t)
               (Binary64.mul
                  (Binary64.sub
                     (Binary64.sub (Viewport.wheelClientY e)
                        (Viewport.rectTop e))
                     (Viewport.y t))
                  (Binary64.sub 1 (Binary64.div newScale oldScale))))
  /\ (Qabs (Viewport.x t'
            - (Viewport.x t
               + (cursorX - Viewport.x t) * (1 - newScale / oldScale)))
      <= tolerance)%Q
  /\ (Qabs (Viewport.y t'
            - (Viewport.y t
               + (cursorY - Viewport.y t) * (1 - newScale / oldScale)))
      <= tolerance)%Q
  /\ (Qabs (Viewport.modelPointX t' cursorX - Viewport.modelPointX t cursorX)
      <= 5 * tolerance)%Q
  /\ (Qabs (Viewport.modelPointY t' cursorY - Viewport.modelPointY t cursorY)
      <= 5 * tolerance)%Q.
Proof.
  intros Hs cursorX cursorY HcX HcY HxW HyW HW _ oldScale newScale t' tolerance.
  destruct (@ScaleFacts.targetScale_ratio e t Hs) as [Hs' [Hr1 Hr2]].
  fold newScale oldScale in Hs', Hr1, Hr2. fold oldScale in Hs.
  destruct ScaleFacts.MIN_SCALE_bounds as [Hm _].
  assert (Hs0 : (0 < oldScale)%Q) by (destruct Hs; lra).
  assert (Ht0 : (0 <= tolerance)%Q).
  { unfold tolerance. destruct RoundingFacts.unitRoundoff_bounds as [Hu _].
    assert (0 <= Binary64.unitRoundoff * W)%Q
      by (apply Qmult_le_0_compat; lra). lra. }
  unfold t'. rewrite WheelFacts.handleWheel_unfold. fold newScale oldScale.
  destruct (Qeq_bool newScale oldScale) eqn:E; cbn [fst].
  - apply Qeq_bool_iff in E.
    assert (Hone : (1 - newScale / oldScale == 0)%Q).
    { rewrite E. field. lra. }
    split; [reflexivity|]. split; [discriminate|].
    assert (Hz : forall a b : Q,
              (Qabs (a - (a + b * (1 - newScale / oldScale)))
               <= tolerance)%Q).
    { intros a b. rewrite Hone.
      setoid_replace (a - (a + b * 0))%Q with 0%Q by ring. exact Ht0. }
    assert (Hp : forall a : Q, (Qabs (a - a) <= 5 * tolerance)%Q).
    { intros a. setoid_replace (a - a)%Q with 0%Q by ring.
      change (Qabs 0) with 0%Q. lra. }
    repeat split; [apply Hz | apply Hz | apply Hp | apply Hp].
  - destruct (@WheelFacts.one_axis
                (Viewport.wheelClientX e) (Viewport.rectLeft e)
                (Viewport.x t) oldScale newScale W
                Hs Hs' Hr1 Hr2 HcX HxW HW) as [Hx1 [Hx2 _]].
    destruct (@WheelFacts.one_axis
                (Viewport.wheelClientY e) (Viewport.rectTop e)
                (Viewport.y t) oldScale newScale W
                Hs Hs' Hr1 Hr2 HcY HyW HW) as [Hy1 [Hy2 _]].
    split; [discriminate|]. split; [intros _; repeat split|].
    cbn [Viewport.scale Viewport.x Viewport.y].
    unfold Viewport.modelPointX, Viewport.modelPointY.
    cbn [Viewport.scale Viewport.x Viewport.y].
    repeat split; assumption.
Qed.

(** C6.  Starting from a scale in [0.2, 10], any sequence of wheel steps
    leaves the scale in [0.2, 10]; the same holds for any sequence of inputs
    of the open modal (throttled wheel and pointer events, timers, frames,
    reset). *)
Theorem zoom_scale_stays_in_range
    (t : Viewport.Transform) (wheels : list Viewport.WheelInput)
    (m : Viewport.Modal) (inputs : list Viewport.Input) :
  (0.2 <= Viewport.scale t /\ Viewport.scale t <= 10)%Q ->
  (0.2 <= Viewport.scale (Viewport.transformRef m)
   /\ Viewport.scale (Viewport.transformRef m) <= 10)%Q ->
  let t' := fold_left (fun t e => fst (Viewport.handleWheel e t)) wheels t in
  let m' := Viewport.run m inputs in
  (0.2 <= Viewport.scale t' /\ Viewport.scale t' <= 10)%Q
  /\ (0.2 <= Viewport.scale (Viewport.transformRef m')
      /\ Viewport.scale (Viewport.transformRef m') <= 10)%Q.
Proof.
  intros Ht Hm. split.
  - revert t Ht. induction wheels as [|e es IH]; intros t Ht; simpl.
    + exact Ht.
    + apply IH. now apply ViewportFacts.handleWheel_inRange.
  - unfold Viewport.run. revert m Hm.
    induction inputs as [|i rest IH]; intros m Hm; simpl.
    + exact Hm.
    + apply IH. now apply ViewportFacts.step_inRange.
Qed.

Module ThrottleFacts.

Import Viewport.

Lemma run_accepted inputs : forall m u,
  forgetThrottle m = forgetThrottle u ->
  forgetThrottle (run m inputs)
  = forgetThrottle (run_unthrottled u (acceptedFrom m inputs)).
Proof.
  unfold run, run_unthrottled, acceptedFrom.
  induction inputs as [|i rest IH]; intros m u H; [exact H|].
  destruct m as [tr st wf mf dr ml fp], u as [tr' st' wf' mf' dr' ml' fp'].
  unfold forgetThrottle, setWheelInThrottle, setMoveInThrottle in H.
  simpl in H. injection H as <- <- <- <- <-.
  destruct i; simpl.
  - (* wheel *)
    destruct wf; simpl.
    + apply (IH (mkModal tr st true mf dr ml fp)). reflexivity.
    + unfold wheelBody; simpl. destruct (handleWheel e tr) as [t' rq].
      apply (IH (mkModal t' st true mf dr ml (fp || rq))). reflexivity.
  - (* mouse down *)
    unfold handleMouseDown; simpl. destruct (button =? 0)%Z; simpl;
      apply (IH (mkModal _ _ _ _ _ _ _)); reflexivity.
  - (* mouse move *)
    destruct ml; simpl.
    + destruct mf; simpl.
      * apply (IH (mkModal tr st wf true dr true fp)). reflexivity.
      * apply (IH (mkModal _ _ _ _ _ _ _)). reflexivity.
    + rewrite orb_false_r.
      apply (IH (mkModal tr st wf mf dr false fp)). reflexivity.
  - apply (IH (mkModal _ _ _ _ _ _ _)). reflexivity.
  - apply (IH (mkModal tr st false mf dr ml fp)). reflexivity.
  - apply (IH (mkModal tr st wf false dr ml fp)). reflexivity.
  - unfold animationFrame; simpl. destruct fp;
      apply (IH (mkModal _ _ _ _ _ _ _)); reflexivity.
  - apply (IH (mkModal _ _ _ _ _ _ _)). reflexivity.
Qed.

Lemma step_displayedIsCurrent m i :
  displayedIsCurrent m -> displayedIsCurrent (step m i).
Proof.
  unfold displayedIsCurrent.
  destruct m as [tr st wf mf dr ml fp]. destruct i; simpl; auto.
  - destruct wf; simpl; auto.
    unfold wheelBody, handleWheel; simpl.
    destruct (Qeq_bool _ _); simpl.
    * rewrite orb_false_r. auto.
    * rewrite orb_true_r. discriminate.
  - unfold handleMouseDown; simpl. destruct (negb _); simpl; auto.
  - destruct ml; simpl; auto. destruct mf; simpl; auto. discriminate.
  - unfold animationFrame; simpl. destruct fp; simpl; auto.
Qed.

Lemma run_displayedIsCurrent inputs : forall m,
  displayedIsCurrent m -> displayedIsCurrent (run m inputs).
Proof.
  unfold run. induction inputs as [|i rest IH]; intros m H; simpl; auto.
  apply IH. now apply step_displayedIsCurrent.
Qed.

End ThrottleFacts.

(** C8, as stated, fails: for two wheel ticks that arrive before the 16 ms
    timer fires, the throttled listeners display scale 1.1 while unthrottled
    processing of the same events displays scale 1.21; the second tick is
    dropped. *)
Lemma throttle_drops_last_event :
  Viewport.styleTransform (Viewport.run Viewport.opened Examples.burst)
  = {| Viewport.scale := 1 * 1.1; Viewport.x := 0 + (0 - 0 - 0) * (1 - 1 * 1.1 / 1);
       Viewport.y := 0 + (0 - 0 - 0) * (1 - 1 * 1.1 / 1) |}
  /\ ~ (Viewport.scale
          (Viewport.styleTransform
             (Viewport.run Viewport.opened Examples.burst))
        == Viewport.scale
             (Viewport.styleTransform
                (Viewport.run_unthrottled Viewport.opened Examples.burst)))%Q.
Proof.
  split; [reflexivity|]. vm_compute. discriminate.
Qed.

(** C8, amended.  The throttled listeners behave exactly like unthrottled
    listeners fed only the accepted inputs (a wheel or pointer-move event
    that arrives while its throttle flag is set is dropped, the last one
    included); and once the next animation frame has run, the displayed
    transform is the most recently computed one. *)
Theorem throttled_run_refines_accepted_inputs
    (m : Viewport.Modal) (inputs : list Viewport.Input) :
  (Viewport.framePending m = false ->
   Viewport.styleTransform m = Viewport.transformRef m) ->
  let u := Viewport.run_unthrottled m (Viewport.acceptedFrom m inputs) in
  Viewport.transformRef (Viewport.run m inputs) = Viewport.transformRef u
  /\ Viewport.styleTransform (Viewport.run m inputs) = Viewport.styleTransform u
  /\ Viewport.styleTransform
       (Viewport.run m (inputs ++ [Viewport.AnimationFrame]))
     = Viewport.transformRef
         (Viewport.run m (inputs ++ [Viewport.AnimationFrame])).
Proof.
  intros Hinv u.
  pose proof (@ThrottleFacts.run_accepted inputs m m eq_refl) as H.
  fold u in H.
  split; [|split].
  - apply (f_equal Viewport.transformRef) in H. exact H.
  - apply (f_equal Viewport.styleTransform) in H. exact H.
  - pose proof (ThrottleFacts.run_displayedIsCurrent
                  (inputs ++ [Viewport.AnimationFrame]) Hinv) as Hd.
    apply Hd. unfold Viewport.run. rewrite fold_left_app. simpl.
    unfold Viewport.animationFrame.
    destruct (Viewport.framePending (fold_left Viewport.step inputs m)) eqn:E;
      [reflexivity | exact E].
Qed.

(** ** Autoscroll policy *)

Module ScrollFacts.

Import App ChatHistory.
Local Open Scope Q_scope.

Lemma lastIsUser_snoc prev m :
  lastIsUser (prev ++ [m])
  = match role m with USER => true | MODEL => false end.
Proof. unfold lastIsUser. now rewrite rev_app_distr. Qed.

End ScrollFacts.

(** C7, as stated, fails in its last part: after the user has scrolled up
    (intent cleared, affordance shown), appending a user message sets the
    intent back to true but leaves the affordance shown. *)
Lemma affordance_shown_while_intent_true :
  ChatHistory.run ChatHistory.initial Examples.scrollUpThenSend
  = {| ChatHistory.shouldAutoScroll := true;
       ChatHistory.showScrollButton := true |}
  /\ ChatHistory.showScrollButton
       (ChatHistory.run ChatHistory.initial Examples.scrollUpThenSend)
     <> negb (ChatHistory.shouldAutoScroll
                (ChatHistory.run ChatHistory.initial
                   Examples.scrollUpThenSend)).
Proof. split; [vm_compute; reflexivity | vm_compute; discriminate]. Qed.

(** C7, amended.  When the transcript changes and its last message is a
    user message, the intent is set to true and a scroll to the bottom is
    scheduled, whatever the state was, and the affordance is left as it
    was.  A scroll event recomputes the intent as the comparison
    [scrollHeight - clientHeight <= scrollTop + 50] on the rounded values of
    the two sides: the intent is true whenever the view is at most 50 units
    from the bottom, and when it is true the view is at most 50 units from
    the bottom up to the rounding error of the two sides; the affordance is
    shown exactly when the recomputed intent is false.  When the transcript
    changes and its last message is a model message, the view scrolls to
    the bottom if the intent is true and not otherwise, and the state is
    unchanged. *)
Theorem autoscroll_policy
    (st : ChatHistory.ScrollState) (prev : list App.ChatMessage)
    (m : App.ChatMessage) (c : ChatHistory.Container) :
  (App.role m = App.USER ->
     ChatHistory.shouldAutoScroll
       (fst (ChatHistory.messagesEffect (prev ++ [m]) st)) = true
     /\ ChatHistory.showScrollButton
          (fst (ChatHistory.messagesEffect (prev ++ [m]) st))
        = ChatHistory.showScrollButton st
     /\ snd (ChatHistory.messagesEffect (prev ++ [m]) st)
        = ChatHistory.ScrollToBottomDeferred)
  /\ (let st' := ChatHistory.handleScroll (Some c) st in
      let gap :=
        (ChatHistory.scrollHeight c - ChatHistory.clientHeight c)%Q in
      let reach := (ChatHistory.scrollTop c + 50)%Q in
      (ChatHistory.shouldAutoScroll st' = true <->
         (Binary64.round gap <= Binary64.round reach)%Q)
      /\ ((gap <= reach)%Q -> ChatHistory.shouldAutoScroll st' = true)
      /\ (ChatHistory.shouldAutoScroll st' = true ->
          (gap <= reach
                  + Binary64.unitRoundoff * (Qabs gap + Qabs reach)
                  + 2 * Binary64.eta)%Q)
      /\ ChatHistory.showScrollButton st'
         = negb (ChatHistory.shouldAutoScroll st'))
  /\ (App.role m = App.MODEL ->
     ChatHistory.messagesEffect (prev ++ [m]) st
     = (st, if ChatHistory.shouldAutoScroll st
            then ChatHistory.ScrollToBottom else ChatHistory.NoScroll)).
Proof.
  split; [|split].
  - intros Hr. unfold ChatHistory.messagesEffect.
    rewrite ScrollFacts.lastIsUser_snoc, Hr. repeat split.
  - intros st' gap reach.
    assert (Hiff : ChatHistory.shouldAutoScroll st' = true <->
                   (Binary64.round gap <= Binary64.round reach)%Q)
      by apply Qle_bool_iff.
    split; [exact Hiff|]. split; [|split; [|reflexivity]].
    + intros Hle. apply Hiff. now apply Binary64Facts.round_mono.
    + intros Hs. apply Hiff in Hs.
      pose proof (Binary64Facts.round_error gap) as Hg.
      pose proof (Binary64Facts.round_error reach) as Hr.
      apply Qabs_Qle_condition in Hg. apply Qabs_Qle_condition in Hr.
      destruct Hg as [Hg _], Hr as [_ Hr].
      set (u := Binary64.unitRoundoff) in *.
      setoid_replace (u * (Qabs gap + Qabs reach))%Q
        with (u * Qabs gap + u * Qabs reach)%Q by ring.
      lra.
  - intros Hr. unfold ChatHistory.messagesEffect.
    rewrite ScrollFacts.lastIsUser_snoc, Hr.
    destruct (ChatHistory.shouldAutoScroll st); reflexivity.
Qed.

(** ** Submission with an undecodable attachment *)

Module SubmitFacts.

Import App ChatInput.

Lemma fileToPart_throw d e : fileToPart d = Throw e -> e = INVALID_DATA_URL.
Proof.
  unfold fileToPart.
  destruct (startsWith _ d); [|congruence].
  destruct (forallb _ _); [|congruence].
  destruct (rcut _ _) as [[? ?]|]; congruence.
Qed.

Lemma imageParts_throw a e : imageParts a = Throw e -> e = INVALID_DATA_URL.
Proof.
  unfold imageParts. destruct a as [att|]; [|discriminate].
  destruct (truthy _); [|discriminate].
  destruct (fileToPart (dataUrl att)) eqn:E; simpl; [discriminate|].
  intros [= <-]. now apply fileToPart_throw in E.
Qed.

Lemma historyEntry_throw msg e :
  historyEntry msg = Throw e -> e = INVALID_DATA_URL.
Proof.
  unfold historyEntry.
  destruct (imageParts (attachment msg)) eqn:E; simpl; [discriminate|].
  intros [= <-]. now apply imageParts_throw in E.
Qed.

Lemma mapM_historyEntry_throw msgs e :
  mapM historyEntry msgs = Throw e -> e = INVALID_DATA_URL.
Proof.
  induction msgs as [|m ms IH]; simpl; [discriminate|].
  destruct (historyEntry m) eqn:E; simpl.
  - destruct (mapM historyEntry ms); simpl; [discriminate|].
    intros [= <-]. now apply IH.
  - intros [= <-]. now apply historyEntry_throw in E.
Qed.

(** A failing decode of the current attachment makes the construction of
    the request fail, whatever the history. *)
Lemma buildContents_bad_attachment msgs prompt att folder e :
  truthy (dataUrl att) = true ->
  fileToPart (dataUrl att) = Throw e ->
  buildContents msgs prompt (Some att) folder = Throw INVALID_DATA_URL.
Proof.
  intros Ht Hf. unfold buildContents.
  destruct (mapM historyEntry (skipn 1 msgs)) eqn:E; simpl.
  - rewrite Ht, Hf. simpl. f_equal. now apply fileToPart_throw in Hf.
  - f_equal. now apply mapM_historyEntry_throw in E.
Qed.

End SubmitFacts.

(** C9, as stated, fails: submitting "look at this" with an attachment whose
    data URL is "bogus" appends the user message AND a model message (the
    apology with the error detail) to the transcript, and leaves the
    composer cleared instead of restored. *)
Lemma bad_attachment_adds_model_message_and_clears_composer :
  let (st', c') :=
    ChatInput.submit Examples.replying Examples.idle Examples.pending
  in
  map App.role (App.messages st') = [App.MODEL; App.USER; App.MODEL]
  /\ map App.content (skipn 2 (App.messages st'))
     = [js "Sorry, I encountered an error. Please try again. Details: Invalid data URL"]
  /\ c' = ChatInput.cleared
  /\ c' <> Examples.pending.
Proof.
  vm_compute. repeat split; discriminate.
Qed.

(** C9, amended.  If decoding the attachment's data URL fails during a
    submission, the transport is not consulted and nothing is streamed: the
    transcript gains the user message followed by one synthetic model
    message with the error detail, the error state is set and loading ends;
    the composer is left cleared. *)
Theorem bad_attachment_aborts_before_transport
    (transport : App.ModelName -> list App.Content -> App.Language
                 -> App.StreamResult)
    (st : App.AppState) (c : ChatInput.Composer)
    (att : App.Attachment) (e : Thrown) :
  App.isLoading st = false ->
  ChatInput.fileData c = Some att ->
  truthy (App.dataUrl att) = true ->
  App.fileToPart (App.dataUrl att) = Throw e ->
  ChatInput.submit transport st c
  = ({| App.language := App.language st;
        App.selectedModel := App.selectedModel st;
        App.messages :=
          App.messages st
          ++ [ {| App.role := App.USER;
                  App.content := trim (ChatInput.input c);
                  App.attachment := Some att;
                  App.folder := ChatInput.folderData c;
                  App.model := None |};
               App.modelMessage
                 (js "Sorry, I encountered an error. Please try again. Details: "
                  ++ js "Invalid data URL")
                 (App.selectedModel st) ];
        App.isLoading := false;
        App.error := Some (js "Error: " ++ js "Invalid data URL") |},
     ChatInput.cleared).
Proof.
  intros Hl Hf Ht He.
  unfold ChatInput.submit, ChatInput.performSubmit. rewrite Hl, Hf. simpl.
  rewrite orb_true_r. simpl.
  unfold App.handleSendMessage, App.handleSendMessage_upto.
  rewrite (SubmitFacts.buildContents_bad_attachment _ _ _ _ Ht He).
  unfold App.onCatch. simpl. rewrite <- app_assoc. reflexivity.
Qed.

(** Remark, outside the amended claim: the user message with the
    undecodable attachment stays in the transcript and [buildContents]
    decodes the attachments of the whole history again, so the next
    submission, even of plain text, ends in the same way. *)
Lemma later_submission_fails_too :
  let (st1, _) :=
    ChatInput.submit Examples.replying Examples.idle Examples.pending in
  let (st2, _) :=
    ChatInput.submit Examples.replying st1
      {| ChatInput.input := js "again"; ChatInput.fileData := None;
         ChatInput.folderData := None; ChatInput.error := None |} in
  map App.role (App.messages st2)
  = [App.MODEL; App.USER; App.MODEL; App.USER; App.MODEL]
  /\ App.error st2 = Some (js "Error: Invalid data URL").
Proof. vm_compute. split; reflexivity. Qed.

(** ** Prose rendering *)

(** Every part that is not a code block is rendered as the sanitizer's
    output on the markdown conversion of the trimmed part, and every prose
    block of the rendered message arises that way: no markup reaches a
    prose [div] without going through [DOMPurify.sanitize].  What that
    library removes is decided by its own code and default configuration,
    which are not part of this repository. *)
Lemma prose_is_sanitizer_output
    (marked_parse sanitize : jsstring -> jsstring) (content : jsstring) :
  (forall part,
     In part (rendered_parts content) -> codeBlockMatch part = None ->
     In (ProseDiv (sanitize (marked_parse (trim part))))
        (FormattedContent marked_parse sanitize content))
  /\ (forall html,
        In (ProseDiv html) (FormattedContent marked_parse sanitize content) ->
        exists part,
          In part (rendered_parts content)
          /\ codeBlockMatch part = None
          /\ html = sanitize (marked_parse (trim part))).
Proof.
  unfold FormattedContent. split.
  - intros part Hin Hnone. apply in_map_iff. exists part. split; [|exact Hin].
    unfold render_part. now rewrite Hnone.
  - intros html Hin. apply in_map_iff in Hin as [part [Hr Hin]].
    unfold render_part in Hr.
    destruct (codeBlockMatch part) as [[language code]|] eqn:E.
    + destruct (JS.eqb _ _); discriminate.
    + injection Hr as <-. now exists part.
Qed.

(** ** Instances *)

(** C3 (amended) at "text", a fence tagged [Mermaid], " after": the fence
    is rendered as a diagram. *)
Lemma fence_classification_witness :
  FormattedContent Examples.plainMarkdown Examples.stripAngle
    (js "text" ++ FENCE ++ (js "Mermaid" ++ [LF] ++ js "graph TD") ++ FENCE
     ++ js " after")
  = [ProseDiv (js "text"); MermaidDiagramEl (js "graph TD");
     ProseDiv (js "after")].
Proof.
  assert (Htag : Forall tagCharacter (js "Mermaid")).
  { change (js "Mermaid") with [77; 101; 114; 109; 97; 105; 100]%N.
    repeat constructor; unfold tagCharacter; lia. }
  assert (Hbody : tagEndsBefore ([LF] ++ js "graph TD")).
  { unfold tagEndsBefore, tagCharacter, LF. simpl. lia. }
  rewrite (proj1 (@fence_classification
                    Examples.plainMarkdown Examples.stripAngle
                    (js "text") (js "Mermaid") ([LF] ++ js "graph TD")
                    (js " after") (js "code") (js "plain")
                    eq_refl eq_refl Htag Hbody eq_refl eq_refl)).
  - reflexivity.
  - unfold equalIgnoringCase.
    change (js "Mermaid") with [77; 101; 114; 109; 97; 105; 100]%N.
    change MERMAID with [109; 101; 114; 109; 97; 105; 100]%N.
    constructor; [right; left; repeat split; lia|].
    repeat (constructor; [left; reflexivity|]). constructor.
Defined.

(** C2 at the greeting-only transcript, prompt "hi", two of three deltas. *)
Lemma streamed_deltas_replace_trailing_message_witness :
  map App.content
    (App.messages
       (App.handleSendMessage_upto Examples.hello (Some 2%nat)
          Examples.idle (js "hi") None None))
  = [js "Hello!"; js "hi"; js "Hello, "].
Proof.
  rewrite (proj1 (@streamed_deltas_replace_trailing_message
                    Examples.hello Examples.idle (js "hi") None None
                    _ [js "Hel"; js "lo, "; js "world"] None 2
                    eq_refl eq_refl)).
  reflexivity.
Defined.

(** C5 at the identity transform, one tick with the cursor at (120, 80)
    in a viewport whose corner is at (20, 30), magnitudes within 100: the
    translate becomes about (-10.000000000000009, -5.000000000000004) and
    the point under the cursor moves by at most 3000 * 2^-53. *)
Lemma cursor_anchored_zoom_step_witness :
  (Qabs (Viewport.modelPointX
           (fst (Viewport64.handleWheel Examples.zoomIn Viewport.identity))
           (120 - 20)
         - Viewport.modelPointX Viewport.identity (120 - 20))
   <= 5 * (6 * (Binary64.unitRoundoff * 100)))%Q.
Proof.
  refine (proj1 (proj2 (proj2 (proj2 (proj2
            (@cursor_anchored_zoom_step Examples.zoomIn Viewport.identity 100
               _ _ _ _ _ _ _)))))).
  - split; apply Qle_bool_iff; vm_compute; reflexivity.
  - apply Qle_bool_iff. vm_compute. reflexivity.
  - apply Qle_bool_iff. vm_compute. reflexivity.
  - apply Qle_bool_iff. vm_compute. reflexivity.
  - apply Qle_bool_iff. vm_compute. reflexivity.
  - apply Qle_bool_iff. vm_compute. reflexivity.
  - apply Qle_bool_iff. vm_compute. reflexivity.
Defined.

(** C6: thirty ticks from the identity transform stop at the upper bound. *)
Lemma zoom_scale_stays_in_range_witness :
  (0.2 <= Viewport.scale
            (fold_left (fun t e => fst (Viewport.handleWheel e t))
               (repeat Examples.zoomIn 30) Viewport.identity)
   /\ Viewport.scale
        (fold_left (fun t e => fst (Viewport.handleWheel e t))
           (repeat Examples.zoomIn 30) Viewport.identity) <= 10)%Q.
Proof.
  apply (@zoom_scale_stays_in_range Viewport.identity
           (repeat Examples.zoomIn 30) Viewport.opened []).
  - split; discriminate.
  - split; discriminate.
Defined.

(** C7 (amended) when a user message arrives while the intent is false
    and the affordance is shown. *)
Lemma autoscroll_policy_witness :
  ChatHistory.shouldAutoScroll
    (fst (ChatHistory.messagesEffect
            ([Examples.greeting] ++ [Examples.userMessage (js "hi")])
            {| ChatHistory.shouldAutoScroll := false;
               ChatHistory.showScrollButton := true |})) = true
  /\ ChatHistory.showScrollButton
       (fst (ChatHistory.messagesEffect
               ([Examples.greeting] ++ [Examples.userMessage (js "hi")])
               {| ChatHistory.shouldAutoScroll := false;
                  ChatHistory.showScrollButton := true |}))
     = true
  /\ snd (ChatHistory.messagesEffect
            ([Examples.greeting] ++ [Examples.userMessage (js "hi")])
            {| ChatHistory.shouldAutoScroll := false;
               ChatHistory.showScrollButton := true |})
     = ChatHistory.ScrollToBottomDeferred.
Proof.
  apply (proj1 (@autoscroll_policy
                  {| ChatHistory.shouldAutoScroll := false;
                     ChatHistory.showScrollButton := true |}
                  [Examples.greeting] (Examples.userMessage (js "hi"))
                  Examples.scrolledUp)).
  reflexivity.
Defined.

(** C8 (amended) on the burst of two ticks, from the freshly opened modal. *)
Lemma throttled_run_refines_accepted_inputs_witness :
  Viewport.styleTransform
    (Viewport.run Viewport.opened
       (Examples.burst ++ [Viewport.AnimationFrame]))
  = Viewport.transformRef
      (Viewport.run Viewport.opened
         (Examples.burst ++ [Viewport.AnimationFrame])).
Proof.
  apply (@throttled_run_refines_accepted_inputs Viewport.opened
           Examples.burst (fun _ => eq_refl)).
Defined.

(** C9 (amended) on the composer holding the undecodable attachment. *)
Lemma bad_attachment_aborts_before_transport_witness :
  snd (ChatInput.submit Examples.replying Examples.idle
         Examples.pending)
  = ChatInput.cleared.
Proof.
  rewrite (@bad_attachment_aborts_before_transport Examples.replying
             Examples.idle Examples.pending Examples.badImage
             App.INVALID_DATA_URL eq_refl eq_refl eq_refl eq_refl).
  reflexivity.
Defined.

(* ===================================================================== *)
(** * Further properties *)
(* ===================================================================== *)

(** ** Segmenter *)

Lemma forallb_concat (f : N -> bool) (l : list jsstring) :
  forallb f (concat l) = forallb (forallb f) l.
Proof.
  induction l as [|a l IH]; simpl; [reflexivity|].
  now rewrite forallb_app, IH.
Qed.

Lemma filter_nil_iff {A : Type} (g : A -> bool) (l : list A) :
  filter g l = [] <-> forallb (fun a => negb (g a)) l = true.
Proof.
  induction l as [|a l IH]; simpl; [split; reflexivity|].
  destruct (g a); simpl; [split; discriminate | exact IH].
Qed.

Lemma forallb_pointwise {A : Type} (f g : A -> bool) (l : list A) :
  (forall a, f a = g a) -> forallb f l = forallb g l.
Proof.
  intros H. induction l as [|a l IH]; simpl; [reflexivity|].
  now rewrite H, IH.
Qed.

(** X1.  A message renders to nothing exactly when it is empty or
    whitespace-only. *)
Theorem blank_message_renders_nothing
    (marked_parse sanitize : jsstring -> jsstring) (content : jsstring) :
  FormattedContent marked_parse sanitize content = []
  <-> forallb isWhiteSpace content = true.
Proof.
  unfold FormattedContent.
  rewrite <- (split_fences_concat content) at 2.
  rewrite forallb_concat. unfold rendered_parts.
  split.
  - intros H. apply map_eq_nil in H. apply filter_nil_iff in H.
    rewrite <- H. apply forallb_pointwise.
    intros part. now rewrite truthy_trim, negb_involutive.
  - intros H.
    assert (Hf : filter (fun part => truthy (trim part))
                   (split_fences content) = []).
    { apply filter_nil_iff. rewrite <- H. apply forallb_pointwise.
      intros part. now rewrite truthy_trim, negb_involutive. }
    now rewrite Hf.
Qed.

Lemma dropWhile_idem f s : dropWhile f (dropWhile f s) = dropWhile f s.
Proof.
  induction s as [|c s IH]; simpl; [reflexivity|].
  destruct (f c) eqn:E; [exact IH|]. simpl. now rewrite E.
Qed.

Lemma dropWhile_head f s c r : dropWhile f s = c :: r -> f c = false.
Proof.
  induction s as [|a s IH]; simpl; [discriminate|].
  destruct (f a) eqn:E; [exact IH|]. now intros [= <- _].
Qed.

Lemma dropWhile_fixed f c r : f c = false -> dropWhile f (c :: r) = c :: r.
Proof. intros H. simpl. now rewrite H. Qed.

(** [trim] is idempotent. *)
Lemma trim_idem s : trim (trim s) = trim s.
Proof.
  unfold trim, trimStart, trimEnd.
  set (a := dropWhile isWhiteSpace s).
  set (b := dropWhile isWhiteSpace (rev a)).
  assert (Hb : dropWhile isWhiteSpace b = b) by apply dropWhile_idem.
  assert (Ha : dropWhile isWhiteSpace (rev b) = rev b).
  { destruct (dropWhile_suffix isWhiteSpace (rev a)) as [p [Hp _]].
    fold b in Hp. apply (f_equal (@rev N)) in Hp.
    rewrite rev_involutive, rev_app_distr in Hp.
    destruct (rev b) as [|c r] eqn:Er; [reflexivity|].
    apply dropWhile_fixed. simpl in Hp.
    apply (@dropWhile_head isWhiteSpace s c (r ++ rev p)). exact Hp. }
  rewrite Ha, rev_involutive. now rewrite Hb.
Qed.

Lemma takeWhile_all f s : forallb f (takeWhile f s) = true.
Proof.
  induction s as [|c s IH]; simpl; [reflexivity|].
  destruct (f c) eqn:E; simpl; [now rewrite E | reflexivity].
Qed.

Lemma codeBlockMatch_language part language code :
  codeBlockMatch part = Some (language, code) ->
  forallb isWordChar language = true.
Proof.
  unfold codeBlockMatch. destruct (startsWith FENCE part); [|discriminate].
  match goal with |- (if ?b then _ else _) = _ -> _ => destruct b end;
    [|discriminate].
  intros [= <- _]. apply takeWhile_all.
Qed.

(** X2.  Whatever the message, a rendered code block carries a language tag
    made of word characters only that is not "mermaid" in any letter case,
    its header label is that tag or "code" and is never empty, and the code
    of a code block and the chart of a diagram have no leading or trailing
    whitespace. *)
Theorem rendered_blocks_are_normalised
    (marked_parse sanitize : jsstring -> jsstring) (content : jsstring) :
  Forall (fun element =>
            match element with
            | CodeBlockEl language code =>
                forallb isWordChar language = true
                /\ toLowerCase language <> MERMAID
                /\ truthy (codeBlockLabel language) = true
                /\ forallb isWordChar (codeBlockLabel language) = true
                /\ trim code = code
            | MermaidDiagramEl chart => trim chart = chart
            | ProseDiv _ => True
            end)
         (FormattedContent marked_parse sanitize content).
Proof.
  unfold FormattedContent. apply Forall_forall. intros element Hin.
  apply in_map_iff in Hin as [part [<- _]]. unfold render_part.
  destruct (codeBlockMatch part) as [[language code]|] eqn:E; [|exact I].
  pose proof (codeBlockMatch_language _ E) as Hw.
  destruct (JS.eqb (toLowerCase language) MERMAID) eqn:Em.
  - apply trim_idem.
  - split; [exact Hw|]. split.
    + intros H. apply eqb_spec in H. congruence.
    + unfold codeBlockLabel. destruct language as [|c l]; simpl.
      * repeat split. apply trim_idem.
      * repeat split; [exact Hw | apply trim_idem].
Qed.

(** X3.  The split of any message alternates text parts and fence parts,
    starting and ending with a text part: text parts never match the
    code-block pattern (they render as prose or are dropped) and fence parts
    always match it (they render as code or diagram). *)
Theorem split_alternates_text_and_fences (content : jsstring) :
  alternating (split_fences content)
  /\ Nat.odd (length (split_fences content)) = true.
Proof.
  funelim (split_fences content).
  - match goal with E : next_fence _ = Some _ |- _ =>
      pose proof E as E'; unfold next_fence in E' end.
    destruct (cut FENCE s) as [[p a]|] eqn:E1; [|discriminate].
    destruct (cut FENCE a) as [[b r]|] eqn:E2; [|discriminate].
    injection E' as <- <- <-.
    match goal with IH : alternating _ /\ _ |- _ => destruct IH as [IHa IHo] end.
    split.
    + cbn [alternating]. split; [|split; [|exact IHa]].
      * unfold codeBlockMatch.
        rewrite (@cut_pre_startsWith FENCE s p a);
          [reflexivity | discriminate | exact E1].
      * change (codeBlockMatch (FENCE ++ b ++ FENCE) <> None).
        rewrite codeBlockMatch_fence. discriminate.
    + cbn [length]. rewrite Nat.odd_succ, Nat.even_succ. exact IHo.
  - split; [|reflexivity]. cbn [alternating].
    apply codeBlockMatch_no_fence.
    match goal with E : next_fence _ = None |- _ => exact E end.
Qed.

(** ** Data URLs *)

Lemma rcut_spec sep s pre post :
  rcut sep s = Some (pre, post) -> s = pre ++ sep ++ post.
Proof.
  unfold rcut. destruct (cut (rev sep) (rev s)) as [[postR preR]|] eqn:E;
    [|discriminate].
  intros [= <- <-]. apply cut_spec in E.
  apply (f_equal (@rev N)) in E.
  rewrite rev_involutive, !rev_app_distr, rev_involutive in E.
  now rewrite <- app_assoc in E.
Qed.

Lemma rcut_app_Some sep a b :
  exists pre post, rcut sep (a ++ sep ++ b) = Some (pre, post).
Proof.
  unfold rcut. rewrite !rev_app_distr, <- app_assoc.
  destruct (cut_app_Some (rev sep) (rev b) (rev a)) as [p [q ->]]. eauto.
Qed.

Lemma nth7_after_mark t : nth 7 (rev BASE64_MARK ++ t) 0%N = 59%N.
Proof. reflexivity. Qed.

Lemma nth7_before_mark q x :
  q <> [] -> noSemicolon q = true ->
  nth 7 (q ++ rev BASE64_MARK ++ x) 0%N <> 59%N.
Proof.
  intros Hq H. unfold noSemicolon in H.
  do 8 (destruct q as [|? q]; [first [congruence | discriminate] |]).
  simpl in H. simpl.
  repeat (apply andb_prop in H as [? H]).
  match goal with Hn : negb (?n =? 59)%N = true |- ?n <> 59%N =>
    apply negb_true_iff in Hn; now apply N.eqb_neq in Hn end.
Qed.

Lemma cut_mark_here pre x :
  noSemicolon pre = true ->
  cut (rev BASE64_MARK) (pre ++ rev BASE64_MARK ++ x) = Some (pre, x).
Proof.
  induction pre as [|c p IH]; intros H.
  - reflexivity.
  - assert (Hs : startsWith (rev BASE64_MARK)
                   ((c :: p) ++ rev BASE64_MARK ++ x) = false).
    { destruct (startsWith _ _) eqn:E; [|reflexivity].
      apply startsWith_spec in E as [t Ht].
      exfalso. apply (@nth7_before_mark (c :: p) x); [discriminate | exact H |].
      rewrite Ht. apply nth7_after_mark. }
    change (cut (rev BASE64_MARK) ((c :: p) ++ rev BASE64_MARK ++ x))
      with (if startsWith (rev BASE64_MARK) ((c :: p) ++ rev BASE64_MARK ++ x)
            then Some ([], skipn (length (rev BASE64_MARK))
                             ((c :: p) ++ rev BASE64_MARK ++ x))
            else match cut (rev BASE64_MARK) (p ++ rev BASE64_MARK ++ x) with
                 | Some (pre, post) => Some (c :: pre, post)
                 | None => None
                 end).
    rewrite Hs, IH; [reflexivity|].
    unfold noSemicolon in *. simpl in H. now apply andb_prop in H as [_ H].
Qed.

Lemma fileToPart_of_parts mime data :
  singleLine mime = true -> singleLine data = true ->
  App.fileToPart (js "data:" ++ mime ++ BASE64_MARK ++ data)
  = match rcut BASE64_MARK (mime ++ BASE64_MARK ++ data) with
    | Some (mimeType, base64Data) => Ok (App.InlineData base64Data mimeType)
    | None => Throw App.INVALID_DATA_URL
    end.
Proof.
  intros Hm Hd. unfold App.fileToPart. rewrite startsWith_app.
  change (skipn 5 (js "data:" ++ mime ++ BASE64_MARK ++ data))
    with (mime ++ BASE64_MARK ++ data).
  unfold singleLine in *. rewrite !forallb_app, Hm, Hd. reflexivity.
Qed.

(** X4.  [fileToPart] accepts exactly the data URLs of the form
    [data:<mime>;base64,<data>] without line terminators after the prefix:
    what it returns are two pieces that rebuild the URL, every URL of that
    form is accepted, and the only error it raises is "Invalid data URL". *)
Theorem fileToPart_accepts_base64_data_urls
    (dataUrl mime data : jsstring) :
  (forall part, App.fileToPart dataUrl = Ok part ->
     exists mimeType base64Data,
       part = App.InlineData base64Data mimeType
       /\ dataUrl = js "data:" ++ mimeType ++ js ";base64," ++ base64Data
       /\ singleLine mimeType = true /\ singleLine base64Data = true)
  /\ (forall e, App.fileToPart dataUrl = Throw e ->
        e = ErrorObject (js "Invalid data URL"))
  /\ (singleLine mime = true -> singleLine data = true ->
      exists mimeType base64Data,
        App.fileToPart (js "data:" ++ mime ++ js ";base64," ++ data)
        = Ok (App.InlineData base64Data mimeType)).
Proof.
  split; [|split].
  - intros part. unfold App.fileToPart.
    destruct (startsWith (js "data:") dataUrl) eqn:Es; [|discriminate].
    destruct (forallb _ (skipn 5 dataUrl)) eqn:Ef; [|discriminate].
    destruct (rcut _ _) as [[mimeType base64Data]|] eqn:Er; [|discriminate].
    intros [= <-]. exists mimeType, base64Data.
    apply rcut_spec in Er. apply startsWith_skipn in Es.
    change (length (js "data:")) with 5%nat in Es.
    rewrite Er in Ef. rewrite !forallb_app in Ef.
    apply andb_prop in Ef as [Hm Ef]. apply andb_prop in Ef as [_ Hd].
    repeat split; try assumption. rewrite Es at 1. now rewrite Er.
  - apply SubmitFacts.fileToPart_throw.
  - intros Hm Hd. fold BASE64_MARK. rewrite (fileToPart_of_parts _ _ Hm Hd).
    destruct (rcut_app_Some BASE64_MARK mime data) as [p [q ->]]. eauto.
Qed.

(** X5.  Decoding round trip: a data URL assembled from a media type and
    base64 data (no line terminators, no [;] in the data) is split back into
    exactly that data and that media type. *)
Theorem fileToPart_round_trip (mime data : jsstring) :
  singleLine mime = true -> singleLine data = true ->
  noSemicolon data = true ->
  App.fileToPart (js "data:" ++ mime ++ js ";base64," ++ data)
  = Ok (App.InlineData data mime).
Proof.
  intros Hm Hd Hs. fold BASE64_MARK. rewrite (fileToPart_of_parts _ _ Hm Hd).
  unfold rcut. rewrite !rev_app_distr, <- app_assoc.
  rewrite cut_mark_here.
  - now rewrite !rev_involutive.
  - unfold noSemicolon in *. now rewrite forallb_rev.
Qed.

(** ** Reconciler *)

Lemma setLast_length prev m :
  length (App.setLast prev m) = length prev.
Proof.
  destruct prev as [|a l]; [reflexivity|].
  destruct (@exists_last _ (a :: l)) as [l' [z E]]; [discriminate|].
  rewrite E, setLast_snoc, !length_app. reflexivity.
Qed.

Lemma setLast_removelast prev m :
  removelast (App.setLast prev m) = removelast prev.
Proof.
  destruct prev as [|a l]; [reflexivity|].
  destruct (@exists_last _ (a :: l)) as [l' [z E]]; [discriminate|].
  rewrite E, setLast_snoc, !removelast_last. reflexivity.
Qed.

Lemma consumeChunks_general m chunks : forall msgs response,
  let result := App.consumeChunks m (msgs, response) chunks in
  snd result = response ++ concat (map chunkText chunks)
  /\ length (fst result) = length msgs
  /\ removelast (fst result) = removelast msgs
  /\ (chunks <> [] -> msgs <> [] ->
      last (fst result) (App.modelMessage [] m)
      = App.modelMessage (response ++ concat (map chunkText chunks)) m).
Proof.
  unfold App.consumeChunks.
  induction chunks as [|c cs IH]; intros msgs response; simpl.
  - rewrite app_nil_r. repeat split. congruence.
  - specialize (IH (App.setLast msgs
                      (App.modelMessage (App.appendText response c) m))
                   (App.appendText response c)).
    simpl in IH. destruct IH as [Hs [Hl [Hr Hlast]]].
    unfold App.appendText in *. fold (chunkText c) in *.
    rewrite <- app_assoc in Hs. rewrite <- app_assoc in Hlast.
    split; [exact Hs|]. split; [now rewrite Hl, setLast_length|].
    split; [now rewrite Hr, setLast_removelast|].
    intros _ Hne. destruct cs as [|c' cs].
    + simpl. rewrite app_nil_r.
      destruct (@exists_last _ msgs Hne) as [l' [z E]].
      rewrite E, setLast_snoc, last_last. reflexivity.
    + apply Hlast; [discriminate|].
      intros H0. apply (f_equal (@length _)) in H0.
      rewrite setLast_length in H0. destruct msgs; [congruence|discriminate].
Qed.

(** X6.  Streaming never changes the length of the transcript nor any entry
    but the last, whatever the transcript and the chunks; on a non-empty
    transcript the last entry becomes a model message whose content is the
    concatenation of the chunk texts, a chunk without text contributing the
    word "undefined". *)
Theorem streaming_touches_only_the_last_entry
    (m : App.ModelName) (msgs : list App.ChatMessage)
    (chunks : list (option jsstring)) :
  let msgs' := fst (App.consumeChunks m (msgs, []) chunks) in
  length msgs' = length msgs
  /\ removelast msgs' = removelast msgs
  /\ (chunks <> [] -> msgs <> [] ->
      last msgs' (App.modelMessage [] m)
      = App.modelMessage (concat (map chunkText chunks)) m).
Proof.
  destruct (consumeChunks_general m chunks msgs []) as [_ [Hl [Hr Hlast]]].
  repeat split; assumption.
Qed.

(** X7.  Whatever the transport does and whatever is submitted, when
    [handleSendMessage] has finished the loading flag is off, the language
    and the selected model are unchanged, and the transcript is the old
    transcript followed by the user's message, followed by at most two more
    entries, all of them model messages. *)
Theorem handleSendMessage_always_settles
    (transport : App.ModelName -> list App.Content -> App.Language
                 -> App.StreamResult)
    (st : App.AppState) (prompt : jsstring)
    (attachment : option App.Attachment)
    (folder : option App.ProcessedFolder) :
  let st' := App.handleSendMessage transport st prompt attachment folder in
  App.isLoading st' = false
  /\ App.language st' = App.language st
  /\ App.selectedModel st' = App.selectedModel st
  /\ exists replies,
       App.messages st'
       = App.messages st
         ++ {| App.role := App.USER; App.content := prompt;
               App.attachment := attachment; App.folder := folder;
               App.model := None |} :: replies
       /\ (1 <= length replies <= 2)%nat
       /\ Forall (fun r => App.role r = App.MODEL) replies.
Proof.
  unfold App.handleSendMessage, App.handleSendMessage_upto.
  set (user := {| App.role := App.USER; App.content := prompt;
                  App.attachment := attachment; App.folder := folder;
                  App.model := None |}).
  destruct (App.buildContents _ _ _ _) as [contents|e]; simpl.
  - destruct (transport _ _ _) as [e|chunks failure]; simpl.
    + repeat split. eexists. rewrite <- app_assoc. split; [reflexivity|].
      simpl. split; [lia|]. repeat constructor.
    + set (ph := App.modelMessage [] (App.selectedModel st)).
      pose proof (consumeChunks_general (App.selectedModel st) chunks
                    ((App.messages st ++ [user]) ++ [ph]) []) as Hg.
      cbv zeta in Hg.
      set (ms := fst (App.consumeChunks (App.selectedModel st)
                        ((App.messages st ++ [user]) ++ [ph], []) chunks)).
      assert (Hl : length ms = length ((App.messages st ++ [user]) ++ [ph]))
        by apply Hg.
      assert (Hr : removelast ms
                   = removelast ((App.messages st ++ [user]) ++ [ph]))
        by apply Hg.
      assert (Hlast : chunks <> [] ->
                      (App.messages st ++ [user]) ++ [ph] <> [] ->
                      last ms (App.modelMessage [] (App.selectedModel st))
                      = App.modelMessage
                          ([] ++ concat (map chunkText chunks))
                          (App.selectedModel st))
        by apply Hg.
      assert (Ems : chunks = [] -> ms = (App.messages st ++ [user]) ++ [ph])
        by (intros ->; reflexivity).
      clearbody ms. clear Hg.
      assert (Hms : exists z, ms = (App.messages st ++ [user]) ++ [z]
                              /\ App.role z = App.MODEL).
      { destruct (@exists_last _ ms) as [l' [z E]].
        - intros H0. rewrite H0 in Hl. rewrite !length_app in Hl.
          simpl in Hl. lia.
        - rewrite E, !removelast_last in Hr. subst l'. exists z.
          split; [exact E|].
          destruct chunks as [|c cs].
          + rewrite (Ems eq_refl) in E.
            apply app_inj_tail in E as [_ <-]. reflexivity.
          + rewrite E, last_last in Hlast.
            rewrite Hlast; [reflexivity | discriminate |].
            destruct (App.messages st); discriminate. }
      clear Ems. destruct Hms as [z [Hz Hrole]].
      destruct failure as [e|]; simpl; rewrite Hz;
        repeat split.
      * eexists. rewrite <- !app_assoc. split; [reflexivity|].
        simpl. split; [lia|]. repeat constructor. exact Hrole.
      * eexists. rewrite <- !app_assoc. split; [reflexivity|].
        simpl. split; [lia|]. repeat constructor. exact Hrole.
  - repeat split. eexists. rewrite <- app_assoc. split; [reflexivity|].
    simpl. split; [lia|]. repeat constructor.
Qed.

(** X8.  When the request can be built, a transport failure never removes
    what was already shown.  If the stream breaks after some deltas, the
    transcript ends with the user's message, the partial reply (all deltas
    received, concatenated) and the apology with the error detail; if the
    call itself is rejected, it ends with the user's message and the
    apology, with no empty reply in between.  In both cases the error
    banner holds the same detail. *)
Theorem transport_failure_keeps_partial_reply
    (transport : App.ModelName -> list App.Content -> App.Language
                 -> App.StreamResult)
    (st : App.AppState) (prompt : jsstring)
    (attachment : option App.Attachment)
    (folder : option App.ProcessedFolder)
    (contents : list App.Content) (deltas : list jsstring) (e : Thrown) :
  App.buildContents (App.messages st) prompt attachment folder = Ok contents ->
  let user := {| App.role := App.USER; App.content := prompt;
                 App.attachment := attachment; App.folder := folder;
                 App.model := None |} in
  let apology :=
    App.modelMessage
      (js "Sorry, I encountered an error. Please try again. Details: "
       ++ App.caughtMessage e) (App.selectedModel st) in
  let st' := App.handleSendMessage transport st prompt attachment folder in
  (transport (App.selectedModel st) contents (App.language st)
   = App.Stream (map Some deltas) (Some e) ->
   App.messages st'
   = App.messages st
     ++ [user; App.modelMessage (concat deltas) (App.selectedModel st);
         apology]
   /\ App.error st' = Some (js "Error: " ++ App.caughtMessage e))
  /\ (transport (App.selectedModel st) contents (App.language st)
      = App.CallRejected e ->
      App.messages st' = App.messages st ++ [user; apology]
      /\ App.error st' = Some (js "Error: " ++ App.caughtMessage e)).
Proof.
  intros Hb user apology st'. unfold st', App.handleSendMessage,
    App.handleSendMessage_upto. rewrite Hb. split; intros Ht; rewrite Ht.
  - cbn [App.onCatch App.setMessages App.messages App.error
         App.selectedModel App.language App.isLoading].
    rewrite consumeChunks_deltas. split; [|reflexivity].
    destruct deltas; simpl; rewrite <- !app_assoc; reflexivity.
  - simpl. split; [|reflexivity]. now rewrite <- app_assoc.
Qed.

Module RequestFacts.

Import App.

Lemma fileToPart_InlineData dataUrl p :
  fileToPart dataUrl = Ok p -> exists data mimeType, p = InlineData data mimeType.
Proof.
  unfold fileToPart. destruct (startsWith _ _); [|discriminate].
  destruct (forallb _ _); [|discriminate].
  destruct (rcut _ _) as [[mimeType data]|]; [|discriminate].
  intros [= <-]. eauto.
Qed.

Lemma imageParts_Ok a image :
  imageParts a = Ok image -> atMostOneImage image /\ decodable a = true.
Proof.
  unfold imageParts, decodable, atMostOneImage.
  destruct a as [att|]; [|intros [= <-]; auto].
  destruct (truthy (dataUrl att)); [|intros [= <-]; auto].
  destruct (fileToPart (dataUrl att)) as [p|] eqn:E; simpl; [|discriminate].
  intros [= <-]. apply fileToPart_InlineData in E as [data [mimeType ->]].
  split; [right; eauto | reflexivity].
Qed.

Lemma wellFormed_parts role image text :
  atMostOneImage image ->
  wellFormedContent
    {| contentRole := role; parts := image ++ [TextPart text] |}.
Proof.
  intros [-> | [data [mimeType ->]]]; [left | right]; simpl; eauto.
Qed.

Lemma imageParts_decodable a :
  decodable a = true -> exists image, imageParts a = Ok image.
Proof.
  unfold imageParts, decodable. destruct a as [att|]; [|eauto].
  destruct (truthy (dataUrl att)); [|eauto].
  destruct (fileToPart (dataUrl att)); simpl; [eauto | discriminate].
Qed.

Lemma historyEntry_Ok msg c :
  historyEntry msg = Ok c ->
  contentRole c = role msg /\ wellFormedContent c
  /\ decodable (attachment msg) = true.
Proof.
  unfold historyEntry.
  destruct (imageParts (attachment msg)) as [image|] eqn:E; simpl;
    [|discriminate].
  intros [= <-]. simpl. apply imageParts_Ok in E as [Hl Hd].
  split; [reflexivity|]. split; [|exact Hd].
  now apply wellFormed_parts.
Qed.

Lemma historyEntry_decodable msg :
  decodable (attachment msg) = true -> exists c, historyEntry msg = Ok c.
Proof.
  intros H. apply imageParts_decodable in H as [image E].
  unfold historyEntry. rewrite E. simpl. eauto.
Qed.

Lemma mapM_historyEntry_Ok msgs : forall cs,
  mapM historyEntry msgs = Ok cs ->
  map contentRole cs = map role msgs /\ Forall wellFormedContent cs
  /\ forallb (fun m => decodable (attachment m)) msgs = true.
Proof.
  induction msgs as [|m ms IH]; simpl; intros cs.
  - intros [= <-]. auto.
  - destruct (historyEntry m) as [c|] eqn:E; simpl; [|discriminate].
    destruct (mapM historyEntry ms) as [cs'|] eqn:E'; simpl; [|discriminate].
    intros [= <-]. apply historyEntry_Ok in E as [Hr [Hw Hd]].
    destruct (IH cs' eq_refl) as [Hrs [Hws Hds]]. simpl.
    rewrite Hr, Hrs, Hd, Hds. auto.
Qed.

Lemma mapM_historyEntry_decodable msgs :
  forallb (fun m => decodable (attachment m)) msgs = true ->
  exists cs, mapM historyEntry msgs = Ok cs.
Proof.
  induction msgs as [|m ms IH]; simpl; [eauto|].
  intros H. apply andb_prop in H as [Hm Hms].
  destruct (historyEntry_decodable _ Hm) as [c ->].
  destruct (IH Hms) as [cs ->]. simpl. eauto.
Qed.

(** The text sent for the current turn ends with the prompt as typed. *)
Lemma finalPrompt_suffix prompt attachment (folder : option ProcessedFolder) :
  exists context,
    match folder with
    | Some f => withFolderContext (folderContent f) prompt
    | None =>
        match truthyTextContent attachment with
        | Some (att, text) => withFileContext att text prompt
        | None => prompt
        end
    end = context ++ prompt.
Proof.
  destruct folder as [f|].
  - unfold withFolderContext. eexists. rewrite !app_assoc. reflexivity.
  - destruct (truthyTextContent attachment) as [[att text]|].
    + unfold withFileContext. eexists. rewrite !app_assoc. reflexivity.
    + now exists [].
Qed.

End RequestFacts.

(** X9.  A request that is built has one entry per transcript message
    except the first (the greeting is never sent), in order and with the
    same roles, followed by one user entry for the current turn; every entry
    is at most one image part followed by exactly one text part; and the
    text of the current turn ends with the prompt exactly as submitted. *)
Theorem request_mirrors_transcript_without_greeting
    (msgs : list App.ChatMessage) (prompt : jsstring)
    (attachment : option App.Attachment)
    (folder : option App.ProcessedFolder) (contents : list App.Content) :
  App.buildContents msgs prompt attachment folder = Ok contents ->
  map App.contentRole contents = map App.role (skipn 1 msgs) ++ [App.USER]
  /\ length contents = (length msgs - 1 + 1)%nat
  /\ Forall wellFormedContent contents
  /\ exists history image context,
       atMostOneImage image
       /\ contents
          = history
            ++ [ {| App.contentRole := App.USER;
                    App.parts := image ++ [App.TextPart (context ++ prompt)] |} ].
Proof.
  unfold App.buildContents.
  destruct (mapM App.historyEntry (skipn 1 msgs)) as [history|] eqn:E; simpl;
    [|discriminate].
  destruct (App.imageParts attachment) as [image|] eqn:Ei; simpl;
    [|discriminate].
  intros [= <-].
  apply RequestFacts.mapM_historyEntry_Ok in E as [Hr [Hw _]].
  apply RequestFacts.imageParts_Ok in Ei as [Hl _].
  destruct (RequestFacts.finalPrompt_suffix prompt attachment folder)
    as [context Hc].
  split; [|split; [|split]].
  - rewrite map_app, Hr. reflexivity.
  - rewrite length_app. simpl.
    apply (f_equal (@length _)) in Hr. rewrite !length_map in Hr.
    rewrite Hr, length_skipn. reflexivity.
  - apply Forall_app. split; [exact Hw|]. constructor; [|constructor].
    now apply RequestFacts.wellFormed_parts.
  - exists history, image, context. split; [exact Hl|].
    rewrite <- Hc. reflexivity.
Qed.

(** X10.  Building the request succeeds exactly when every attachment with
    a non-empty data URL, in the transcript after the first message and in
    the current turn, decodes; and when it fails the error is always
    "Invalid data URL". *)
Theorem request_built_iff_attachments_decode
    (msgs : list App.ChatMessage) (prompt : jsstring)
    (attachment : option App.Attachment)
    (folder : option App.ProcessedFolder) :
  ((exists contents,
      App.buildContents msgs prompt attachment folder = Ok contents)
   <-> forallb (fun m => decodable (App.attachment m)) (skipn 1 msgs)
       && decodable attachment = true)
  /\ (forall e, App.buildContents msgs prompt attachment folder = Throw e ->
      e = ErrorObject (js "Invalid data URL")).
Proof.
  split; [split|].
  - intros [contents H]. unfold App.buildContents in H.
    destruct (mapM App.historyEntry (skipn 1 msgs)) as [history|] eqn:E;
      simpl in H; [|discriminate].
    destruct (App.imageParts attachment) as [image|] eqn:Ei; simpl in H;
      [|discriminate].
    apply RequestFacts.mapM_historyEntry_Ok in E as [_ [_ Hd]].
    apply RequestFacts.imageParts_Ok in Ei as [_ Ha].
    now rewrite Hd, Ha.
  - intros H. apply andb_prop in H as [Hd Ha].
    destruct (RequestFacts.mapM_historyEntry_decodable _ Hd) as [history E].
    destruct (RequestFacts.imageParts_decodable _ Ha) as [image Ei].
    unfold App.buildContents. rewrite E. simpl. rewrite Ei. simpl. eauto.
  - intros e. unfold App.buildContents.
    destruct (mapM App.historyEntry (skipn 1 msgs)) as [history|] eqn:E;
      simpl.
    + destruct (App.imageParts attachment) as [image|] eqn:Ei; simpl;
        [discriminate|].
      intros [= <-]. now apply SubmitFacts.imageParts_throw in Ei.
    + intros [= <-]. now apply SubmitFacts.mapM_historyEntry_throw in E.
Qed.

(** ** Composer *)

(** X11.  A submit gesture sends nothing exactly when a reply is loading or
    the composer holds neither an attachment, nor a folder, nor any
    non-whitespace text; then the composer is left untouched.  Otherwise
    the handler is called with the trimmed text and both attachments, and
    the composer is cleared. *)
Theorem performSubmit_sends_iff_something_to_send
    (c : ChatInput.Composer) (isLoading : bool) :
  (snd (ChatInput.performSubmit c isLoading) = None
   <-> isLoading = true
       \/ (forallb isWhiteSpace (ChatInput.input c) = true
           /\ ChatInput.fileData c = None /\ ChatInput.folderData c = None))
  /\ (snd (ChatInput.performSubmit c isLoading) = None ->
      fst (ChatInput.performSubmit c isLoading) = c)
  /\ (forall call, snd (ChatInput.performSubmit c isLoading) = Some call ->
      call = (trim (ChatInput.input c), ChatInput.fileData c,
              ChatInput.folderData c)
      /\ fst (ChatInput.performSubmit c isLoading) = ChatInput.cleared).
Proof.
  unfold ChatInput.performSubmit. rewrite truthy_trim.
  destruct isLoading, (forallb isWhiteSpace (ChatInput.input c)),
    (ChatInput.fileData c), (ChatInput.folderData c); simpl;
    (split; [split; [intros H; try discriminate; auto
                    | intros [H|[H1 [H2 H3]]]; try discriminate; auto]
            | split; [intros H; try discriminate; auto
                     | intros call H; try discriminate;
                       injection H as <-; auto]]).
Qed.

(** X12.  Choosing a file keeps the typed text and discards any earlier
    attachment or folder; the file becomes the attachment (with the read
    result as data URL) exactly when it is at most 4 MiB and the read
    succeeds, and otherwise an error message is shown instead. *)
Theorem processFile_attaches_or_reports
    (file : Selection.File) (read : Selection.ReadOutcome)
    (c : ChatInput.Composer) :
  let c' := Selection.processFile file read c in
  ChatInput.input c' = ChatInput.input c
  /\ ChatInput.folderData c' = None
  /\ (forall a, ChatInput.fileData c' = Some a <->
        (Selection.size file <= 4 * 1024 * 1024)%N
        /\ exists result,
             read = Selection.Loaded result
             /\ a = {| App.dataUrl := result;
                       App.name := Selection.fileName file;
                       App.type := Selection.fileType file;
                       App.textContent := None |})
  /\ (ChatInput.fileData c' = None <-> ChatInput.error c' <> None).
Proof.
  unfold Selection.processFile, Selection.MAX_FILE_SIZE_MB.
  destruct (4 * 1024 * 1024 <? Selection.size file)%N eqn:E.
  - apply N.ltb_lt in E. simpl. repeat split; try discriminate.
    + intros [Hle _]. lia.
  - apply N.ltb_ge in E. destruct read as [result|]; simpl.
    + split; [reflexivity|]. split; [reflexivity|]. split.
      * intros a. split.
        -- intros [= <-]. split; [exact E|]. exists result. auto.
        -- intros [_ [r [[= <-] ->]]]. reflexivity.
      * split; [discriminate | intros H; now elim H].
    + split; [reflexivity|]. split; [reflexivity|]. split.
      * intros a. split; [discriminate|].
        intros [_ [r [H _]]]. discriminate.
      * split; [discriminate | reflexivity].
Qed.

Lemma isRead_iff (file : Selection.File) :
  Selection.isRead file = true
  <-> (0 < Selection.size file < 102400)%N
      /\ (Selection.fileType file = []
          \/ includes (js "text/") (Selection.fileType file) = true
          \/ includes (js "application/json") (Selection.fileType file) = true
          \/ includes (js "application/javascript") (Selection.fileType file)
             = true
          \/ includes (js "application/xml") (Selection.fileType file) = true).
Proof.
  unfold Selection.isRead, Selection.isText, Selection.isSmall,
    Selection.MAX_INDIVIDUAL_FILE_IN_FOLDER_KB.
  change (100 * 1024)%N with 102400%N.
  rewrite negb_true_iff, !orb_false_iff, !negb_false_iff, N.ltb_lt,
    N.eqb_neq.
  assert (Hpos : Selection.size file <> 0%N <-> (0 < Selection.size file)%N)
    by lia.
  destruct (Selection.fileType file) as [|ch rest].
  - change (includes (js "text/") []) with false.
    change (includes (js "application/json") []) with false.
    change (includes (js "application/javascript") []) with false.
    change (includes (js "application/xml") []) with false.
    simpl. rewrite N.ltb_lt. intuition.
  - cbn [truthy negb andb]. rewrite orb_false_r, !orb_true_iff.
    split.
    + intros [[Ht Hs] Hz]. split; [lia|]. right. tauto.
    + intros [Hs [H|H]]; [discriminate|].
      split; [split; [tauto | lia] | lia].
Qed.

Lemma totalSize_sum (files : list Selection.File) :
  Selection.totalSize files
  = fold_right N.add 0%N (map Selection.size files).
Proof.
  unfold Selection.totalSize.
  assert (H : forall acc,
            fold_left (fun a f => (a + Selection.size f)%N) files acc
            = (acc + fold_right N.add 0 (map Selection.size files))%N).
  { induction files as [|f fs IH]; intros acc; simpl; [lia|].
    rewrite IH. lia. }
  now rewrite H.
Qed.

(** X13.  A file is read from a selected folder exactly when it belongs to
    the selection, the sizes of all selected files sum to at most 10 MiB,
    its own size is between 1 and 102399 bytes and its type is empty or
    mentions [text/], [application/json], [application/javascript] or
    [application/xml]; the files read keep the order of the selection; and
    from a folder over the limit nothing is read at all. *)
Theorem folder_file_read_iff_small_text
    (files : list Selection.File) (file : Selection.File) :
  (In file (Selection.filesRead files)
   <-> In file files
       /\ (fold_right N.add 0 (map Selection.size files) <= 10485760)%N
       /\ (0 < Selection.size file < 102400)%N
       /\ (Selection.fileType file = []
           \/ includes (js "text/") (Selection.fileType file) = true
           \/ includes (js "application/json") (Selection.fileType file)
              = true
           \/ includes (js "application/javascript")
                (Selection.fileType file) = true
           \/ includes (js "application/xml") (Selection.fileType file)
              = true))
  /\ ((fold_right N.add 0 (map Selection.size files) <= 10485760)%N ->
      Selection.filesRead files = filter Selection.isRead files)
  /\ ((10485760 < fold_right N.add 0 (map Selection.size files))%N ->
      Selection.filesRead files = []).
Proof.
  rewrite <- totalSize_sum.
  assert (Hdef : Selection.filesRead files
                 = if (10485760 <? Selection.totalSize files)%N then []
                   else filter Selection.isRead files).
  { unfold Selection.filesRead. destruct files; reflexivity. }
  rewrite Hdef.
  destruct (10485760 <? Selection.totalSize files)%N eqn:E.
  - apply N.ltb_lt in E. split; [split|split].
    + intros [].
    + intros [_ [Hle _]]. lia.
    + intros Hle. lia.
    + reflexivity.
  - apply N.ltb_ge in E. split; [|split].
    + rewrite filter_In, isRead_iff. tauto.
    + reflexivity.
    + intros Hlt. lia.
Qed.

Lemma cut_single_pre c s pre post :
  cut [c] s = Some (pre, post) -> ~ In c pre.
Proof.
  revert pre post. induction s as [|a s IH]; intros pre post; simpl.
  - discriminate.
  - destruct (c =? a)%N eqn:E; simpl.
    + intros [= <- _]. intros [].
    + destruct (cut [c] s) as [[p q]|] eqn:Ec; [|discriminate].
      intros [= <- _] [H|H].
      * subst a. rewrite N.eqb_refl in E. discriminate.
      * now apply (IH p q).
Qed.

Lemma cut_single_None c s : cut [c] s = None -> ~ In c s.
Proof.
  induction s as [|a s IH]; simpl; [intros _ []|].
  destruct (c =? a)%N eqn:E; simpl; [discriminate|].
  destruct (cut [c] s) as [[p q]|]; [discriminate|].
  intros _ [H|H].
  - subst a. rewrite N.eqb_refl in E. discriminate.
  - now apply IH.
Qed.

(** X14.  The language tag derived from a file name
    ([name.split('.').pop()]) never contains a dot; it is the whole name
    when the name has no dot, and otherwise the name is some stem, a dot,
    and the tag. *)
Theorem extensionOf_is_text_after_last_dot (name : jsstring) :
  ~ In 46%N (App.extensionOf name)
  /\ ((~ In 46%N name /\ App.extensionOf name = name)
      \/ exists stem, name = stem ++ [46%N] ++ App.extensionOf name).
Proof.
  unfold App.extensionOf.
  destruct (rcut [46%N] name) as [[stem ext]|] eqn:E.
  - split.
    + unfold rcut in E.
      destruct (cut (rev [46%N]) (rev name)) as [[postR preR]|] eqn:Ec;
        [|discriminate].
      injection E as _ <-. apply cut_single_pre in Ec.
      now rewrite <- in_rev.
    + right. exists stem. now apply rcut_spec.
  - unfold rcut in E.
    destruct (cut (rev [46%N]) (rev name)) as [[postR preR]|] eqn:Ec;
      [discriminate|].
    apply cut_single_None in Ec. rewrite <- in_rev in Ec. auto.
Qed.

(** ** Viewport: pan, bounds, rate limit, reset *)

Module PanZoomFacts.

Import Viewport.
Local Open Scope Q_scope.

Lemma clampScale_above q : MAX_SCALE <= q -> clampScale q == MAX_SCALE.
Proof.
  intros H. unfold clampScale. apply Q.min_r.
  eapply Qle_trans; [exact H | apply Q.le_max_r].
Qed.

Lemma clampScale_below q : q <= MIN_SCALE -> clampScale q == MIN_SCALE.
Proof.
  intros H. unfold clampScale. rewrite Q.max_l by exact H.
  apply Q.min_l. discriminate.
Qed.

Lemma step_wheel_dropped m e :
  wheelInThrottle m = true -> step m (Wheel e) = m.
Proof. destruct m; simpl. now intros ->. Qed.

Lemma step_noDrag m i :
  moveListening m = false -> noDragInput i = true -> step m i = m.
Proof.
  destruct m, i; simpl; try discriminate.
  - intros -> H. unfold handleMouseDown. now rewrite H.
  - now intros ->.
Qed.

End PanZoomFacts.

(** X15.  At the upper bound of the scale a zoom-in tick, and at the lower
    bound a zoom-out tick, leaves the whole transform as it is and requests
    no frame, wherever the cursor is. *)
Theorem zoom_at_a_bound_is_ignored
    (e : Viewport.WheelInput) (t : Viewport.Transform) :
  ((Viewport.scale t == 10)%Q -> (Viewport.deltaY e < 0)%Q ->
   Viewport.handleWheel e t = (t, false))
  /\ ((Viewport.scale t == 0.2)%Q -> (0 <= Viewport.deltaY e)%Q ->
      Viewport.handleWheel e t = (t, false)).
Proof.
  unfold Viewport.handleWheel, Viewport.Qlt_bool. split; intros Hs Hd.
  - assert (Hb : Qle_bool 0 (Viewport.deltaY e) = false).
    { destruct (Qle_bool 0 (Viewport.deltaY e)) eqn:E; [|reflexivity].
      apply Qle_bool_iff in E. exfalso. now apply (Qlt_not_le _ _ Hd). }
    rewrite Hb. simpl.
    assert (Hc : (Viewport.clampScale
                    (Viewport.scale t * Viewport.scaleRatio)
                  == Viewport.scale t)%Q).
    { rewrite PanZoomFacts.clampScale_above; [now rewrite Hs|].
      rewrite Hs. discriminate. }
    apply Qeq_bool_iff in Hc. now rewrite Hc.
  - assert (Hb : Qle_bool 0 (Viewport.deltaY e) = true)
      by now apply Qle_bool_iff.
    rewrite Hb. simpl.
    assert (Hc : (Viewport.clampScale
                    (Viewport.scale t / Viewport.scaleRatio)
                  == Viewport.scale t)%Q).
    { rewrite PanZoomFacts.clampScale_below; [now rewrite Hs|].
      rewrite Hs. discriminate. }
    apply Qeq_bool_iff in Hc. now rewrite Hc.
Qed.

Module RoundTripFacts.
Import Binary64 Binary64Facts RoundingFacts Viewport.
Local Open Scope Q_scope.

(** What one wheel step keeps, whichever branch it takes. *)
Lemma wheel_step_bounds e t W :
  Viewport64.inRange (scale t) ->
  Qabs (wheelClientX e - rectLeft e) <= W ->
  Qabs (wheelClientY e - rectTop e) <= W ->
  Qabs (x t) <= W -> Qabs (y t) <= W -> 1 <= W ->
  let t' := fst (Viewport64.handleWheel e t) in
  let cx := wheelClientX e - rectLeft e in
  let cy := wheelClientY e - rectTop e in
  Viewport64.inRange (scale t')
  /\ scale t' == Viewport64.targetScale e t
  /\ Qabs (x t') <= (3 # 2) * W /\ Qabs (y t') <= (3 # 2) * W
  /\ Qabs (modelPointX t' cx - modelPointX t cx) <= 30 * (unitRoundoff * W)
  /\ Qabs (modelPointY t' cy - modelPointY t cy) <= 30 * (unitRoundoff * W).
Proof.
  intros Hs HcX HcY HxW HyW HW t' cx cy.
  destruct (@ScaleFacts.targetScale_ratio e t Hs) as [Hs' [Hr1 Hr2]].
  destruct unitRoundoff_bounds as [Hu _].
  assert (HV : 0 <= unitRoundoff * W) by (apply Qmult_le_0_compat; lra).
  unfold t'. rewrite WheelFacts.handleWheel_unfold.
  destruct (Qeq_bool (Viewport64.targetScale e t) (scale t)) eqn:E; cbn [fst].
  - apply Qeq_bool_iff in E.
    assert (Hp : forall a : Q, Qabs (a - a) <= 30 * (unitRoundoff * W)).
    { intros a. setoid_replace (a - a) with 0 by ring.
      change (Qabs 0) with 0. lra. }
    assert (Hw : forall a : Q, Qabs a <= W -> Qabs a <= (3 # 2) * W).
    { intros a Ha. eapply Qle_trans; [exact Ha | lra]. }
    split; [exact Hs|]. split; [now symmetry|].
    split; [now apply Hw|]. split; [now apply Hw|].
    split; apply Hp.
  - destruct (@WheelFacts.one_axis (wheelClientX e) (rectLeft e) (x t)
                (scale t) (Viewport64.targetScale e t) W
                Hs Hs' Hr1 Hr2 HcX HxW HW) as [_ [Hx2 Hx3]].
    destruct (@WheelFacts.one_axis (wheelClientY e) (rectTop e) (y t)
                (scale t) (Viewport64.targetScale e t) W
                Hs Hs' Hr1 Hr2 HcY HyW HW) as [_ [Hy2 Hy3]].
    cbn [scale x y]. unfold modelPointX, modelPointY. cbn [scale x y].
    split; [exact Hs'|]. split; [reflexivity|].
    split; [exact Hx3|]. split; [exact Hy3|].
    split; [eapply Qle_trans; [exact Hx2 | lra]
           | eapply Qle_trans; [exact Hy2 | lra]].
Qed.

(** Dividing by a factor of at least one does not enlarge an error. *)
Lemma shrink_by_ratio (y k beta : Q) :
  1 <= k -> - beta <= y * k /\ y * k <= beta -> - beta <= y /\ y <= beta.
Proof.
  intros Hk [H1 H2].
  destruct (Qlt_le_dec y 0) as [Hy | Hy].
  - assert (H : y * k <= y * 1).
    { rewrite !(Qmult_comm y).
      setoid_replace (k * y) with (- (k * - y)) by ring.
      setoid_replace (1 * y) with (- (1 * - y)) by ring.
      apply Qopp_le_compat. apply Qmult_le_compat_r; lra. }
    split; lra.
  - assert (H : y * 1 <= y * k).
    { rewrite !(Qmult_comm y). apply Qmult_le_compat_r; lra. }
    split; lra.
Qed.

(** Multiplying by the zoom ratio and dividing by it again. *)
Lemma scale_round_trip s :
  Viewport64.inRange s ->
  Qabs (div (mul s Viewport64.scaleRatio) Viewport64.scaleRatio - s)
  <= 3 * (unitRoundoff * s).
Proof.
  intros [Hs1 Hs2].
  destruct ScaleFacts.scaleRatio_bounds as [Hk1 Hk2].
  destruct ScaleFacts.MIN_SCALE_bounds as [Hm1 _].
  destruct unitRoundoff_bounds as [Hu0 Hu1], eta_bounds as [He0 He1].
  unfold Viewport64.MAX_SCALE in Hs2. unfold div, mul.
  set (k := Viewport64.scaleRatio) in *. set (u := unitRoundoff) in *.
  set (V := u * s).
  assert (HV1 : (1 # 5) * u <= V).
  { unfold V. rewrite (Qmult_comm u s). apply Qmult_le_compat_r; lra. }
  assert (HV2 : V <= (1 # 1000000) * s).
  { unfold V. apply Qmult_le_compat_r; lra. }
  assert (Hp1 : (11 # 10) * s <= s * k).
  { rewrite (Qmult_comm s). apply Qmult_le_compat_r; lra. }
  assert (Hp2 : s * k <= (1101 # 1000) * s).
  { rewrite (Qmult_comm s). apply Qmult_le_compat_r; lra. }
  set (p := s * k) in *.
  assert (Hp : - ((1101 # 1000) * s) <= p /\ p <= (1101 # 1000) * s)
    by (split; lra).
  assert (E1 := @round_within p _ (proj2 (Qabs_bounds _ _) Hp)).
  set (s1 := round p) in *. fold u in E1.
  setoid_replace (u * ((1101 # 1000) * s)) with ((1101 # 1000) * V) in E1
    by (unfold V; ring).
  set (q := s1 / k).
  assert (Hq : (q - s) * k == s1 - p) by (unfold q, p; field; lra).
  assert (Hy : - ((1101 # 1000) * V + eta) <= q - s
               /\ q - s <= (1101 # 1000) * V + eta).
  { apply (@shrink_by_ratio (q - s) k); [lra|]. rewrite Hq. exact E1. }
  assert (Hqb : - ((11 # 10) * s) <= q /\ q <= (11 # 10) * s) by (split; lra).
  assert (E2 := @round_within q _ (proj2 (Qabs_bounds _ _) Hqb)).
  set (s2 := round q) in *. fold u in E2.
  setoid_replace (u * ((11 # 10) * s)) with ((11 # 10) * V) in E2
    by (unfold V; ring).
  apply Qabs_bounds. fold V. split; lra.
Qed.

Lemma clampScale_id q : Viewport64.inRange q -> Viewport64.clampScale q == q.
Proof.
  intros [Hlo Hhi]. unfold Viewport64.clampScale.
  rewrite Q.min_l; [apply Q.max_r; exact Hlo|].
  rewrite Q.max_r; assumption.
Qed.

Lemma targetScale_in e t :
  deltaY e < 0 ->
  Viewport64.targetScale e t
  = Viewport64.clampScale (mul (scale t) Viewport64.scaleRatio).
Proof.
  intros Hd. unfold Viewport64.targetScale, Qlt_bool.
  destruct (Qle_bool 0 (deltaY e)) eqn:E; [|reflexivity].
  apply Qle_bool_iff in E. exfalso. now apply (Qlt_not_le _ _ Hd).
Qed.

Lemma targetScale_out e t :
  0 <= deltaY e ->
  Viewport64.targetScale e t
  = Viewport64.clampScale (div (scale t) Viewport64.scaleRatio).
Proof.
  intros Hd. unfold Viewport64.targetScale, Qlt_bool.
  apply Qle_bool_iff in Hd. now rewrite Hd.
Qed.

(** The translate in terms of the point under the cursor. *)
Lemma translate_shift (c s s2 x0 x2 : Q) :
  0 < s -> 0 < s2 ->
  x2 - x0
  == ((c - x0) / s - (c - x2) / s2) * s2 + (c - x0) * ((s - s2) / s).
Proof. intros Hs Hs2. field. split; lra. Qed.

End RoundTripFacts.

(** X16.  Zooming in by one tick and then out by one tick with the cursor
    at the same place, in binary64 arithmetic, from a scale in the
    admissible range that the first tick does not push beyond 10, and with
    cursor and translate of magnitude at most [W]: the transform comes back
    to where it was up to rounding.  The scale returns to within a relative
    error of [3 * 2^-53], the diagram point under the cursor to within
    [75 * 2^-53 * W], and each translate component to within
    [756 * 2^-53 * W]. *)
Theorem zoom_in_then_out_restores_within_rounding
    (zin zout : Viewport.WheelInput) (t : Viewport.Transform) (W : Q) :
  (Viewport.deltaY zin < 0)%Q -> (0 <= Viewport.deltaY zout)%Q ->
  Viewport.wheelClientX zout = Viewport.wheelClientX zin ->
  Viewport.rectLeft zout = Viewport.rectLeft zin ->
  Viewport.wheelClientY zout = Viewport.wheelClientY zin ->
  Viewport.rectTop zout = Viewport.rectTop zin ->
  Viewport64.inRange (Viewport.scale t) ->
  (Binary64.mul (Viewport.scale t) Viewport64.scaleRatio <= 10)%Q ->
  let cursorX := (Viewport.wheelClientX zin - Viewport.rectLeft zin)%Q in
  let cursorY := (Viewport.wheelClientY zin - Viewport.rectTop zin)%Q in
  (Qabs cursorX <= W)%Q -> (Qabs cursorY <= W)%Q ->
  (Qabs (Viewport.x t) <= W)%Q -> (Qabs (Viewport.y t) <= W)%Q ->
  (1 <= W)%Q -> (W <= Binary64.pow2 1000)%Q ->
  let t1 := fst (Viewport64.handleWheel zin t) in
  let t2 := fst (Viewport64.handleWheel zout t1) in
  let u := Binary64.unitRoundoff in
  (Qabs (Viewport.scale t2 - Viewport.scale t)
   <= 3 * (u * Viewport.scale t))%Q
  /\ (Qabs (Viewport.modelPointX t2 cursorX - Viewport.modelPointX t cursorX)
      <= 75 * (u * W))%Q
  /\ (Qabs (Viewport.modelPointY t2 cursorY - Viewport.modelPointY t cursorY)
      <= 75 * (u * W))%Q
  /\ (Qabs (Viewport.x t2 - Viewport.x t) <= 756 * (u * W))%Q
  /\ (Qabs (Viewport.y t2 - Viewport.y t) <= 756 * (u * W))%Q.
Proof.
  intros Hin Hout EcX ErL EcY ErT Hs Hun cursorX cursorY HcX HcY HxW HyW HW _
    t1 t2 u.
  destruct RoundingFacts.unitRoundoff_bounds as [Hu0 Hu1].
  destruct ScaleFacts.MIN_SCALE_bounds as [Hm _].
  fold u in Hu0, Hu1.
  set (s := Viewport.scale t) in *.
  assert (Hs0 : (0 < s)%Q) by (destruct Hs; lra).
  (* first step *)
  destruct (@RoundTripFacts.wheel_step_bounds zin t W Hs HcX HcY HxW HyW HW)
    as [Hs1 [Es1 [Hx1 [Hy1 [Px1 Py1]]]]].
  fold t1 cursorX cursorY u in Hs1, Es1, Hx1, Hy1, Px1, Py1.
  assert (Et1 : (Viewport.scale t1
                 == Binary64.mul s Viewport64.scaleRatio)%Q).
  { rewrite Es1, (@RoundTripFacts.targetScale_in zin t Hin).
    apply RoundTripFacts.clampScale_id.
    destruct (@ScaleFacts.zoomIn_ratio s Hs) as [Hlo _].
    destruct Hs as [Hs _]. split; [lra | exact Hun]. }
  (* second step, with magnitudes within 3/2 W *)
  assert (HW' : (1 <= (3 # 2) * W)%Q) by lra.
  assert (HcX' : (Qabs (Viewport.wheelClientX zout - Viewport.rectLeft zout)
                  <= (3 # 2) * W)%Q).
  { rewrite EcX, ErL. eapply Qle_trans; [exact HcX | lra]. }
  assert (HcY' : (Qabs (Viewport.wheelClientY zout - Viewport.rectTop zout)
                  <= (3 # 2) * W)%Q).
  { rewrite EcY, ErT. eapply Qle_trans; [exact HcY | lra]. }
  destruct (@RoundTripFacts.wheel_step_bounds zout t1 ((3 # 2) * W)
              Hs1 HcX' HcY' Hx1 Hy1 HW')
    as [Hs2 [Es2 [_ [_ [Px2 Py2]]]]].
  rewrite EcX, ErL in Px2. rewrite EcY, ErT in Py2.
  fold t2 cursorX cursorY u in Hs2, Es2, Px2, Py2.
  (* the scale *)
  pose proof (@RoundTripFacts.scale_round_trip s Hs) as Hrt.
  fold u in Hrt.
  assert (Hq : (Binary64.div (Viewport.scale t1) Viewport64.scaleRatio
                == Binary64.div (Binary64.mul s Viewport64.scaleRatio)
                     Viewport64.scaleRatio)%Q).
  { unfold Binary64.div. apply Binary64Facts.round_comp.
    now rewrite Et1. }
  assert (Hscale : (Qabs (Viewport.scale t2 - s) <= 3 * (u * s))%Q).
  { apply RoundingFacts.Qabs_bounds in Hrt. rewrite <- Hq in Hrt.
    assert (HV : (0 <= u * s)%Q) by (apply Qmult_le_0_compat; lra).
    destruct (@ScaleFacts.clampScale_between
                (Binary64.div (Viewport.scale t1) Viewport64.scaleRatio)
                s (s - 3 * (u * s))%Q (s + 3 * (u * s))%Q Hs)
      as [Ha Hb]; try lra.
    rewrite <- (@RoundTripFacts.targetScale_out zout t1 Hout), <- Es2
      in Ha, Hb.
    apply RoundingFacts.Qabs_bounds. split; lra. }
  split; [exact Hscale|].
  (* the point under the cursor *)
  assert (Htri : forall a b c' A B : Q,
            (Qabs (a - b) <= A)%Q -> (Qabs (b - c') <= B)%Q ->
            (Qabs (a - c') <= A + B)%Q).
  { intros a b c' A B H1 H2.
    setoid_replace (a - c')%Q with ((a - b) + (b - c'))%Q by ring.
    eapply Qle_trans; [apply Qabs_triangle|]. now apply Qplus_le_compat. }
  assert (HPx : (Qabs (Viewport.modelPointX t2 cursorX
                       - Viewport.modelPointX t cursorX) <= 75 * (u * W))%Q).
  { eapply Qle_trans; [apply (Htri _ _ _ _ _ Px2 Px1)|].
    apply Qle_lteq. right. ring. }
  assert (HPy : (Qabs (Viewport.modelPointY t2 cursorY
                       - Viewport.modelPointY t cursorY) <= 75 * (u * W))%Q).
  { eapply Qle_trans; [apply (Htri _ _ _ _ _ Py2 Py1)|].
    apply Qle_lteq. right. ring. }
  split; [exact HPx|]. split; [exact HPy|].
  (* the translate *)
  assert (Hs2' : (0 < Viewport.scale t2 /\ Viewport.scale t2 <= 10)%Q)
    by (destruct Hs2 as [Hlo Hhi]; unfold Viewport64.MAX_SCALE in Hhi;
        split; lra).
  assert (Hratio : (- (3 * u) <= (s - Viewport.scale t2) / s
                    /\ (s - Viewport.scale t2) / s <= 3 * u)%Q).
  { rewrite Qabs_Qminus in Hscale.
    apply RoundingFacts.Qabs_bounds in Hscale. destruct Hscale as [H1 H2].
    split.
    - apply Qle_shift_div_l; [exact Hs0|].
      setoid_replace (- (3 * u) * s)%Q with (- (3 * (u * s)))%Q by ring.
      exact H1.
    - apply Qle_shift_div_r; [exact Hs0|].
      setoid_replace (3 * u * s)%Q with (3 * (u * s))%Q by ring.
      exact H2. }
  assert (Haxis : forall c x0 x2 : Q,
            (Qabs c <= W)%Q -> (Qabs x0 <= W)%Q ->
            (Qabs ((c - x2) / Viewport.scale t2 - (c - x0) / s)
             <= 75 * (u * W))%Q ->
            (Qabs (x2 - x0) <= 756 * (u * W))%Q).
  { intros c x0 x2 Hc Hx HP.
    rewrite (@RoundTripFacts.translate_shift c s (Viewport.scale t2) x0 x2
               Hs0 (proj1 Hs2')).
    rewrite Qabs_Qminus in HP.
    apply RoundingFacts.Qabs_bounds in HP.
    apply RoundingFacts.Qabs_bounds in Hc.
    apply RoundingFacts.Qabs_bounds in Hx.
    assert (Hsb : (- (10 # 1) <= Viewport.scale t2
                   /\ Viewport.scale t2 <= 10 # 1)%Q) by (split; lra).
    pose proof (RoundingFacts.product_within HP Hsb) as H1.
    assert (Hcx : (- (2 * W) <= c - x0 /\ c - x0 <= 2 * W)%Q)
      by (split; lra).
    pose proof (RoundingFacts.product_within Hcx Hratio) as H2.
    setoid_replace (2 * W * (3 * u))%Q with (6 * (u * W))%Q in H2 by ring.
    setoid_replace (75 * (u * W) * (10 # 1))%Q with (750 * (u * W))%Q in H1
      by ring.
    set (A := (((c - x0) / s - (c - x2) / Viewport.scale t2)
               * Viewport.scale t2)%Q) in *.
    set (B := ((c - x0) * ((s - Viewport.scale t2) / s))%Q) in *.
    set (V := (u * W)%Q) in *.
    apply RoundingFacts.Qabs_bounds. split; lra. }
  split.
  - apply (Haxis cursorX); assumption.
  - apply (Haxis cursorY); assumption.
Qed.

Module PanFacts.
Import Binary64 Binary64Facts RoundingFacts Viewport.
Local Open Scope Q_scope.

(** The rounding error of [start + (client - press)]. *)
Lemma pan_translate_error (press client start W : Q) :
  Qabs press <= W -> Qabs client <= W -> Qabs start <= W -> 1 <= W ->
  Qabs (add start (sub client press) - (start + (client - press)))
  <= 6 * (unitRoundoff * W).
Proof.
  intros Hp Hc Hs HW. unfold add, sub.
  destruct unitRoundoff_bounds as [Hu0 Hu1], eta_bounds as [He0 He1].
  set (u := unitRoundoff) in *. set (V := u * W).
  assert (HuV : u <= V).
  { unfold V. rewrite <- (Qmult_1_r u) at 1.
    apply Qmult_le_l; assumption. }
  assert (HVW : V <= (1 # 1000000) * W).
  { unfold V. apply Qmult_le_compat_r; [exact Hu1 | lra]. }
  apply Qabs_bounds in Hp. apply Qabs_bounds in Hc. apply Qabs_bounds in Hs.
  set (A := client - press).
  assert (HA : - (2 * W) <= A /\ A <= 2 * W) by (unfold A; split; lra).
  assert (E1 := @round_within A _ (proj2 (Qabs_bounds _ _) HA)).
  set (d := round A) in *. fold u in E1.
  setoid_replace (u * (2 * W)) with (2 * V) in E1 by (unfold V; ring).
  set (S := start + d).
  assert (HS : - ((31 # 10) * W) <= S /\ S <= (31 # 10) * W)
    by (unfold S; split; lra).
  assert (E2 := @round_within S _ (proj2 (Qabs_bounds _ _) HS)).
  set (x' := round S) in *. fold u in E2.
  setoid_replace (u * ((31 # 10) * W)) with ((31 # 10) * V) in E2
    by (unfold V; ring).
  apply Qabs_bounds. fold V. unfold S, A in *. split; lra.
Qed.

End PanFacts.

(** X17.  Dragging with the primary button, in binary64 arithmetic, with
    press, cursor and translate of magnitude at most [W] and the viewport's
    corner at [(left, top)]: after a press at [(px, py)] and a move to
    [(cx, cy)] the scale is unchanged, each translate component is the
    component at the press plus the cursor displacement (both operations
    rounded), within [6 * 2^-53 * W] of the exact sum, and the diagram point
    that was under the cursor at the press is under the cursor after the
    move up to that tolerance divided by the scale.  The position follows
    the latest move only: a second move to [(dx, dy)] gives what it would
    give as the first move, not an accumulation. *)
Theorem pan_keeps_grabbed_point_under_cursor
    (m : Viewport.Modal) (px py cx cy dx dy left top W : Q) :
  let t := Viewport.transformRef m in
  let d := Viewport.drag (Viewport.handleMouseDown 0 px py m) in
  let t' := Viewport64.handleMouseMove d cx cy t in
  let tolerance := (6 * (Binary64.unitRoundoff * W))%Q in
  (0 < Viewport.scale t)%Q ->
  (Qabs px <= W)%Q -> (Qabs py <= W)%Q ->
  (Qabs cx <= W)%Q -> (Qabs cy <= W)%Q ->
  (Qabs (Viewport.x t) <= W)%Q -> (Qabs (Viewport.y t) <= W)%Q ->
  (1 <= W)%Q -> (W <= Binary64.pow2 1000)%Q ->
  Viewport.scale t' = Viewport.scale t
  /\ Viewport.x t' = Binary64.add (Viewport.x t) (Binary64.sub cx px)
  /\ Viewport.y t' = Binary64.add (Viewport.y t) (Binary64.sub cy py)
  /\ (Qabs (Viewport.x t' - (Viewport.x t + (cx - px))) <= tolerance)%Q
  /\ (Qabs (Viewport.y t' - (Viewport.y t + (cy - py))) <= tolerance)%Q
  /\ (Qabs (Viewport.modelPointX t' (cx - left)
            - Viewport.modelPointX t (px - left))
      <= tolerance / Viewport.scale t)%Q
  /\ (Qabs (Viewport.modelPointY t' (cy - top)
            - Viewport.modelPointY t (py - top))
      <= tolerance / Viewport.scale t)%Q
  /\ Viewport64.handleMouseMove d dx dy t'
     = Viewport64.handleMouseMove d dx dy t.
Proof.
  intros t d t' tolerance Hs Hpx Hpy Hcx Hcy Hx Hy HW _.
  pose proof (@PanFacts.pan_translate_error px cx (Viewport.x t) W
                Hpx Hcx Hx HW) as Ex.
  pose proof (@PanFacts.pan_translate_error py cy (Viewport.y t) W
                Hpy Hcy Hy HW) as Ey.
  assert (Hshift : forall c p l x0 x1 s : Q,
            (0 < s)%Q ->
            (Qabs (x1 - (x0 + (c - p))) <= tolerance)%Q ->
            (Qabs ((c - l - x1) / s - (p - l - x0) / s)
             <= tolerance / s)%Q).
  { intros c p l x0 x1 s Hs0 H.
    setoid_replace ((c - l - x1) / s - (p - l - x0) / s)%Q
      with (- (x1 - (x0 + (c - p))) / s)%Q by (field; lra).
    unfold Qdiv. rewrite Qabs_Qmult, Qabs_opp, Qabs_Qinv, (Qabs_pos s) by lra.
    apply Qmult_le_compat_r; [exact H|].
    apply Qlt_le_weak, Qinv_lt_0_compat, Hs0. }
  split; [reflexivity|]. split; [reflexivity|]. split; [reflexivity|].
  split; [exact Ex|]. split; [exact Ey|].
  split; [apply Hshift; [exact Hs | exact Ex]|].
  split; [apply Hshift; [exact Hs | exact Ey]|].
  reflexivity.
Qed.

Lemma wheels_dropped (es : list Viewport.WheelInput) : forall m,
  Viewport.wheelInThrottle m = true ->
  Viewport.run m (map Viewport.Wheel es) = m.
Proof.
  unfold Viewport.run. induction es as [|e es IH]; intros m H.
  - reflexivity.
  - cbn [map fold_left].
    rewrite (@PanZoomFacts.step_wheel_dropped m e H). now apply IH.
Qed.

(** X18.  Rate limit: of any burst of wheel events that arrive before the
    throttle timer fires, only the first one is processed, and while the
    throttle flag is set a burst changes nothing at all. *)
Theorem wheel_burst_counts_once
    (m : Viewport.Modal) (e : Viewport.WheelInput)
    (es : list Viewport.WheelInput) :
  (Viewport.wheelInThrottle m = false ->
   Viewport.run m (Viewport.Wheel e :: map Viewport.Wheel es)
   = Viewport.run m [Viewport.Wheel e])
  /\ (Viewport.wheelInThrottle m = true ->
      Viewport.run m (Viewport.Wheel e :: map Viewport.Wheel es) = m).
Proof.
  split; intros H.
  - change (Viewport.run m (Viewport.Wheel e :: map Viewport.Wheel es))
      with (Viewport.run (Viewport.step m (Viewport.Wheel e))
              (map Viewport.Wheel es)).
    apply wheels_dropped. destruct m. simpl in H. subst. reflexivity.
  - apply (wheels_dropped (e :: es)). exact H.
Qed.

(** X19.  Without a primary-button press in progress, pointer moves and
    presses of other buttons leave the whole modal state unchanged: the
    diagram cannot be dragged with a secondary button, nor moved after the
    button was released. *)
Theorem no_pan_without_primary_button
    (m : Viewport.Modal) (inputs : list Viewport.Input) :
  Viewport.moveListening m = false ->
  forallb noDragInput inputs = true ->
  Viewport.run m inputs = m
  /\ Viewport.run (Viewport.step m Viewport.MouseUp) inputs
     = Viewport.step m Viewport.MouseUp.
Proof.
  intros Hm Hi.
  assert (H : forall m', Viewport.moveListening m' = false ->
                         Viewport.run m' inputs = m').
  { unfold Viewport.run. clear m Hm.
    induction inputs as [|i rest IH]; intros m' Hm'; [reflexivity|].
    cbn [forallb] in Hi. apply andb_prop in Hi as [Hi Hrest].
    cbn [fold_left].
    rewrite (@PanZoomFacts.step_noDrag m' i Hm' Hi). now apply IH. }
  split; [now apply H | apply H; reflexivity].
Qed.

(** X20.  Reset restores the identity transform whatever happened before,
    and the next animation frame displays it (a frame requested by an
    earlier gesture cannot bring the old transform back). *)
Theorem reset_restores_identity
    (m : Viewport.Modal) (inputs : list Viewport.Input) :
  let m' := Viewport.run m
              (inputs ++ [Viewport.ResetControl; Viewport.AnimationFrame]) in
  Viewport.transformRef m' = Viewport.identity
  /\ Viewport.styleTransform m' = Viewport.identity.
Proof.
  unfold Viewport.run. rewrite fold_left_app. simpl.
  unfold Viewport.animationFrame. simpl.
  destruct (Viewport.framePending (fold_left Viewport.step inputs m));
    split; reflexivity.
Qed.

(** ** Autoscroll *)

Module ScrollMore.

Import ChatHistory.

Lemma step_affordance st ev :
  (shouldAutoScroll st = false -> showScrollButton st = true) ->
  shouldAutoScroll (step st ev) = false -> showScrollButton (step st ev) = true.
Proof.
  intros H. destruct ev as [messages|container]; simpl.
  - unfold messagesEffect. destruct (lastIsUser messages); simpl.
    + discriminate.
    + destruct (shouldAutoScroll st) eqn:E; simpl; rewrite E; auto.
  - destruct (isAtBottom container); simpl; [discriminate | reflexivity].
Qed.

End ScrollMore.

(** X21.  From the initial state and after any sequence of transcript
    changes and scroll events, whenever the scroll intent is false the
    scroll-to-bottom button is shown: the user is never left scrolled up
    without the button. *)
Theorem button_shown_whenever_intent_false (evs : list ChatHistory.Event) :
  ChatHistory.shouldAutoScroll (ChatHistory.run ChatHistory.initial evs)
  = false ->
  ChatHistory.showScrollButton (ChatHistory.run ChatHistory.initial evs)
  = true.
Proof.
  unfold ChatHistory.run.
  assert (H : forall st,
            (ChatHistory.shouldAutoScroll st = false ->
             ChatHistory.showScrollButton st = true) ->
            ChatHistory.shouldAutoScroll (fold_left ChatHistory.step evs st)
            = false ->
            ChatHistory.showScrollButton (fold_left ChatHistory.step evs st)
            = true).
  { induction evs as [|ev rest IH]; intros st Hst; simpl; [exact Hst|].
    apply IH. now apply ScrollMore.step_affordance. }
  apply H. discriminate.
Qed.

(** X22.  Scrolling further down never clears the intent: if the view
    counts as at the bottom at some scroll position, it does so at every
    larger one (same heights); and a transcript that fits in the viewport
    counts as at the bottom at every non-negative scroll position. *)
Theorem at_bottom_is_monotone
    (scrollHeight clientHeight top top' : Q) :
  ((top <= top')%Q ->
   ChatHistory.isAtBottom
     {| ChatHistory.scrollHeight := scrollHeight;
        ChatHistory.clientHeight := clientHeight;
        ChatHistory.scrollTop := top |} = true ->
   ChatHistory.isAtBottom
     {| ChatHistory.scrollHeight := scrollHeight;
        ChatHistory.clientHeight := clientHeight;
        ChatHistory.scrollTop := top' |} = true)
  /\ ((scrollHeight <= clientHeight)%Q -> (0 <= top)%Q ->
      ChatHistory.isAtBottom
        {| ChatHistory.scrollHeight := scrollHeight;
           ChatHistory.clientHeight := clientHeight;
           ChatHistory.scrollTop := top |} = true).
Proof.
  unfold ChatHistory.isAtBottom, ChatHistory.scrollThreshold,
    Binary64.sub, Binary64.add.
  cbn [ChatHistory.scrollHeight ChatHistory.clientHeight
       ChatHistory.scrollTop].
  split.
  - intros Hle H. apply Qle_bool_iff in H. apply Qle_bool_iff.
    eapply Qle_trans; [exact H|]. apply Binary64Facts.round_mono. lra.
  - intros Hfit Htop. apply Qle_bool_iff.
    apply Qle_trans with (Binary64.round 0).
    + apply Binary64Facts.round_mono. lra.
    + apply Binary64Facts.round_mono. lra.
Qed.

(** ** Diagram engine *)

(** X23.  A compilation that settles after the component was unmounted
    writes nothing: the component state is unchanged whether the
    compilation succeeded or failed. *)
Theorem late_diagram_result_is_discarded
    (svgOuterHTML : jsstring -> option jsstring)
    (outcome : Diagram.RenderOutcome) (st : Diagram.State) :
  Diagram.renderDiagram_settled svgOuterHTML false outcome st = st.
Proof.
  unfold Diagram.renderDiagram_settled.
  destruct outcome as [rawSvg|error]; [|reflexivity].
  destruct (svgOuterHTML rawSvg); reflexivity.
Qed.

(** X24.  When the compilation succeeds on a mounted component and the
    stored markup starts with ["<svg"], loading ends, the markup is shown,
    all three toolbar actions are offered, a click opens the modal and the
    download saves exactly the stored markup.  The stored markup is the
    normalised [svg] element when the compiled markup has one, else the
    compiled markup itself. *)
Theorem rendered_diagram_offers_all_actions
    (svgOuterHTML : jsstring -> option jsstring)
    (rawSvg : jsstring) (st : Diagram.State) :
  let st' := Diagram.renderDiagram_settled svgOuterHTML true
               (Diagram.Resolved rawSvg) st in
  Diagram.svg st'
  = match svgOuterHTML rawSvg with Some outer => outer | None => rawSvg end
  /\ (startsWith (js "<svg") (trim (Diagram.svg st')) = true ->
      Diagram.displayedMarkup st' = Some (Diagram.svg st')
      /\ Diagram.toolbar st'
         = [Diagram.CopyAction; Diagram.DownloadAction; Diagram.ExpandAction]
      /\ Diagram.isModalOpen (Diagram.clickDiagram st') = true
      /\ Diagram.handleDownload st' = Some (Diagram.svg st')).
Proof.
  intros st'.
  assert (Hl : Diagram.isLoading st' = false).
  { unfold st', Diagram.renderDiagram_settled.
    destruct (svgOuterHTML rawSvg); reflexivity. }
  split.
  - unfold st', Diagram.renderDiagram_settled.
    destruct (svgOuterHTML rawSvg); reflexivity.
  - intros Hs.
    assert (Hok : Diagram.isRenderSuccess st' = true) by exact Hs.
    assert (Ht : truthy (Diagram.svg st') = true).
    { destruct (Diagram.svg st'); [discriminate Hs | reflexivity]. }
    unfold Diagram.displayedMarkup, Diagram.toolbar, Diagram.clickDiagram,
      Diagram.handleDownload.
    rewrite Hl, Hok, Hs, Ht. repeat split.
Qed.

(** ** The "thinking" row *)

Lemma consumeChunks_trailing_model m chunks prev ph :
  App.role ph = App.MODEL ->
  exists z,
    fst (App.consumeChunks m (prev ++ [ph], []) chunks) = prev ++ [z]
    /\ App.role z = App.MODEL.
Proof.
  intros Hph.
  pose proof (consumeChunks_general m chunks (prev ++ [ph]) []) as Hg.
  cbv zeta in Hg.
  set (ms := fst (App.consumeChunks m (prev ++ [ph], []) chunks)).
  assert (Hl : length ms = length (prev ++ [ph])) by apply Hg.
  assert (Hr : removelast ms = removelast (prev ++ [ph])) by apply Hg.
  assert (Hlast : chunks <> [] -> prev ++ [ph] <> [] ->
                  last ms (App.modelMessage [] m)
                  = App.modelMessage ([] ++ concat (map chunkText chunks)) m)
    by apply Hg.
  assert (Ems : chunks = [] -> ms = prev ++ [ph])
    by (intros ->; reflexivity).
  clearbody ms. clear Hg.
  destruct (@exists_last _ ms) as [l' [z E]].
  - intros H0. rewrite H0, length_app in Hl. simpl in Hl. lia.
  - rewrite E in Hr, Hlast. rewrite !removelast_last in Hr. subst l'.
    exists z. split; [exact E|]. rewrite last_last in Hlast.
    destruct chunks as [|c cs].
    + rewrite (Ems eq_refl) in E. apply app_inj_tail in E as [_ <-].
      exact Hph.
    + rewrite Hlast; [reflexivity | discriminate |].
      destruct prev; discriminate.
Qed.

(** X25.  The "thinking" row is shown once the user's message is in the
    transcript and loading is on; it is hidden as soon as the reply starts
    to stream, whatever number of chunks has arrived, and it is hidden when
    the handler has finished, however it finished. *)
Theorem thinking_row_lifecycle
    (transport : App.ModelName -> list App.Content -> App.Language
                 -> App.StreamResult)
    (st : App.AppState) (prompt : jsstring)
    (attachment : option App.Attachment)
    (folder : option App.ProcessedFolder) :
  let user := {| App.role := App.USER; App.content := prompt;
                 App.attachment := attachment; App.folder := folder;
                 App.model := None |} in
  thinkingIndicator true (App.messages st ++ [user]) = true
  /\ (forall contents chunks failure k,
        App.buildContents (App.messages st) prompt attachment folder
        = Ok contents ->
        transport (App.selectedModel st) contents (App.language st)
        = App.Stream chunks failure ->
        let st_k := App.handleSendMessage_upto transport (Some k) st prompt
                      attachment folder in
        thinkingIndicator (App.isLoading st_k) (App.messages st_k) = false)
  /\ (let st' := App.handleSendMessage transport st prompt attachment folder
      in thinkingIndicator (App.isLoading st') (App.messages st') = false).
Proof.
  intros user. split; [|split].
  - unfold thinkingIndicator. rewrite ScrollFacts.lastIsUser_snoc.
    rewrite length_app. simpl.
    replace (length (App.messages st) + 1 =? 0)%nat with false; [reflexivity|].
    symmetry. apply Nat.eqb_neq. lia.
  - intros contents chunks failure k Hb Ht.
    unfold App.handleSendMessage_upto. rewrite Hb, Ht.
    cbn [App.setMessages App.messages App.isLoading].
    destruct (@consumeChunks_trailing_model (App.selectedModel st)
                (firstn k chunks) (App.messages st ++ [user])
                (App.modelMessage [] (App.selectedModel st)) eq_refl)
      as [z [Hz Hr]].
    fold user. rewrite Hz. unfold thinkingIndicator.
    rewrite ScrollFacts.lastIsUser_snoc, Hr. apply andb_false_r.
  - unfold App.handleSendMessage, App.handleSendMessage_upto. fold user.
    destruct (App.buildContents _ _ _ _) as [contents|e]; [|reflexivity].
    destruct (transport _ _ _) as [e|chunks failure]; [reflexivity|].
    destruct failure; reflexivity.
Qed.

(** ** Instances of the further properties *)

(** X1 on a message of two spaces. *)
Lemma blank_message_renders_nothing_witness :
  FormattedContent Examples.plainMarkdown Examples.stripAngle (js "  ") = [].
Proof.
  apply (proj2 (blank_message_renders_nothing Examples.plainMarkdown
                  Examples.stripAngle (js "  "))).
  reflexivity.
Defined.

(** X4 on a PNG data URL. *)
Lemma fileToPart_accepts_base64_data_urls_witness :
  exists mimeType base64Data,
    App.fileToPart (js "data:" ++ js "image/png" ++ js ";base64," ++ js "AAAA")
    = Ok (App.InlineData base64Data mimeType).
Proof.
  apply (proj2 (proj2 (fileToPart_accepts_base64_data_urls
                         (js "bogus") (js "image/png") (js "AAAA")))
           eq_refl eq_refl).
Defined.

(** X5 on the same URL. *)
Lemma fileToPart_round_trip_witness :
  App.fileToPart (js "data:" ++ js "image/png" ++ js ";base64," ++ js "AAAA")
  = Ok (App.InlineData (js "AAAA") (js "image/png")).
Proof.
  apply (@fileToPart_round_trip (js "image/png") (js "AAAA")
           eq_refl eq_refl eq_refl).
Defined.

(** X6 on the greeting followed by a placeholder, with one chunk that has
    no text. *)
Lemma streaming_touches_only_the_last_entry_witness :
  last (fst (App.consumeChunks App.gemini_2_5_pro
               ([Examples.greeting;
                 App.modelMessage [] App.gemini_2_5_pro], [])
               [Some (js "a"); None]))
       (App.modelMessage [] App.gemini_2_5_pro)
  = App.modelMessage (js "aundefined") App.gemini_2_5_pro.
Proof.
  apply (proj2 (proj2 (streaming_touches_only_the_last_entry
                         App.gemini_2_5_pro
                         [Examples.greeting;
                          App.modelMessage [] App.gemini_2_5_pro]
                         [Some (js "a"); None])));
    discriminate.
Defined.

(** X8 with the transport that breaks after "par", "tial". *)
Lemma transport_failure_keeps_partial_reply_witness :
  map App.content
    (App.messages
       (App.handleSendMessage Cases.breaking Examples.idle (js "hi")
          None None))
  = [js "Hello!"; js "hi"; js "partial";
     js "Sorry, I encountered an error. Please try again. Details: network down"].
Proof.
  pose proof (@transport_failure_keeps_partial_reply Cases.breaking
                Examples.idle (js "hi") None None _
                [js "par"; js "tial"] (ErrorObject (js "network down"))
                eq_refl) as H.
  cbv zeta in H. rewrite (proj1 (proj1 H eq_refl)). reflexivity.
Defined.

(** X9 on a transcript with the greeting and a message with a picture. *)
Lemma request_mirrors_transcript_without_greeting_witness :
  App.buildContents [Examples.greeting; Cases.withPicture] (js "and now?")
    None None
  = Ok [ {| App.contentRole := App.USER;
            App.parts := [App.InlineData (js "iVBORw0KGgo=") (js "image/png");
                          App.TextPart (js "what is this?")] |};
         {| App.contentRole := App.USER;
            App.parts := [App.TextPart (js "and now?")] |} ]
  /\ Forall wellFormedContent
       [ {| App.contentRole := App.USER;
            App.parts := [App.InlineData (js "iVBORw0KGgo=") (js "image/png");
                          App.TextPart (js "what is this?")] |};
         {| App.contentRole := App.USER;
            App.parts := [App.TextPart (js "and now?")] |} ].
Proof.
  split; [reflexivity|].
  apply (@request_mirrors_transcript_without_greeting
           [Examples.greeting; Cases.withPicture] (js "and now?") None None
           _ eq_refl).
Defined.

(** X10 on the same transcript. *)
Lemma request_built_iff_attachments_decode_witness :
  exists contents,
    App.buildContents [Examples.greeting; Cases.withPicture] (js "and now?")
      None None = Ok contents.
Proof.
  apply (proj2 (proj1 (request_built_iff_attachments_decode
                         [Examples.greeting; Cases.withPicture]
                         (js "and now?") None None))).
  reflexivity.
Defined.

(** X11 on an empty composer. *)
Lemma performSubmit_sends_iff_something_to_send_witness :
  fst (ChatInput.performSubmit ChatInput.cleared false) = ChatInput.cleared.
Proof.
  apply (proj1 (proj2 (performSubmit_sends_iff_something_to_send
                         ChatInput.cleared false))).
  reflexivity.
Defined.

(** X12 on a 5 MiB picture chosen while another attachment is pending. *)
Lemma processFile_attaches_or_reports_witness :
  ChatInput.error
    (Selection.processFile Cases.bigPicture (Selection.Loaded (js "data:"))
       Examples.pending)
  <> None.
Proof.
  apply (proj1 (proj2 (proj2 (proj2 (processFile_attaches_or_reports
                                       Cases.bigPicture
                                       (Selection.Loaded (js "data:"))
                                       Examples.pending))))).
  reflexivity.
Defined.

(** X13 on a folder of two files: the JSON file is read. *)
Lemma folder_file_read_iff_small_text_witness :
  In Cases.smallJson (Selection.filesRead [Cases.notes; Cases.smallJson])
  /\ Selection.filesRead Cases.bigFolder = [].
Proof.
  split.
  - apply (proj2 (proj1 (folder_file_read_iff_small_text
                           [Cases.notes; Cases.smallJson] Cases.smallJson))).
    split; [right; left; reflexivity|]. split; [vm_compute; discriminate|].
    split; [split; reflexivity|]. right. right. left. reflexivity.
  - apply (proj2 (proj2 (folder_file_read_iff_small_text
                           Cases.bigFolder Cases.notes))).
    reflexivity.
Defined.

(** X15 at scale 10. *)
Lemma zoom_at_a_bound_is_ignored_witness :
  Viewport.handleWheel Examples.zoomIn Cases.atMax = (Cases.atMax, false).
Proof.
  apply (proj1 (zoom_at_a_bound_is_ignored Examples.zoomIn Cases.atMax));
    reflexivity.
Defined.

(** X16 from the identity transform, cursor at (120, 80), magnitudes
    within 100: the scale returns to 1 (within 3 * 2^-53). *)
Lemma zoom_in_then_out_restores_within_rounding_witness :
  (Qabs (Viewport.x
           (fst (Viewport64.handleWheel Cases.zoomOut
                   (fst (Viewport64.handleWheel Examples.zoomIn
                           Viewport.identity))))
         - Viewport.x Viewport.identity)
   <= 756 * (Binary64.unitRoundoff * 100))%Q.
Proof.
  refine (proj1 (proj2 (proj2 (proj2
            (@zoom_in_then_out_restores_within_rounding
               Examples.zoomIn Cases.zoomOut Viewport.identity 100
               _ _ eq_refl eq_refl eq_refl eq_refl _ _ _ _ _ _ _ _))))).
  - reflexivity.
  - discriminate.
  - split; apply Qle_bool_iff; vm_compute; reflexivity.
  - apply Qle_bool_iff. vm_compute. reflexivity.
  - apply Qle_bool_iff. vm_compute. reflexivity.
  - apply Qle_bool_iff. vm_compute. reflexivity.
  - apply Qle_bool_iff. vm_compute. reflexivity.
  - apply Qle_bool_iff. vm_compute. reflexivity.
  - apply Qle_bool_iff. vm_compute. reflexivity.
  - apply Qle_bool_iff. vm_compute. reflexivity.
Defined.

(** X17 after one wheel tick: press at (0, 0), move to (27, 0). *)
Lemma pan_keeps_grabbed_point_under_cursor_witness :
  (Qabs (Viewport.x
           (Viewport64.handleMouseMove
              (Viewport.drag (Viewport.handleMouseDown 0 0 0 Cases.afterTick))
              27 0 (Viewport.transformRef Cases.afterTick))
         - (Viewport.x (Viewport.transformRef Cases.afterTick) + (27 - 0)))
   <= 6 * (Binary64.unitRoundoff * 100))%Q.
Proof.
  refine (proj1 (proj2 (proj2 (proj2
            (@pan_keeps_grabbed_point_under_cursor Cases.afterTick
               0 0 27 0 0 0 0 0 100 _ _ _ _ _ _ _ _ _))))).
  - vm_compute. reflexivity.
  - apply Qle_bool_iff. vm_compute. reflexivity.
  - apply Qle_bool_iff. vm_compute. reflexivity.
  - apply Qle_bool_iff. vm_compute. reflexivity.
  - apply Qle_bool_iff. vm_compute. reflexivity.
  - apply Qle_bool_iff. vm_compute. reflexivity.
  - apply Qle_bool_iff. vm_compute. reflexivity.
  - apply Qle_bool_iff. vm_compute. reflexivity.
  - apply Qle_bool_iff. vm_compute. reflexivity.
Defined.

(** X18 on three ticks in one window. *)
Lemma wheel_burst_counts_once_witness :
  Viewport.run Viewport.opened
    (Viewport.Wheel Examples.tick
     :: map Viewport.Wheel [Examples.tick; Examples.tick])
  = Viewport.run Viewport.opened [Viewport.Wheel Examples.tick].
Proof.
  apply (proj1 (wheel_burst_counts_once Viewport.opened Examples.tick
                  [Examples.tick; Examples.tick])).
  reflexivity.
Defined.

(** X19 on a move and a secondary-button press. *)
Lemma no_pan_without_primary_button_witness :
  Viewport.run Viewport.opened
    [Viewport.MouseMove 1 2; Viewport.MouseDown 2 0 0] = Viewport.opened.
Proof.
  apply (@no_pan_without_primary_button Viewport.opened
           [Viewport.MouseMove 1 2; Viewport.MouseDown 2 0 0]
           eq_refl eq_refl).
Defined.

(** X21 after the user scrolled up. *)
Lemma button_shown_whenever_intent_false_witness :
  ChatHistory.showScrollButton
    (ChatHistory.run ChatHistory.initial
       [ChatHistory.Scrolled Examples.scrolledUp]) = true.
Proof.
  apply (@button_shown_whenever_intent_false
           [ChatHistory.Scrolled Examples.scrolledUp]).
  reflexivity.
Defined.

(** X22 with 1000 units of content in a 400-unit viewport. *)
Lemma at_bottom_is_monotone_witness :
  ChatHistory.isAtBottom
    {| ChatHistory.scrollHeight := 1000; ChatHistory.clientHeight := 400;
       ChatHistory.scrollTop := 600 |} = true.
Proof.
  apply (proj1 (at_bottom_is_monotone 1000 400 560 600));
    [discriminate | reflexivity].
Defined.

(** X24 on a compiled image kept as it is. *)
Lemma rendered_diagram_offers_all_actions_witness :
  Diagram.toolbar
    (Diagram.renderDiagram_settled Cases.keepMarkup true
       (Diagram.Resolved (js "<svg></svg>")) Diagram.initial)
  = [Diagram.CopyAction; Diagram.DownloadAction; Diagram.ExpandAction].
Proof.
  apply (proj2 (@rendered_diagram_offers_all_actions Cases.keepMarkup
                  (js "<svg></svg>") Diagram.initial) eq_refl).
Defined.

(** X25 after one streamed chunk. *)
Lemma thinking_row_lifecycle_witness :
  thinkingIndicator
    (App.isLoading
       (App.handleSendMessage_upto Examples.hello (Some 1%nat) Examples.idle
          (js "hi") None None))
    (App.messages
       (App.handleSendMessage_upto Examples.hello (Some 1%nat) Examples.idle
          (js "hi") None None))
  = false.
Proof.
  apply (proj1 (proj2 (@thinking_row_lifecycle Examples.hello Examples.idle
                         (js "hi") None None))
           _ _ None 1%nat eq_refl eq_refl).
Defined.
